(** * Pattern-matching engine of the dashboard: a shallow embedding

    The engine lives in the [PatternRecognition] component: a drawn stroke
    is normalised, resampled by arc length and compared with every series
    of the corpus by dynamic time warping; the ten closest series are kept.

    The program is written once, over a type of numbers with the
    operations JavaScript provides ([JS.Number]).  Two instances follow:
    - [binary64], the IEEE 754 doubles of JavaScript, on which the program
      runs ([vm_compute]);
    - [exactNumber], a real number, one of the two infinities, or NaN,
      with exact arithmetic on the real numbers (rounding, overflow and
      the sign of zero are left out) and the special values of IEEE 754,
      so that [0 / 0], [x || 1], [Math.min()] and the [Infinity] cells of
      the DTW table behave as in the source.  The theorems are about this
      instance. *)

From Stdlib Require Import Reals Lra Lia ZArith.
From Stdlib Require Floats Uint63 OrderedTypeEx.
From stdpp Require Import base list strings sorting pretty.

Open Scope R_scope.

(** ** Numbers *)

Module JS.

(** The operations on numbers that the engine uses. *)
Class Number (N : Type) : Type := {
  (** an integer literal *)
  lit : Z -> N;
  (** a length or a loop counter used as a number *)
  ofNat : nat -> N;
  (** [Infinity] and [-Infinity] *)
  infinity : N;
  minusInfinity : N;
  (** what arithmetic makes of [undefined] *)
  nan : N;
  (** [a + b], [a - b], [a * b], [a / b] *)
  add : N -> N -> N;
  sub : N -> N -> N;
  mul : N -> N -> N;
  div : N -> N -> N;
  (** [a < b], [a >= b], [a > b] *)
  lt : N -> N -> bool;
  ge : N -> N -> bool;
  gt : N -> N -> bool;
  (** [Math.sqrt(a)] and [Math.pow(a, 2)] *)
  sqrt : N -> N;
  pow2 : N -> N;
  (** [Math.min(a, b)] and [Math.max(a, b)] *)
  min2 : N -> N -> N;
  max2 : N -> N -> N;
  (** the truthiness of a number *)
  truthy : N -> bool
}.

(** [Math.min(...l)] and [Math.max(...l)]: with no argument they are
    [Infinity] and [-Infinity]. *)
Definition min {N : Type} `{!Number N} (l : list N) : N :=
  foldr min2 infinity l.

Definition max {N : Type} `{!Number N} (l : list N) : N :=
  foldr max2 minusInfinity l.

(** [a || b] on numbers. *)
Definition or {N : Type} `{!Number N} (a b : N) : N :=
  if truthy a then a else b.

End JS.

Declare Scope num_scope.
Delimit Scope num_scope with num.
Infix "+" := JS.add : num_scope.
Infix "-" := JS.sub : num_scope.
Infix "*" := JS.mul : num_scope.
Infix "/" := JS.div : num_scope.
Infix "<?" := JS.lt : num_scope.
Infix ">=?" := JS.ge (at level 70) : num_scope.
Infix ">?" := JS.gt (at level 70) : num_scope.

(** The literals of the source. *)
Notation "0" := (JS.lit 0%Z) : num_scope.
Notation "1" := (JS.lit 1%Z) : num_scope.
Notation "2" := (JS.lit 2%Z) : num_scope.
Notation "5" := (JS.lit 5%Z) : num_scope.
Notation "20" := (JS.lit 20%Z) : num_scope.
Notation "100" := (JS.lit 100%Z) : num_scope.

(** *** Exact numbers *)

Inductive num : Type :=
| Fin (r : R)
| PInf
| NInf
| NaN.

Bind Scope num_scope with num.

Module Num.

Definition Rltb (a b : R) : bool := if Rlt_dec a b then true else false.
Definition Reqb (a b : R) : bool := if Req_dec_T a b then true else false.

Definition finite (a : num) : Prop :=
  match a with Fin _ => True | _ => False end.

Definition isNaN (a : num) : bool :=
  match a with NaN => true | _ => false end.

Definition lit (z : Z) : num := Fin (IZR z).

Definition ofNat (n : nat) : num := Fin (INR n).

(** Unary minus. *)
Definition neg (a : num) : num :=
  match a with
  | Fin r => Fin (- r)
  | PInf => NInf
  | NInf => PInf
  | NaN => NaN
  end.

Definition add (a b : num) : num :=
  match a, b with
  | Fin r, Fin s => Fin (r + s)
  | NaN, _ | _, NaN => NaN
  | PInf, NInf | NInf, PInf => NaN
  | PInf, _ | _, PInf => PInf
  | NInf, _ | _, NInf => NInf
  end.

Definition sub (a b : num) : num := add a (neg b).

(** An infinity times (or divided by) a finite [r]: the sign follows [r],
    and [Infinity * 0] is NaN. *)
Definition scaleInf (positive : bool) (r : R) : num :=
  if Reqb r 0 then NaN
  else if xorb positive (Rltb r 0) then PInf else NInf.

Definition mul (a b : num) : num :=
  match a, b with
  | Fin r, Fin s => Fin (r * s)
  | NaN, _ | _, NaN => NaN
  | PInf, Fin s => scaleInf true s
  | NInf, Fin s => scaleInf false s
  | Fin r, PInf => scaleInf true r
  | Fin r, NInf => scaleInf false r
  | PInf, PInf | NInf, NInf => PInf
  | PInf, NInf | NInf, PInf => NInf
  end.

(** A zero divisor is taken as [+0]. *)
Definition div (a b : num) : num :=
  match a, b with
  | Fin r, Fin s =>
      if Reqb s 0 then scaleInf true r else Fin (r / s)
  | NaN, _ | _, NaN => NaN
  | Fin _, _ => Fin 0
  | PInf, Fin s => if Rltb s 0 then NInf else PInf
  | NInf, Fin s => if Rltb s 0 then PInf else NInf
  | _, _ => NaN
  end.

(** Every comparison with NaN is false. *)
Definition lt (a b : num) : bool :=
  match a, b with
  | Fin r, Fin s => Rltb r s
  | NaN, _ | _, NaN => false
  | _, NInf => false
  | PInf, _ => false
  | _, _ => true
  end.

Definition ge (a b : num) : bool :=
  match a, b with
  | NaN, _ | _, NaN => false
  | _, _ => negb (lt a b)
  end.

Definition gt (a b : num) : bool := lt b a.

Definition sqrt (a : num) : num :=
  match a with
  | Fin r => if Rltb r 0 then NaN else Fin (R_sqrt.sqrt r)
  | PInf => PInf
  | _ => NaN
  end.

Definition pow2 (a : num) : num :=
  match a with
  | Fin r => Fin (r * r)
  | NaN => NaN
  | _ => PInf
  end.

(** NaN wins. *)
Definition min2 (a b : num) : num :=
  if isNaN a || isNaN b then NaN else if lt b a then b else a.

Definition max2 (a b : num) : num :=
  if isNaN a || isNaN b then NaN else if lt a b then b else a.

(** [0] and NaN are falsy. *)
Definition truthy (a : num) : bool :=
  match a with
  | Fin r => negb (Reqb r 0)
  | NaN => false
  | _ => true
  end.

End Num.

#[global] Instance exactNumber : JS.Number num := {|
  JS.lit := Num.lit;
  JS.ofNat := Num.ofNat;
  JS.infinity := PInf;
  JS.minusInfinity := NInf;
  JS.nan := NaN;
  JS.add := Num.add;
  JS.sub := Num.sub;
  JS.mul := Num.mul;
  JS.div := Num.div;
  JS.lt := Num.lt;
  JS.ge := Num.ge;
  JS.gt := Num.gt;
  JS.sqrt := Num.sqrt;
  JS.pow2 := Num.pow2;
  JS.min2 := Num.min2;
  JS.max2 := Num.max2;
  JS.truthy := Num.truthy
|}.

(** *** IEEE 754 doubles *)

Module Binary64.

Import PrimFloat.

Definition lit (z : Z) : float :=
  match z with
  | Zneg p => opp (of_uint63 (Uint63.of_Z (Zpos p)))
  | _ => of_uint63 (Uint63.of_Z z)
  end.

Definition ofNat (n : nat) : float := of_uint63 (Uint63.of_Z (Z.of_nat n)).

Definition ge (a b : float) : bool := leb b a.

Definition gt (a b : float) : bool := ltb b a.

(** [Math.pow(a, 2)], taken as [a * a]. *)
Definition pow2 (a : float) : float := mul a a.

(** NaN wins, and [-0] is below [+0]. *)
Definition min2 (a b : float) : float :=
  if is_nan a || is_nan b then nan
  else if ltb b a then b
  else if ltb a b then a
  else if get_sign a then a else b.

Definition max2 (a b : float) : float :=
  if is_nan a || is_nan b then nan
  else if ltb a b then b
  else if ltb b a then a
  else if get_sign a then b else a.

(** [0], [-0] and NaN are falsy. *)
Definition truthy (a : float) : bool := negb (is_nan a || eqb a zero).

End Binary64.

#[global] Instance binary64 : JS.Number PrimFloat.float := {|
  JS.lit := Binary64.lit;
  JS.ofNat := Binary64.ofNat;
  JS.infinity := PrimFloat.infinity;
  JS.minusInfinity := PrimFloat.neg_infinity;
  JS.nan := PrimFloat.nan;
  JS.add := PrimFloat.add;
  JS.sub := PrimFloat.sub;
  JS.mul := PrimFloat.mul;
  JS.div := PrimFloat.div;
  JS.lt := PrimFloat.ltb;
  JS.ge := Binary64.ge;
  JS.gt := Binary64.gt;
  JS.sqrt := PrimFloat.sqrt;
  JS.pow2 := Binary64.pow2;
  JS.min2 := Binary64.min2;
  JS.max2 := Binary64.max2;
  JS.truthy := Binary64.truthy
|}.

(** ** Data *)

(** A point [{x, y}]. *)
Record Point (N : Type) : Type := mkPoint { x : N; y : N }.

Arguments mkPoint {N} _ _.
Arguments x {N} _.
Arguments y {N} _.

(** One entry of [series.data]. *)
Record DataPoint (N : Type) : Type := mkDataPoint { month : string; sales : N }.

Arguments mkDataPoint {N} _ _.
Arguments month {N} _.
Arguments sales {N} _.

(** One entry of [timeSeriesData]. *)
Record Series (N : Type) : Type := mkSeries {
  product : string;
  category : string;
  data : list (DataPoint N);
  totalSales : N
}.

Arguments mkSeries {N} _ _ _ _.
Arguments product {N} _.
Arguments category {N} _.
Arguments data {N} _.
Arguments totalSales {N} _.

(** One entry of [results]: [{...series, similarity, normalizedData}]. *)
Record MatchResult (N : Type) : Type := mkMatchResult {
  matched : Series N;
  similarity : N;
  normalizedData : list (Point N)
}.

Arguments mkMatchResult {N} _ _ _.
Arguments matched {N} _.
Arguments similarity {N} _.
Arguments normalizedData {N} _.

(** The variables the resampling loops share.  [remaining] is
    [points[pointIndex..]]: the source only ever reads [points[pointIndex]]
    and increments [pointIndex]. *)
Record Walk (N : Type) : Type := mkWalk {
  result : list (Point N);
  currentDistance : N;
  prevPoint : Point N;
  remaining : list (Point N)
}.

Arguments mkWalk {N} _ _ _ _.
Arguments result {N} _.
Arguments currentDistance {N} _.
Arguments prevPoint {N} _.
Arguments remaining {N} _.

(** The state of the component. *)
Record State (N : Type) : Type := mkState {
  drawingPoints : list (Point N);
  isDrawing : bool;
  patternResults : list (MatchResult N);
  searching : bool;
  selectedCategory : string
}.

Arguments mkState {N} _ _ _ _ _.
Arguments drawingPoints {N} _.
Arguments isDrawing {N} _.
Arguments patternResults {N} _.
Arguments searching {N} _.
Arguments selectedCategory {N} _.

Section Engine.

Context {N : Type} `{!JS.Number N}.

Local Open Scope num_scope.

(** ** [resampleCurve] *)

(** The first loop: [pathLength], accumulated over [points[i-1]],
    [points[i]] for [i = 1 .. length - 1].  [prev] is [points[i-1]] and
    [rest] is [points[i..]]. *)
Fixpoint pathLengthLoop (pathLength : N) (prev : Point N)
    (rest : list (Point N)) : N :=
  match rest with
  | [] => pathLength
  | p :: rest' =>
      let dx := x p - x prev in
      let dy := y p - y prev in
      pathLengthLoop (pathLength + JS.sqrt (dx * dx + dy * dy)) p rest'
  end.

(** The [while] loop of one iteration of the [for] loop.  It stops when
    [currentDistance < targetDistance] fails, when the points are used up
    ([remaining] is empty), or at the [break] after a push. *)
Fixpoint whileLoop (targetDistance : N) (result : list (Point N))
    (currentDistance : N) (prevPoint : Point N) (remaining : list (Point N))
  : Walk N :=
  match remaining with
  | [] => mkWalk result currentDistance prevPoint []
  | nextPoint :: remaining' =>
      if currentDistance <? targetDistance then
        let dx := x nextPoint - x prevPoint in
        let dy := y nextPoint - y prevPoint in
        let segmentLength := JS.sqrt (dx * dx + dy * dy) in
        if currentDistance + segmentLength >=? targetDistance then
          let t := (targetDistance - currentDistance) / segmentLength in
          mkWalk
            (result ++ [mkPoint (x prevPoint + t * dx) (y prevPoint + t * dy)])
            currentDistance prevPoint remaining
        else
          whileLoop targetDistance result
            (currentDistance + segmentLength) nextPoint remaining'
      else mkWalk result currentDistance prevPoint remaining
  end.

(** The body of [for (let i = 1; i < n - 1; i++)]. *)
Definition forBody (stepSize : N) (w : Walk N) (i : nat) : Walk N :=
  let targetDistance := JS.ofNat i * stepSize in
  whileLoop targetDistance (result w) (currentDistance w) (prevPoint w)
    (remaining w).

Definition forLoop (stepSize : N) (w : Walk N) (n : nat) : Walk N :=
  foldl (forBody stepSize) w (seq 1 (n - 2)).

Definition resampleCurve (points : list (Point N)) (n : nat)
  : list (Point N) :=
  match points with
  | [] | [_] => points
  | p0 :: rest =>
      let pathLength := pathLengthLoop 0 p0 rest in
      let stepSize := pathLength / (JS.ofNat n - 1) in
      let w := forLoop stepSize (mkWalk [p0] 0 p0 rest) n in
      result w ++ [List.last rest p0]
  end.

(** ** [calculateDTWSimilarity] *)

(** [dtw[i][j]] in the cumulative-cost table [dtw], an array of rows.
    The loops only read cells that exist; a missing cell
    would read as [undefined], which [Math.min] turns into NaN. *)
Definition cell (dtw : list (list N)) (i j : nat) : N :=
  default JS.nan (dtw !! i ≫= (.!! j)).

(** [dtw[i][j] = v], for a cell that exists. *)
Definition setCell (dtw : list (list N)) (i j : nat) (v : N)
  : list (list N) :=
  alter (<[j := v]>) i dtw.

(** [c[k].y]; the loops only read points that exist. *)
Definition yAt (c : list (Point N)) (k : nat) : N :=
  from_option y JS.nan (c !! k).

(** The body of the inner loop, for [j = 1 .. m]. *)
Definition dtwCell (a b : list (Point N)) (i : nat) (dtw : list (list N))
    (j : nat) : list (list N) :=
  let cost := JS.sqrt (JS.pow2 (yAt a (i - 1) - yAt b (j - 1))) in
  setCell dtw i j
    (cost + JS.min [cell dtw (i - 1) j; cell dtw i (j - 1);
                    cell dtw (i - 1) (j - 1)]).

(** The body of the outer loop, for [i = 1 .. n]. *)
Definition dtwRow (a b : list (Point N)) (dtw : list (list N)) (i : nat)
  : list (list N) :=
  foldl (dtwCell a b i) dtw (seq 1 (length b)).

(** [Array(n + 1).fill().map(() => Array(m + 1).fill(Infinity))] followed
    by [dtw[0][0] = 0]; the rows are distinct arrays. *)
Definition dtwInit (n m : nat) : list (list N) :=
  setCell (replicate (n + 1) (replicate (m + 1) JS.infinity)) 0 0 0.

Definition dtwTable (a b : list (Point N)) : list (list N) :=
  foldl (dtwRow a b) (dtwInit (length a) (length b)) (seq 1 (length a)).

Definition calculateDTWSimilarity (a b : list (Point N)) : N :=
  cell (dtwTable a b) (length a) (length b).

(** ** The corpus: [timeSeriesData] *)

(** The test of the last [filter] of [timeSeriesData]:
    [series.data.filter(d => d.sales > 0).length >=
     Math.min(5, allMonths.length / 2)]. *)
Definition hasEnoughData (allMonths : list string) (series : Series N)
  : bool :=
  JS.ofNat (length (List.filter (fun d => sales d >? 0) (data series)))
  >=? JS.min [5; JS.ofNat (length allMonths) / 2].

(** "Filter out products with insufficient data": [result] holds one
    series per product, each with one entry per month of [allMonths]. *)
Definition filterInsufficientData (allMonths : list string)
    (result : list (Series N)) : list (Series N) :=
  List.filter (hasEnoughData allMonths) result.

(** ** [searchForMatchingPatterns] *)

Definition numSamplePoints : nat := 20.

(** The stroke scaled to the unit square, Y inverted. *)
Definition normalizedDrawing (drawingPoints : list (Point N))
  : list (Point N) :=
  let minX := JS.min (x <$> drawingPoints) in
  let maxX := JS.max (x <$> drawingPoints) in
  let minY := JS.min (y <$> drawingPoints) in
  let maxY := JS.max (y <$> drawingPoints) in
  (fun p =>
     mkPoint ((x p - minX) / JS.or (maxX - minX) 1)
             (1 - (y p - minY) / JS.or (maxY - minY) 1))
  <$> drawingPoints.

(** The series as a curve: X is the position in the series, Y the sales
    scaled to [0, 1]. *)
Definition normalizedSeries (series : Series N) : list (Point N) :=
  let rawValues := sales <$> data series in
  let minVal := JS.min rawValues in
  let maxVal := JS.max rawValues in
  imap (fun i d =>
          mkPoint (JS.ofNat i / (JS.ofNat (length (data series)) - 1))
                  ((sales d - minVal) / JS.or (maxVal - minVal) 1))
       (data series).

(** The category filter: ['All'] keeps every series. *)
Definition inCategory (selectedCategory : string) (series : Series N)
  : bool :=
  if bool_decide (selectedCategory <> "All"%string)
  then bool_decide (category series = selectedCategory)
  else true.

(** The function mapped over the filtered corpus. *)
Definition scoreSeries (sampledDrawing : list (Point N)) (series : Series N)
  : MatchResult N :=
  let sampledSeries :=
    resampleCurve (normalizedSeries series) numSamplePoints in
  mkMatchResult series
    (calculateDTWSimilarity sampledDrawing sampledSeries)
    (normalizedSeries series).

(** One result per series of the selected category, in corpus order. *)
Definition results (drawingPoints : list (Point N))
    (timeSeriesData : list (Series N)) (selectedCategory : string)
  : list (MatchResult N) :=
  let sampledDrawing :=
    resampleCurve (normalizedDrawing drawingPoints) numSamplePoints in
  scoreSeries sampledDrawing
    <$> List.filter (inCategory selectedCategory) timeSeriesData.

(** The comparator [(a, b) => a.similarity - b.similarity]. *)
Definition bySimilarity (a b : MatchResult N) : N :=
  similarity a - similarity b.

(** [Array.prototype.sort] is a stable sort that places [a] after [b] only
    if [compareFn(a, b) > 0] (a NaN is read as [0]).  It is modelled by the
    stable insertion sort; with a consistent comparator every stable sort
    gives the same array. *)
Fixpoint sortInsert {A : Type} (compareFn : A -> A -> N) (a : A)
    (sorted : list A) : list A :=
  match sorted with
  | [] => [a]
  | b :: sorted' =>
      if compareFn a b >? 0 then b :: sortInsert compareFn a sorted'
      else a :: sorted
  end.

Fixpoint sort {A : Type} (compareFn : A -> A -> N) (l : list A) : list A :=
  match l with
  | [] => []
  | a :: l' => sortInsert compareFn a (sort compareFn l')
  end.

(** [sortedResults]: [results.sort(...).slice(0, 10)]. *)
Definition sortedResults (drawingPoints : list (Point N))
    (timeSeriesData : list (Series N)) (selectedCategory : string)
  : list (MatchResult N) :=
  take 10 (sort bySimilarity
             (results drawingPoints timeSeriesData selectedCategory)).

(** ** The component state and its event handlers *)

Definition initialState : State N := mkState [] false [] false "All".

(** [searchForMatchingPatterns]: nothing happens without a stroke or
    without a corpus; otherwise the results are replaced. *)
Definition searchForMatchingPatterns (timeSeriesData : list (Series N))
    (st : State N) : State N :=
  if bool_decide (length (drawingPoints st) = 0%nat)
     || bool_decide (length timeSeriesData = 0%nat)
  then st
  else
    mkState (drawingPoints st) (isDrawing st)
      (sortedResults (drawingPoints st) timeSeriesData (selectedCategory st))
      false (selectedCategory st).

(** [startDrawing] at the pointer position [p]. *)
Definition startDrawing (p : Point N) (st : State N) : State N :=
  mkState [p] true (patternResults st) (searching st) (selectedCategory st).

(** [draw] at the pointer position [p]. *)
Definition draw (p : Point N) (st : State N) : State N :=
  if isDrawing st
  then mkState (drawingPoints st ++ [p]) (isDrawing st) (patternResults st)
         (searching st) (selectedCategory st)
  else st.

(** [endDrawing]: "Only search if we have enough points". *)
Definition endDrawing (timeSeriesData : list (Series N)) (st : State N)
  : State N :=
  let st' := mkState (drawingPoints st) false (patternResults st)
               (searching st) (selectedCategory st) in
  if bool_decide (5 <= length (drawingPoints st))%nat
  then searchForMatchingPatterns timeSeriesData st'
  else st'.

Definition clearDrawing (st : State N) : State N :=
  mkState [] (isDrawing st) [] (searching st) (selectedCategory st).

(** ** Match quality *)

(** [Math.max(0, 100 - d.similarity * 20)], the number shown as
    "Match Quality". *)
Definition matchQuality (d : MatchResult N) : N :=
  JS.max [0; 100 - similarity d * 20].

End Engine.

(** The specification's [clamp(0, 100, v)] on real numbers. *)
Definition clamp (lo hi v : R) : R := Rmax lo (Rmin hi v).

(** ** The records of [data] *)

(** A [Date], as far as the component reads it: [getFullYear()] and
    [getMonth()], which are NaN for an invalid date. *)
Inductive JSDate : Type :=
| InvalidDate
| LocalDate (fullYear : Z) (month : nat).

(** One record of [data].  [OrderDate] is [None] when the field is missing
    or falsy, and else the date that [new Date(item.OrderDate)] builds.  A
    missing text is [""] and a missing number is NaN: the component reads
    the texts through [!field], [field || 'Unknown'] and [filter(Boolean)]
    and the numbers through [field || 0], which do not tell them apart. *)
Record Item (N : Type) : Type := mkItem {
  OrderDate : option JSDate;
  ProductName : string;
  CategoryName : string;
  OrderItemQuantity : N;
  PerUnitPrice : N
}.

Arguments mkItem {N} _ _ _ _ _.
Arguments OrderDate {N} _.
Arguments ProductName {N} _.
Arguments CategoryName {N} _.
Arguments OrderItemQuantity {N} _.
Arguments PerUnitPrice {N} _.

(** ** Objects used as maps *)

Module Object.

(** The properties every object inherits from [Object.prototype]; each
    holds a function, but for [__proto__], which holds the prototype. *)
Definition prototype : list string :=
  ["constructor"; "__defineGetter__"; "__defineSetter__"; "hasOwnProperty";
   "__lookupGetter__"; "__lookupSetter__"; "isPrototypeOf";
   "propertyIsEnumerable"; "toString"; "valueOf"; "__proto__";
   "toLocaleString"]%string.

(** The own property [key] of the object [o], a list of its own
    properties in creation order. *)
Fixpoint get {V : Type} (o : list (string * V)) (key : string) : option V :=
  match o with
  | [] => None
  | (k, v) :: o' => if bool_decide (k = key) then Some v else get o' key
  end.

(** [o[key] = v]: an own property keeps its place, a new one comes
    last. *)
Fixpoint assign {V : Type} (o : list (string * V)) (key : string) (v : V)
  : list (string * V) :=
  match o with
  | [] => [(key, v)]
  | (k, w) :: o' =>
      if bool_decide (k = key) then (k, v) :: o'
      else (k, w) :: assign o' key v
  end.

Definition digitValue (c : Ascii.ascii) : option Z :=
  let n := Z.of_nat (Ascii.nat_of_ascii c) in
  if bool_decide (48 <= n <= 57)%Z then Some (n - 48)%Z else None.

Fixpoint decimal (acc : Z) (s : string) : option Z :=
  match s with
  | EmptyString => Some acc
  | String c s' =>
      match digitValue c with
      | Some d => decimal (10 * acc + d) s'
      | None => None
      end
  end.

(** The keys that are array indices: the decimal numerals, without a
    leading zero, of the integers from [0] to [2^32 - 2]. *)
Definition arrayIndex (key : string) : option Z :=
  match key with
  | EmptyString => None
  | String c rest =>
      if bool_decide (digitValue c = Some 0%Z)
         && negb (bool_decide (rest = EmptyString))
      then None
      else
        match decimal 0 key with
        | Some i => if bool_decide (i < 2 ^ 32 - 1)%Z then Some i else None
        | None => None
        end
  end.

Definition indexOf {V : Type} (kv : string * V) : Z :=
  default 0%Z (arrayIndex (fst kv)).

Fixpoint insertByIndex {V : Type} (kv : string * V)
    (sorted : list (string * V)) : list (string * V) :=
  match sorted with
  | [] => [kv]
  | kw :: sorted' =>
      if bool_decide (indexOf kv <= indexOf kw)%Z then kv :: sorted
      else kw :: insertByIndex kv sorted'
  end.

(** The order in which the own properties are enumerated: the array
    indices in ascending order, then the other keys in creation order. *)
Definition ownProperties {V : Type} (o : list (string * V))
  : list (string * V) :=
  foldr insertByIndex [] (filter (fun kv => is_Some (arrayIndex (fst kv))) o)
  ++ filter (fun kv => ~ is_Some (arrayIndex (fst kv))) o.

(** [Object.keys(o)] and [Object.values(o)]. *)
Definition keys {V : Type} (o : list (string * V)) : list string :=
  fst <$> ownProperties o.

Definition values {V : Type} (o : list (string * V)) : list V :=
  snd <$> ownProperties o.

End Object.

(** [s.padStart(targetLength, padString)]: [padString] is repeated, and
    cut, to fill what [s] lacks. *)
Definition padStart (targetLength : nat) (padString s : string) : string :=
  let fillLength := (targetLength - String.length s)%nat in
  String.string_of_list_ascii
    (take fillLength
       (concat (replicate fillLength (String.list_ascii_of_string padString))))
  +:+ s.

(** [Array.from(new Set(l))]: the first occurrence of each element, in
    order. *)
Fixpoint unique (l : list string) : list string :=
  match l with
  | [] => []
  | a :: l' => a :: filter (fun b => b <> a) (unique l')
  end.

(** The value of one entry of [productMap]. *)
Module ProductMap.

Record Entry (N : Type) : Type := mkEntry {
  product : string;
  category : string;
  months : list (string * N);
  totalSales : N
}.

Arguments mkEntry {N} _ _ _ _.
Arguments product {N} _.
Arguments category {N} _.
Arguments months {N} _.
Arguments totalSales {N} _.

End ProductMap.

Section Corpus.

Context {N : Type} `{!JS.Number N}.

Local Open Scope num_scope.

(** The key of the month of a date:
    [`${date.getFullYear()}-${(date.getMonth() + 1).toString().padStart(2, '0')}`]. *)
Definition monthKey (date : JSDate) : string :=
  match date with
  | InvalidDate => "NaN-NaN"
  | LocalDate fullYear month =>
      pretty fullYear +:+ "-" +:+ padStart 2 "0" (pretty (month + 1)%nat)
  end.

(** [(item.OrderItemQuantity || 0) * (item.PerUnitPrice || 0)]. *)
Definition salesValue (item : Item N) : N :=
  JS.or (OrderItemQuantity item) 0 * JS.or (PerUnitPrice item) 0.

(** The two additions to an entry: the month is created at [0] when it is
    missing or falsy. *)
Definition credit (entry : ProductMap.Entry N) (month : string) (value : N)
  : ProductMap.Entry N :=
  ProductMap.mkEntry (ProductMap.product entry) (ProductMap.category entry)
    (Object.assign (ProductMap.months entry) month
       (JS.or (default JS.nan (Object.get (ProductMap.months entry) month)) 0
        + value))
    (ProductMap.totalSales entry + value).

(** The body of [data.forEach]; [None] stands for the [TypeError] thrown
    when [productMap[product]] is an inherited property, which has no
    [months]. *)
Definition addItem (productMap : list (string * ProductMap.Entry N))
    (item : Item N) : option (list (string * ProductMap.Entry N)) :=
  match OrderDate item with
  | None => Some productMap
  | Some date =>
      if bool_decide (ProductName item = ""%string) then Some productMap
      else
        let month := monthKey date in
        let product := ProductName item in
        let category :=
          if bool_decide (CategoryName item = ""%string) then "Unknown"%string
          else CategoryName item in
        match Object.get productMap product with
        | Some entry =>
            Some (Object.assign productMap product
                    (credit entry month (salesValue item)))
        | None =>
            if bool_decide (product ∈ Object.prototype) then None
            else
              Some (Object.assign productMap product
                      (credit (ProductMap.mkEntry product category [] 0)
                         month (salesValue item)))
        end
  end.

(** "Group data by product and time period". *)
Definition groupByProduct (data : list (Item N))
  : option (list (string * ProductMap.Entry N)) :=
  foldl (fun productMap item => productMap ≫= fun m => addItem m item)
    (Some []) data.

(** The comparison of [sort()] without a comparator, on strings. *)
Definition defaultCompare (a b : string) : N :=
  if String.ltb a b then JS.lit (-1) else if String.ltb b a then 1 else 0.

(** "Get all months in chronological order". *)
Definition allMonths (productMap : list (string * ProductMap.Entry N))
  : list string :=
  sort defaultCompare
    (unique (Object.values productMap
             ≫= fun product => Object.keys (ProductMap.months product))).

(** "Convert to arrays for time series analysis": a month without sales,
    or with sales that are falsy, counts [0]. *)
Definition toSeries (allMonths : list string) (product : ProductMap.Entry N)
  : Series N :=
  mkSeries (ProductMap.product product) (ProductMap.category product)
    ((fun month =>
        mkDataPoint month
          (JS.or (default JS.nan (Object.get (ProductMap.months product) month))
             0))
     <$> allMonths)
    (ProductMap.totalSales product).

(** [timeSeriesData]; [None] when a [TypeError] is thrown. *)
Definition timeSeriesData (data : list (Item N)) : option (list (Series N)) :=
  if bool_decide (length data = 0%nat) then Some []
  else
    productMap ← groupByProduct data;
    let allMonths := allMonths productMap in
    let result := toSeries allMonths <$> Object.values productMap in
    Some (filterInsufficientData allMonths result).

(** [categories]: the choices of the category filter. *)
Definition categories (data : list (Item N)) : list string :=
  if bool_decide (length data = 0%nat) then ["All"%string]
  else
    "All"%string
    :: List.filter (fun c => negb (String.eqb c ""))
         (unique (CategoryName <$> data)).

End Corpus.

(** ** Notions used in the statements *)

(** The cumulative-cost table of exact numbers. *)
Abbreviation Table := (list (list num)).

(** Both coordinates are real numbers. *)
Definition finitePoint (p : Point num) : Prop :=
  Num.finite (x p) /\ Num.finite (y p).

(** The point with real coordinates [a] and [b]. *)
Definition pt (a b : R) : Point num := mkPoint (Fin a) (Fin b).

(** [a] is a real number in the closed interval from [lo] to [hi]. *)
Definition between (lo hi : R) (a : num) : Prop :=
  match a with Fin r => lo <= r <= hi | _ => False end.

(** [a <= b] on numbers that are not NaN. *)
Definition numLe (a b : num) : Prop :=
  match a, b with
  | Fin r, Fin s => r <= s
  | NaN, _ | _, NaN => False
  | NInf, _ | _, PInf => True
  | _, _ => False
  end.

(** A distance: a non-negative real number or [Infinity]. *)
Definition distance (a : num) : Prop := numLe (Fin 0) a.

(** The series whose [data] holds the real [values], one per month. *)
Definition seriesOf (product category : string) (values : list (string * R))
    (total : num) : Series num :=
  mkSeries product category
    ((fun mv => mkDataPoint (fst mv) (Fin (snd mv))) <$> values) total.

(** How many of the real [values] satisfy the test [keep]. *)
Definition countPeriods (keep : R -> bool) (values : list (string * R)) : nat :=
  length (List.filter (fun mv => keep (snd mv)) values).

(** "The count of periods with a non-zero value is at least
    [min(5, periodCount / 2)]", as the specification words it. *)
Definition specMinimumSupport (values : list (string * R))
    (periodCount : nat) : Prop :=
  Rmin 5 (INR periodCount / 2)
  <= INR (countPeriods (fun v => negb (Num.Reqb v 0)) values).

(** The table has [n + 1] rows of [m + 1] cells. *)
Definition shape (n m : nat) (dtw : Table) : Prop :=
  length dtw = S n /\ Forall (fun row => length row = S m) dtw.

(** The state of the table when the loops reach the cell [(i, j)]: the
    border, the rows before [i] and the cells of row [i] before column [j]
    hold values that satisfy [P]. *)
Definition filled (n m : nat) (P : nat -> nat -> num -> Prop) (i j : nat)
    (dtw : Table) : Prop :=
  shape n m dtw
  /\ forall i' j', (i' <= n)%nat -> (j' <= m)%nat ->
       (i' = 0 \/ j' = 0 \/ i' < i \/ (i' = i /\ j' < j))%nat ->
       P i' j' (cell dtw i' j').

(** The local cost of the cell [(i, j)]. *)
Definition cost (a b : list (Point num)) (i j : nat) : num :=
  JS.sqrt (JS.pow2 (yAt a (i - 1) - yAt b (j - 1))%num).

(** Every point of the curve has a real [y]. *)
Definition finiteY (c : list (Point num)) : Prop :=
  Forall (fun p => Num.finite (y p)) c.

(** A curve given by real coordinates. *)
Definition pointOf (ab : R * R) : Point num := pt (fst ab) (snd ab).
Definition points (rs : list (R * R)) : list (Point num) := pointOf <$> rs.

(** The Euclidean length of the segment from [p] to [q]. *)
Definition segment (p q : R * R) : R :=
  sqrt ((fst q - fst p) * (fst q - fst p) + (snd q - snd p) * (snd q - snd p)).

(** The length of the polyline that starts at [prev] and runs through
    [rest]. *)
Fixpoint pathFrom (prev : R * R) (rest : list (R * R)) : R :=
  match rest with
  | [] => 0
  | p :: rest' => segment prev p + pathFrom p rest'
  end.

(** The point at parameter [t] of the segment from [p] to [q]. *)
Definition interpolate (p q : R * R) (t : R) : R * R :=
  (fst p + t * (fst q - fst p), snd p + t * (snd q - snd p)).

(** The least and the greatest of a non-empty list of real numbers. *)
Fixpoint lower (l : list R) : R :=
  match l with
  | [] => 0
  | a :: l' => match l' with [] => a | _ => Rmin a (lower l') end
  end.

Fixpoint upper (l : list R) : R :=
  match l with
  | [] => 0
  | a :: l' => match l' with [] => a | _ => Rmax a (upper l') end
  end.

(** [(v - lo) / (hi - lo || 1)] on real numbers. *)
Definition scale (lo hi v : R) : R :=
  (v - lo) / (if Req_dec_T (hi - lo) 0 then 1 else hi - lo).

(** The X coordinates never decrease along the curve. *)
Definition nonDecreasingX (c : list (Point num)) : Prop :=
  forall i j p q, (i <= j)%nat -> c !! i = Some p -> c !! j = Some q ->
    numLe (x p) (x q).

(** The invariant of a NormalizedCurve in the specification's data model:
    [x] in [0, 1] and non-decreasing, [y] in [0, 1]. *)
Definition normalizedCurve (c : list (Point num)) : Prop :=
  Forall (fun p => between 0 1 (x p) /\ between 0 1 (y p)) c
  /\ nonDecreasingX c.

(** Equality of numbers is decidable. *)
#[global] Instance num_eq_dec : EqDecision num.
Proof.
  intros a b. unfold Decision.
  destruct a as [r| | |], b as [s| | |];
    try (right; discriminate); try (left; reflexivity).
  destruct (Req_dec_T r s); [left; f_equal; assumption | right; congruence].
Defined.

(** The results are in ascending order of [similarity]. *)
Definition ascending (l : list (MatchResult num)) : Prop :=
  StronglySorted (fun a b => numLe (similarity a) (similarity b)) l.

(** Every entry of the series holds a real number. *)
Definition realSeries (series : Series num) : Prop :=
  Forall (fun d => Num.finite (sales d)) (data series).

(** A pointer position in whole pixels, in doubles. *)
Definition pixel (a b : Z) : Point PrimFloat.float :=
  mkPoint (JS.lit a) (JS.lit b).

(** A series of whole sales figures, in doubles. *)
Definition wholeSeries (product category : string) (values : list (string * Z))
  : Series PrimFloat.float :=
  mkSeries product category
    ((fun mv => mkDataPoint (fst mv) (JS.lit (snd mv))) <$> values)
    (JS.lit (foldr Z.add 0%Z (snd <$> values))).

(** The point at arc length [d] of the polyline that starts at [prev] and
    runs through [rest]: it lies on the first segment that ends at
    arc length [d] or beyond. *)
Fixpoint pointAt (prev : R * R) (rest : list (R * R)) (d : R) : R * R :=
  match rest with
  | [] => prev
  | p :: rest' =>
      if Rle_dec d (segment prev p)
      then interpolate prev p (d / segment prev p)
      else pointAt p rest' (d - segment prev p)
  end.

(** A set of points that holds the segment between any two of its
    points. *)
Definition convex (P : R * R -> Prop) : Prop :=
  forall p q t, P p -> P q -> 0 <= t <= 1 -> P (interpolate p q t).

(** The unit square. *)
Definition unitSquare (p : R * R) : Prop :=
  0 <= fst p <= 1 /\ 0 <= snd p <= 1.

(** The real [y] of the point [c[k]] of a curve of real points. *)
Definition yReal (c : list (Point num)) (k : nat) : R :=
  match yAt c k with Fin r => r | _ => 0 end.

(** A warping path to the cell [(i, j)], listed from its end: it starts
    at [(1, 1)] and advances by one row, one column, or both. *)
Inductive warping : nat -> nat -> list (nat * nat) -> Prop :=
| warping_start : warping 1 1 [(1, 1)%nat]
| warping_insertion (i j : nat) (w : list (nat * nat)) :
    warping i j w -> warping (S i) j ((S i, j) :: w)
| warping_deletion (i j : nat) (w : list (nat * nat)) :
    warping i j w -> warping i (S j) ((i, S j) :: w)
| warping_match (i j : nat) (w : list (nat * nat)) :
    warping i j w -> warping (S i) (S j) ((S i, S j) :: w).

(** The total cost of the cells of a path. *)
Definition pathCost (a b : list (Point num)) (w : list (nat * nat)) : R :=
  foldr (fun ij acc => Rabs (yReal a (fst ij - 1) - yReal b (snd ij - 1)) + acc)
    0 w.

(** What the table holds at [(i, j)]: [0] at the origin, [Infinity] on the
    rest of the border, and the least cost of a path elsewhere. *)
Definition leastCost (a b : list (Point num)) (i j : nat) (v : num) : Prop :=
  match i, j with
  | O, O => v = Fin 0
  | O, _ | _, O => v = PInf
  | _, _ =>
      exists s, v = Fin s
        /\ (exists w, warping i j w /\ pathCost a b w = s)
        /\ (forall w, warping i j w -> s <= pathCost a b w)
  end.

(** Every [y] of the curve is a real number between [lo] and [hi]. *)
Definition yBetween (lo hi : R) (c : list (Point num)) : Prop :=
  Forall (fun p => between lo hi (y p)) c.

(** The stroke moved by [(dx, dy)] after a change of scale by [sx] and
    [sy]. *)
Definition transformed (sx dx sy dy : R) (stroke : list (R * R))
  : list (R * R) :=
  (fun ab => (sx * fst ab + dx, sy * snd ab + dy)) <$> stroke.

(** The values of a series after a change of unit and of origin. *)
Definition rescaled (s d : R) (values : list (string * R))
  : list (string * R) :=
  (fun mv => (fst mv, s * snd mv + d)) <$> values.

(** What holds of [productMap] while the records are read: the key of an
    entry is its product, which is neither empty nor an inherited
    property, and every entry has at least one month. *)
Definition soundEntry {N : Type} (kv : string * ProductMap.Entry N) : Prop :=
  ProductMap.product (snd kv) = fst kv
  /\ ProductMap.months (snd kv) <> []
  /\ NoDup (fst <$> ProductMap.months (snd kv))
  /\ (fst kv ∉ Object.prototype)
  /\ fst kv <> ""%string.

(** The keys of the map are distinct and its entries are sound. *)
Definition sound {N : Type} (productMap : list (string * ProductMap.Entry N))
  : Prop :=
  NoDup (fst <$> productMap) /\ Forall soundEntry productMap.

(** A record that the component reads: it has a date and a product. *)
Definition usable {N : Type} (item : Item N) : Prop :=
  OrderDate item <> None /\ ProductName item <> ""%string.

(** The record is read for the product: it has a date and this product
    name, which is not empty. *)
Definition recordOf {N : Type} (product : string) (item : Item N) : bool :=
  match OrderDate item with
  | Some _ =>
      negb (String.eqb (ProductName item) "")
      && String.eqb (ProductName item) product
  | None => false
  end.

(** The record is dated in the month [m]. *)
Definition inMonth {N : Type} (m : string) (item : Item N) : bool :=
  match OrderDate item with
  | Some date => String.eqb (monthKey date) m
  | None => false
  end.

(** [item.CategoryName || 'Unknown']. *)
Definition categoryOf {N : Type} (item : Item N) : string :=
  if bool_decide (CategoryName item = ""%string) then "Unknown"%string
  else CategoryName item.

(** The first record read for the product. *)
Definition firstRecord {N : Type} (items : list (Item N)) (product : string)
  : option (Item N) :=
  List.find (recordOf product) items.

(** A quantity or a price that is a real number, or is missing. *)
Definition realOrMissing (a : num) : Prop := a <> PInf /\ a <> NInf.

(** A record whose quantity and price are real numbers or missing. *)
Definition realItem (item : Item num) : Prop :=
  realOrMissing (OrderItemQuantity item) /\ realOrMissing (PerUnitPrice item).

(** A missing number counts [0]. *)
Definition orZero (a : num) : R := match a with Fin r => r | _ => 0 end.

(** Quantity times price, in real numbers. *)
Definition salesOf (item : Item num) : R :=
  orZero (OrderItemQuantity item) * orZero (PerUnitPrice item).

(** The sum of a list of real numbers. *)
Definition sumR (l : list R) : R := foldr Rplus 0 l.

(** The sales of the product in the month [m]. *)
Definition monthlySales (items : list (Item num)) (product m : string) : R :=
  sumR (salesOf <$> List.filter
                      (fun item => recordOf product item && inMonth m item)
                      items).

(** The sales of the product over all months. *)
Definition productSales (items : list (Item num)) (product : string) : R :=
  sumR (salesOf <$> List.filter (recordOf product) items).

(** The first date is in an earlier month than the second. *)
Definition earlier (d d' : JSDate) : Prop :=
  match d, d' with
  | LocalDate fullYear m, LocalDate fullYear' m' =>
      (fullYear < fullYear')%Z \/ (fullYear = fullYear' /\ (m < m')%nat)
  | _, _ => False
  end.

(** A date of a year of four digits. *)
Definition fourDigitYear (d : JSDate) : Prop :=
  match d with
  | LocalDate fullYear m => (1000 <= fullYear <= 9999)%Z /\ (m <= 11)%nat
  | InvalidDate => False
  end.

(** A record with whole numbers, in doubles. *)
Definition order (fullYear : Z) (month : nat) (product category : string)
    (quantity price : Z) : Item PrimFloat.float :=
  mkItem (Some (LocalDate fullYear month)) product category
    (JS.lit quantity) (JS.lit price).

(** A record with real numbers. *)
Definition sale (fullYear : Z) (month : nat) (product category : string)
    (quantity price : R) : Item num :=
  mkItem (Some (LocalDate fullYear month)) product category
    (Fin quantity) (Fin price).

(** ** Deciding comparisons of real numbers *)

Lemma Rltb_true (a b : R) : a < b -> Num.Rltb a b = true.
Proof. intros H. unfold Num.Rltb. destruct (Rlt_dec a b); [reflexivity | contradiction]. Qed.

Lemma Rltb_false (a b : R) : b <= a -> Num.Rltb a b = false.
Proof. intros H. unfold Num.Rltb. destruct (Rlt_dec a b); [lra | reflexivity]. Qed.

Lemma Reqb_true (a b : R) : a = b -> Num.Reqb a b = true.
Proof. intros H. unfold Num.Reqb. destruct (Req_dec_T a b); [reflexivity | contradiction]. Qed.

Lemma Reqb_false (a b : R) : a <> b -> Num.Reqb a b = false.
Proof. intros H. unfold Num.Reqb. destruct (Req_dec_T a b); [contradiction | reflexivity]. Qed.

Lemma Rltb_spec (a b : R) : reflect (a < b) (Num.Rltb a b).
Proof. unfold Num.Rltb. destruct (Rlt_dec a b); constructor; assumption. Qed.

Lemma Reqb_spec (a b : R) : reflect (a = b) (Num.Reqb a b).
Proof. unfold Num.Reqb. destruct (Req_dec_T a b); constructor; assumption. Qed.

(** Settles every comparison of real numbers that [lra] can settle. *)
Ltac rdecide :=
  repeat match goal with
    | |- context [Num.Rltb ?a ?b] =>
        first [ rewrite (Rltb_true a b) by lra
              | rewrite (Rltb_false a b) by lra ]
    | |- context [Num.Reqb ?a ?b] =>
        first [ rewrite (Reqb_true a b) by lra
              | rewrite (Reqb_false a b) by lra ]
    end.

(** Case analysis on the comparisons that are left. *)
Ltac rcases :=
  repeat match goal with
    | |- context [Num.Rltb ?a ?b] => destruct (Rltb_spec a b)
    | |- context [Num.Reqb ?a ?b] => destruct (Reqb_spec a b)
    end.

(** ** Arithmetic on finite numbers *)

(** Reads the operations of [JS.Number] at the exact numbers. *)
Ltac exact_ops :=
  change (@JS.add num exactNumber) with Num.add in *;
  change (@JS.sub num exactNumber) with Num.sub in *;
  change (@JS.mul num exactNumber) with Num.mul in *;
  change (@JS.div num exactNumber) with Num.div in *;
  change (@JS.lt num exactNumber) with Num.lt in *;
  change (@JS.ge num exactNumber) with Num.ge in *;
  change (@JS.gt num exactNumber) with Num.gt in *;
  change (@JS.sqrt num exactNumber) with Num.sqrt in *;
  change (@JS.pow2 num exactNumber) with Num.pow2 in *;
  change (@JS.min2 num exactNumber) with Num.min2 in *;
  change (@JS.max2 num exactNumber) with Num.max2 in *;
  change (@JS.truthy num exactNumber) with Num.truthy in *.

Lemma lit_Fin (z : Z) : JS.lit z = Fin (IZR z).
Proof. reflexivity. Qed.

Lemma infinity_PInf : JS.infinity = PInf.
Proof. reflexivity. Qed.

Lemma minusInfinity_NInf : JS.minusInfinity = NInf.
Proof. reflexivity. Qed.

Lemma nan_NaN : JS.nan = NaN.
Proof. reflexivity. Qed.


Lemma add_Fin (a b : R) : (Fin a + Fin b)%num = Fin (a + b).
Proof. reflexivity. Qed.

Lemma sub_Fin (a b : R) : (Fin a - Fin b)%num = Fin (a - b).
Proof. reflexivity. Qed.

Lemma mul_Fin (a b : R) : (Fin a * Fin b)%num = Fin (a * b).
Proof. reflexivity. Qed.

Lemma div_Fin (a b : R) : b <> 0 -> (Fin a / Fin b)%num = Fin (a / b).
Proof.
  intros H. exact_ops. unfold Num.div. rewrite Reqb_false by assumption.
  reflexivity.
Qed.

Lemma lt_Fin (a b : R) : (Fin a <? Fin b)%num = Num.Rltb a b.
Proof. reflexivity. Qed.

Lemma ge_Fin (a b : R) : (Fin a >=? Fin b)%num = negb (Num.Rltb a b).
Proof. reflexivity. Qed.

Lemma gt_Fin (a b : R) : (Fin a >? Fin b)%num = Num.Rltb b a.
Proof. reflexivity. Qed.

Lemma sqrt_Fin (a : R) : 0 <= a -> JS.sqrt (Fin a) = Fin (sqrt a).
Proof.
  intros H. exact_ops. unfold Num.sqrt. rewrite Rltb_false by assumption.
  reflexivity.
Qed.

Lemma pow2_Fin (a : R) : JS.pow2 (Fin a) = Fin (a * a).
Proof. reflexivity. Qed.

Lemma min2_Fin (a b : R) : JS.min2 (Fin a) (Fin b) = Fin (Rmin a b).
Proof.
  exact_ops. unfold Num.min2, Num.lt, Rmin. cbn [Num.isNaN orb].
  destruct (Rltb_spec b a), (Rle_dec a b); try reflexivity; f_equal; lra.
Qed.

Lemma max2_Fin (a b : R) : JS.max2 (Fin a) (Fin b) = Fin (Rmax a b).
Proof.
  exact_ops. unfold Num.max2, Num.lt, Rmax. cbn [Num.isNaN orb].
  destruct (Rltb_spec a b), (Rle_dec a b); try reflexivity; f_equal; lra.
Qed.

Lemma min2_PInf (a : R) : JS.min2 (Fin a) PInf = Fin a.
Proof. reflexivity. Qed.

Lemma max2_NInf (a : R) : JS.max2 (Fin a) NInf = Fin a.
Proof. reflexivity. Qed.

Lemma ofNat_Fin (n : nat) : JS.ofNat n = Fin (INR n).
Proof. reflexivity. Qed.

Lemma x_pt (a b : R) : x (pt a b) = Fin a.
Proof. reflexivity. Qed.

Lemma y_pt (a b : R) : y (pt a b) = Fin b.
Proof. reflexivity. Qed.

#[global] Arguments JS.add : simpl never.
#[global] Arguments JS.sub : simpl never.
#[global] Arguments JS.mul : simpl never.
#[global] Arguments JS.div : simpl never.
#[global] Arguments JS.lt : simpl never.
#[global] Arguments JS.ge : simpl never.
#[global] Arguments JS.gt : simpl never.
#[global] Arguments JS.sqrt : simpl never.
#[global] Arguments JS.pow2 : simpl never.
#[global] Arguments JS.min2 : simpl never.
#[global] Arguments JS.max2 : simpl never.
#[global] Arguments JS.ofNat : simpl never.

Create Rewrite HintDb num.
#[global] Hint Rewrite add_Fin sub_Fin mul_Fin lt_Fin ge_Fin gt_Fin pow2_Fin
  min2_Fin max2_Fin min2_PInf max2_NInf ofNat_Fin x_pt y_pt lit_Fin
  infinity_PInf minusInfinity_NInf nan_NaN : num.

(** Evaluates arithmetic on finite numbers, leaving the partial operations
    (division, square root) to be discharged with their side conditions. *)
Ltac num_simpl :=
  cbn [JS.min JS.max foldr x y fmap list_fmap];
  autorewrite with num.

(** ** Minimum support (C9) *)

Lemma positive_count (values : list (string * R)) :
  length (List.filter (fun d => JS.gt (sales d) (Fin 0))
            ((fun mv => mkDataPoint (fst mv) (Fin (snd mv))) <$> values))
  = countPeriods (fun v => Num.Rltb 0 v) values.
Proof.
  unfold countPeriods. induction values as [|[m v] values IH]; [reflexivity|].
  rewrite fmap_cons. cbn [List.filter sales fst snd]. rewrite gt_Fin.
  destruct (Num.Rltb 0 v); cbn [length]; rewrite IH; reflexivity.
Qed.

Lemma hasEnoughData_real (allMonths : list string) (product category : string)
    (values : list (string * R)) (total : num) :
  hasEnoughData allMonths (seriesOf product category values total) = true
  <-> Rmin 5 (INR (length allMonths) / 2)
      <= INR (countPeriods (fun v => Num.Rltb 0 v) values).
Proof.
  unfold hasEnoughData, seriesOf. cbn [data]. rewrite positive_count.
  num_simpl. rewrite div_Fin by lra. num_simpl.
  destruct (Rltb_spec (INR (countPeriods (fun v => Num.Rltb 0 v) values))
              (Rmin 5 (INR (length allMonths) / 2))); cbn [negb];
    split; intros; try discriminate; try reflexivity; lra.
Qed.

(** C9, as stated, fails: a series with one period of negative sales has a
    non-zero value in that period, yet it is filtered out because the code
    counts the periods with [sales > 0]. *)
Lemma C9_nonzero_support_counterexample :
  let values := [("2024-01"%string, -1)] in
  let allMonths := ["2024-01"%string] in
  ~ (hasEnoughData allMonths (seriesOf "p" "c" values (Fin (-1))) = true
     <-> specMinimumSupport values (length allMonths)).
Proof.
  cbn zeta. rewrite hasEnoughData_real. unfold specMinimumSupport, countPeriods.
  cbn [List.filter snd length]. rdecide. cbn [negb length INR].
  unfold Rmin. destruct (Rle_dec 5 (1 / 2)); [lra|].
  intros [_ H]. lra.
Qed.

(** C9, amended: a series is kept if and only if the number of its periods
    with a strictly positive value is at least [min(5, periodCount / 2)],
    the half not being rounded. *)
Theorem C9_minimum_support (allMonths : list string)
    (product category : string) (values : list (string * R)) (total : num)
    (result : list (Series num)) :
  let series := seriesOf product category values total in
  (series ∈ filterInsufficientData allMonths result
   <-> series ∈ result
       /\ Rmin 5 (INR (length allMonths) / 2)
          <= INR (countPeriods (fun v => Num.Rltb 0 v) values)).
Proof.
  cbn zeta. unfold filterInsufficientData.
  rewrite !list_elem_of_In, filter_In, hasEnoughData_real. reflexivity.
Qed.

(** On values that are never negative the two counts agree, and the filter
    is the one the specification words. *)
Lemma minimum_support_nonnegative (allMonths : list string)
    (product category : string) (values : list (string * R)) (total : num) :
  Forall (fun mv => 0 <= snd mv) values ->
  (hasEnoughData allMonths (seriesOf product category values total) = true
   <-> specMinimumSupport values (length allMonths)).
Proof.
  intros Hpos. rewrite hasEnoughData_real. unfold specMinimumSupport.
  enough (countPeriods (fun v => Num.Rltb 0 v) values
          = countPeriods (fun v => negb (Num.Reqb v 0)) values) as ->
    by reflexivity.
  unfold countPeriods. induction Hpos as [|[m v] values Hv _ IH]; [reflexivity|].
  cbn [List.filter snd] in *.
  destruct (Rltb_spec 0 v), (Reqb_spec v 0); cbn [negb length];
    try (rewrite IH; reflexivity); lra.
Qed.

(** ** Loops over a range *)

Lemma foldl_seq_invariant {S : Type} (Q : nat -> S -> Prop)
    (f : S -> nat -> S) (len : nat) :
  forall (start : nat) (s : S),
    Q start s ->
    (forall k s', (start <= k < start + len)%nat -> Q k s' -> Q (Datatypes.S k) (f s' k)) ->
    Q (start + len)%nat (foldl f s (seq start len)).
Proof.
  induction len as [|len IH]; intros start s Hs Hstep.
  - rewrite Nat.add_0_r. exact Hs.
  - cbn [seq foldl]. replace (start + Datatypes.S len)%nat with (Datatypes.S start + len)%nat by lia.
    apply IH.
    + apply Hstep; [lia | exact Hs].
    + intros k s' Hk. apply Hstep. lia.
Qed.

(** ** The cumulative-cost table *)

Lemma cell_setCell_eq (n m : nat) (dtw : Table) (i j : nat) (v : num) :
  shape n m dtw -> (i <= n)%nat -> (j <= m)%nat ->
  cell (setCell dtw i j v) i j = v.
Proof.
  intros [Hlen Hrows] Hi Hj. unfold cell, setCell.
  rewrite list_lookup_alter_eq.
  destruct (lookup_lt_is_Some_2 dtw i) as [row Hrow]; [lia|].
  rewrite Hrow. cbn.
  rewrite Forall_lookup in Hrows. specialize (Hrows _ _ Hrow).
  rewrite list_lookup_insert_eq by lia. reflexivity.
Qed.

Lemma cell_setCell_ne (dtw : Table) (i j i' j' : nat) (v : num) :
  (i <> i' \/ j <> j') ->
  cell (setCell dtw i j v) i' j' = cell dtw i' j'.
Proof.
  intros Hne. unfold cell, setCell.
  destruct (decide (i = i')) as [->|Hi].
  - rewrite list_lookup_alter_eq. destruct (dtw !! i') as [row|]; [|reflexivity].
    cbn. rewrite list_lookup_insert_ne by (destruct Hne; congruence). reflexivity.
  - rewrite list_lookup_alter_ne by assumption. reflexivity.
Qed.

Lemma shape_setCell (n m : nat) (dtw : Table) (i j : nat) (v : num) :
  shape n m dtw -> shape n m (setCell dtw i j v).
Proof.
  intros [Hlen Hrows]. split; unfold setCell.
  - rewrite length_alter. exact Hlen.
  - apply Forall_alter; [exact Hrows|]. intros row _ Hrow.
    rewrite length_insert. exact Hrow.
Qed.

Lemma shape_replicate (n m : nat) :
  shape n m (replicate (n + 1) (replicate (m + 1) PInf)).
Proof.
  split.
  - rewrite length_replicate. lia.
  - apply Forall_replicate. rewrite length_replicate. lia.
Qed.

Lemma cell_replicate (n m i j : nat) :
  (i <= n)%nat -> (j <= m)%nat ->
  cell (replicate (n + 1) (replicate (m + 1) PInf)) i j = PInf.
Proof.
  intros Hi Hj. unfold cell.
  rewrite lookup_replicate_2 by lia. cbn.
  rewrite lookup_replicate_2 by lia. reflexivity.
Qed.

Lemma shape_dtwInit (n m : nat) : shape n m (dtwInit n m).
Proof. apply shape_setCell, shape_replicate. Qed.

Lemma cell_dtwInit_origin (n m : nat) : cell (dtwInit n m) 0 0 = Fin 0.
Proof.
  unfold dtwInit. apply (cell_setCell_eq n m); [apply shape_replicate | lia | lia].
Qed.

Lemma cell_dtwInit_border (n m i j : nat) :
  (i <= n)%nat -> (j <= m)%nat -> (i <> 0 \/ j <> 0)%nat ->
  cell (dtwInit n m) i j = PInf.
Proof.
  intros Hi Hj Hne. unfold dtwInit.
  rewrite cell_setCell_ne by lia. apply cell_replicate; assumption.
Qed.

(** The induction principle of the table: a property of the cells that
    holds on the border and is preserved by the recurrence holds of every
    cell of the finished table. *)
Section TableInduction.

Variables a b : list (Point num).
Variable P : nat -> nat -> num -> Prop.

Let n := length a.
Let m := length b.

Hypothesis P_origin : P 0 0 (Fin 0).
Hypothesis P_border :
  forall i j, (i <= n)%nat -> (j <= m)%nat -> (i = 0 \/ j = 0)%nat ->
    (i <> 0 \/ j <> 0)%nat -> P i j PInf.
Hypothesis P_step :
  forall i j up left diag,
    (1 <= i <= n)%nat -> (1 <= j <= m)%nat ->
    P (i - 1) j up -> P i (j - 1) left -> P (i - 1) (j - 1) diag ->
    P i j (cost a b i j + JS.min [up; left; diag])%num.

Lemma filled_dtwInit : filled n m P 1 1 (dtwInit n m).
Proof using P_origin P_border.
  split; [apply shape_dtwInit|].
  intros i j Hi Hj Hij.
  destruct (decide (i = 0%nat /\ j = 0%nat)) as [[-> ->]|Hne].
  - rewrite cell_dtwInit_origin. exact P_origin.
  - rewrite cell_dtwInit_border by lia. apply P_border; lia.
Qed.

Lemma filled_dtwCell (dtw : Table) (i j : nat) :
  (1 <= i <= n)%nat -> (1 <= j <= m)%nat ->
  filled n m P i j dtw -> filled n m P i (S j) (dtwCell a b i dtw j).
Proof using P_step.
  intros Hi Hj [Hshape Hcells]. unfold dtwCell. split.
  - apply shape_setCell, Hshape.
  - intros i' j' Hi' Hj' Hij.
    destruct (decide (i' = i /\ j' = j)) as [[-> ->]|Hne].
    + rewrite (cell_setCell_eq n m) by (assumption || lia).
      apply P_step; try assumption; apply Hcells; lia.
    + rewrite cell_setCell_ne by lia. apply Hcells; lia.
Qed.

Lemma filled_dtwRow (dtw : Table) (i : nat) :
  (1 <= i <= n)%nat ->
  filled n m P i 1 dtw -> filled n m P (S i) 1 (dtwRow a b dtw i).
Proof using P_step.
  intros Hi Hdtw. unfold dtwRow. fold m.
  assert (H : filled n m P i (1 + m) (foldl (dtwCell a b i) dtw (seq 1 m))).
  { apply (foldl_seq_invariant (filled n m P i)); [exact Hdtw|].
    intros j dtw' Hj. apply filled_dtwCell; [exact Hi | lia]. }
  destruct H as [Hshape Hcells]. split; [exact Hshape|].
  intros i' j' Hi' Hj' Hij. apply Hcells; lia.
Qed.

Lemma filled_dtwTable : filled n m P (S n) 1 (dtwTable a b).
Proof using P_origin P_border P_step.
  unfold dtwTable. fold n m.
  apply (foldl_seq_invariant (fun i => filled n m P i 1) (dtwRow a b) n 1).
  - apply filled_dtwInit.
  - intros i dtw Hi. apply filled_dtwRow. lia.
Qed.

Lemma dtw_induction (i j : nat) :
  (i <= n)%nat -> (j <= m)%nat -> P i j (cell (dtwTable a b) i j).
Proof using P_origin P_border P_step.
  intros Hi Hj. destruct filled_dtwTable as [_ Hcells].
  apply Hcells; lia.
Qed.

End TableInduction.

(** ** Distances in the table *)

Lemma distance_cases (v : num) :
  distance v -> v = PInf \/ exists r, v = Fin r /\ 0 <= r.
Proof.
  destruct v as [r| | |]; cbn; intros H; try contradiction; eauto.
Qed.

Lemma distance_Fin (r : R) : 0 <= r -> distance (Fin r).
Proof. intros H. exact H. Qed.

Lemma distance_add (c : R) (v : num) :
  0 <= c -> distance v -> distance (Fin c + v)%num.
Proof.
  intros Hc [->|(r & -> & Hr)]%distance_cases; [exact I|].
  rewrite add_Fin. apply distance_Fin. lra.
Qed.

Lemma finite_add (c : R) (v : num) :
  Num.finite v -> Num.finite (Fin c + v)%num.
Proof. destruct v; cbn; intros H; try contradiction. exact I. Qed.

Lemma min2_distance (u v : num) :
  distance u -> distance v ->
  distance (JS.min2 u v)
  /\ (Num.finite u \/ Num.finite v -> Num.finite (JS.min2 u v)).
Proof.
  intros [->|(ru & -> & Hu)]%distance_cases
         [->|(rv & -> & Hv)]%distance_cases;
    exact_ops; unfold Num.min2, Num.lt, Num.isNaN; cbn; rcases; cbn; intuition.
Qed.

Lemma min2_zero (u : num) : distance u -> JS.min2 u (Fin 0) = Fin 0.
Proof.
  intros [->|(ru & -> & Hu)]%distance_cases;
    exact_ops; unfold Num.min2, Num.lt, Num.isNaN; cbn; rcases; cbn;
    try reflexivity; f_equal; lra.
Qed.

Lemma min3_distance (u l d : num) :
  distance u -> distance l -> distance d ->
  distance (JS.min [u; l; d])
  /\ (Num.finite u \/ Num.finite l \/ Num.finite d ->
      Num.finite (JS.min [u; l; d])).
Proof.
  intros Hu Hl Hd. cbn [JS.min foldr].
  destruct (min2_distance d PInf Hd I) as [H1 F1].
  destruct (min2_distance l _ Hl H1) as [H2 F2].
  destruct (min2_distance u _ Hu H2) as [H3 F3].
  split; [exact H3 | tauto].
Qed.

Lemma min3_zero (u l : num) :
  distance u -> distance l -> JS.min [u; l; Fin 0] = Fin 0.
Proof.
  intros Hu Hl. cbn [JS.min foldr]. rewrite min2_PInf.
  rewrite (min2_zero l Hl). apply min2_zero, Hu.
Qed.

Lemma yAt_finite (c : list (Point num)) (k : nat) :
  finiteY c -> (k < length c)%nat -> exists r, yAt c k = Fin r.
Proof.
  intros Hc Hk. unfold yAt.
  destruct (lookup_lt_is_Some_2 c k Hk) as [p Hp]. rewrite Hp. cbn.
  unfold finiteY in Hc. rewrite Forall_lookup in Hc. specialize (Hc _ _ Hp).
  destruct (y p); cbn in Hc; try contradiction. eauto.
Qed.

Lemma cost_finite (a b : list (Point num)) (i j : nat) :
  finiteY a -> finiteY b ->
  (1 <= i <= length a)%nat -> (1 <= j <= length b)%nat ->
  exists c, cost a b i j = Fin c /\ 0 <= c.
Proof.
  intros Ha Hb Hi Hj. unfold cost.
  destruct (yAt_finite a (i - 1) Ha) as [ra ->]; [lia|].
  destruct (yAt_finite b (j - 1) Hb) as [rb ->]; [lia|].
  rewrite sub_Fin, pow2_Fin, sqrt_Fin by apply Rle_0_sqr.
  eexists; split; [reflexivity | apply sqrt_pos].
Qed.

Lemma cost_diagonal (a : list (Point num)) (i : nat) :
  finiteY a -> (1 <= i <= length a)%nat -> cost a a i i = Fin 0.
Proof.
  intros Ha Hi. unfold cost.
  destruct (yAt_finite a (i - 1) Ha) as [ra ->]; [lia|].
  rewrite sub_Fin, pow2_Fin, sqrt_Fin by apply Rle_0_sqr.
  replace ((ra - ra) * (ra - ra)) with 0 by ring. rewrite sqrt_0. reflexivity.
Qed.

(** Every cell of the table is a distance; the origin and the cells off
    the border are real numbers. *)
Lemma dtw_cells_distance (a b : list (Point num)) (i j : nat) :
  finiteY a -> finiteY b -> (i <= length a)%nat -> (j <= length b)%nat ->
  distance (cell (dtwTable a b) i j)
  /\ ((i = 0 /\ j = 0)%nat \/ (1 <= i /\ 1 <= j)%nat ->
      Num.finite (cell (dtwTable a b) i j)).
Proof.
  intros Ha Hb.
  apply (dtw_induction a b
           (fun i j v =>
              distance v
              /\ ((i = 0 /\ j = 0)%nat \/ (1 <= i /\ 1 <= j)%nat -> Num.finite v))).
  - split; [apply distance_Fin; lra | intros _; exact I].
  - intros i' j' _ _ Hz Hnz. split; [exact I | lia].
  - intros i' j' u l d Hi Hj [Hu Hfu] [Hl Hfl] [Hd Hfd].
    destruct (cost_finite a b i' j' Ha Hb Hi Hj) as (c & -> & Hc).
    destruct (min3_distance u l d Hu Hl Hd) as [Hmin Hfin].
    split; [apply distance_add; assumption|].
    intros _. apply finite_add, Hfin.
    destruct (decide (i' = 1%nat)) as [->|Hi1], (decide (j' = 1%nat)) as [->|Hj1].
    + right; right. apply Hfd. left. lia.
    + right; left. apply Hfl. right. lia.
    + left. apply Hfu. right. lia.
    + left. apply Hfu. right. lia.
Qed.

(** On the diagonal of the table of a curve against itself the cost is 0. *)
Lemma dtw_cells_diagonal (a : list (Point num)) (i j : nat) :
  finiteY a -> (i <= length a)%nat -> (j <= length a)%nat ->
  distance (cell (dtwTable a a) i j)
  /\ (i = j -> cell (dtwTable a a) i j = Fin 0).
Proof.
  intros Ha.
  apply (dtw_induction a a (fun i j v => distance v /\ (i = j -> v = Fin 0))).
  - split; [apply distance_Fin; lra | reflexivity].
  - intros i' j' _ _ Hz Hnz. split; [exact I | lia].
  - intros i' j' u l d Hi Hj [Hu _] [Hl _] [Hd Hd0].
    destruct (cost_finite a a i' j' Ha Ha Hi Hj) as (c & Hcost & Hc).
    split.
    + rewrite Hcost. apply distance_add; [exact Hc|].
      apply min3_distance; assumption.
    + intros <-. rewrite cost_diagonal by assumption.
      rewrite Hd0 by reflexivity. rewrite min3_zero by assumption.
      rewrite add_Fin. f_equal. lra.
Qed.

Lemma dtw_distance (a b : list (Point num)) :
  finiteY a -> finiteY b -> distance (calculateDTWSimilarity a b).
Proof.
  intros Ha Hb. unfold calculateDTWSimilarity.
  apply dtw_cells_distance; auto.
Qed.

Lemma dtw_finite (a b : list (Point num)) :
  finiteY a -> finiteY b -> a <> [] -> b <> [] ->
  exists v, calculateDTWSimilarity a b = Fin v /\ 0 <= v.
Proof.
  intros Ha Hb Hna Hnb. unfold calculateDTWSimilarity.
  destruct (dtw_cells_distance a b (length a) (length b) Ha Hb) as [Hd Hf];
    [lia | lia |].
  assert (Hfin : Num.finite (cell (dtwTable a b) (length a) (length b))).
  { apply Hf. right. destruct a, b; cbn; try congruence; lia. }
  destruct (distance_cases _ Hd) as [Heq|(v & Heq & Hv)].
  - rewrite Heq in Hfin. contradiction.
  - eauto.
Qed.

(** C7: the DTW cost of a curve against itself is 0, and the cost of two
    non-empty curves of equal length is a non-negative real number. *)
Theorem C7_dtw_self_zero_and_nonnegative (a : list (Point num)) :
  finiteY a ->
  calculateDTWSimilarity a a = Fin 0
  /\ forall b : list (Point num),
       finiteY b -> a <> [] -> length a = length b ->
       exists v, calculateDTWSimilarity a b = Fin v /\ 0 <= v.
Proof.
  intros Ha. split.
  - unfold calculateDTWSimilarity.
    apply (dtw_cells_diagonal a (length a) (length a) Ha); auto.
  - intros b Hb Hna Hlen. apply dtw_finite; try assumption.
    intros ->. destruct a; [congruence | discriminate].
Qed.

(** C10: for two non-empty curves, of any lengths, the returned cell is a
    real number: the [Infinity] of the border never reaches it. *)
Theorem C10_dtw_result_is_finite (a b : list (Point num)) :
  finiteY a -> finiteY b -> a <> [] -> b <> [] ->
  Num.finite (calculateDTWSimilarity a b)
  /\ calculateDTWSimilarity a b <> PInf
  /\ calculateDTWSimilarity a b <> NaN.
Proof.
  intros Ha Hb Hna Hnb.
  destruct (dtw_finite a b Ha Hb Hna Hnb) as (v & -> & _).
  repeat split; discriminate.
Qed.

(** ** Match quality (C8) *)

Lemma matchQuality_Fin (d : MatchResult num) (v : R) :
  similarity d = Fin v -> matchQuality d = Fin (Rmax 0 (100 - v * 20)).
Proof.
  intros Hv. unfold matchQuality. rewrite Hv. num_simpl. reflexivity.
Qed.

Lemma matchQuality_PInf (d : MatchResult num) :
  similarity d = PInf -> matchQuality d = Fin 0.
Proof.
  intros Hv. unfold matchQuality. rewrite Hv.
  cbn [JS.max foldr]. autorewrite with num. exact_ops.
  unfold Num.mul, Num.scaleInf. rdecide. reflexivity.
Qed.

Lemma clamp_of_distance (v : R) :
  0 <= v -> clamp 0 100 (100 - v * 20) = Rmax 0 (100 - v * 20).
Proof.
  intros Hv. unfold clamp. f_equal. apply Rmin_right. lra.
Qed.

Lemma matchQuality_range (d : MatchResult num) :
  distance (similarity d) -> between 0 100 (matchQuality d).
Proof.
  intros [Hinf|(v & Hv & Hpos)]%distance_cases.
  - rewrite (matchQuality_PInf d Hinf). cbn. lra.
  - rewrite (matchQuality_Fin d v Hv). cbn.
    split; [apply Rmax_l | apply Rmax_lub; lra].
Qed.

(** C8: for a match whose DTW distance [v] is non-negative, the displayed
    quality is [clamp(0, 100, 100 - v * 20)]; it lies between 0 and 100
    although the code only applies the lower bound. *)
Theorem C8_match_quality_is_clamped (d : MatchResult num) :
  distance (similarity d) ->
  between 0 100 (matchQuality d)
  /\ forall v, similarity d = Fin v ->
       matchQuality d = Fin (clamp 0 100 (100 - v * 20)).
Proof.
  intros Hd. split; [apply matchQuality_range, Hd|].
  intros v Hv. rewrite Hv in Hd. cbn in Hd.
  rewrite (matchQuality_Fin d v Hv), clamp_of_distance by assumption.
  reflexivity.
Qed.

(** ** Resampling a curve of real points *)

Lemma segment_nonneg (p q : R * R) : 0 <= segment p q.
Proof. apply sqrt_pos. Qed.

Lemma pathFrom_nonneg (rest : list (R * R)) :
  forall prev, 0 <= pathFrom prev rest.
Proof.
  induction rest as [|p rest IH]; intros prev; cbn [pathFrom]; [lra|].
  pose proof (segment_nonneg prev p). specialize (IH p). lra.
Qed.

Lemma segmentLength_real (p q : R * R) :
  let dx := (x (pointOf q) - x (pointOf p))%num in
  let dy := (y (pointOf q) - y (pointOf p))%num in
  JS.sqrt (dx * dx + dy * dy)%num = Fin (segment p q).
Proof.
  cbn zeta. unfold pointOf, pt. cbn [x y]. autorewrite with num.
  rewrite sqrt_Fin; [reflexivity|].
  pose proof (Rle_0_sqr (fst q - fst p)). pose proof (Rle_0_sqr (snd q - snd p)).
  unfold Rsqr in *. lra.
Qed.

Lemma pathLengthLoop_real (rest : list (R * R)) :
  forall (acc : R) (prev : R * R),
    pathLengthLoop (Fin acc) (pointOf prev) (points rest)
    = Fin (acc + pathFrom prev rest).
Proof.
  induction rest as [|p rest IH]; intros acc prev.
  - cbn. f_equal. lra.
  - unfold points. rewrite fmap_cons. cbn [pathLengthLoop pathFrom].
    rewrite (segmentLength_real prev p), add_Fin. fold (points rest).
    rewrite IH. f_equal. lra.
Qed.

(** One step of the [while] loop on real data. *)
Lemma whileLoop_real_step (tg c : R) (res : list (Point num)) (prev p : R * R)
    (rest : list (R * R)) :
  whileLoop (Fin tg) res (Fin c) (pointOf prev) (points (p :: rest))
  = if Num.Rltb c tg then
      if negb (Num.Rltb (c + segment prev p) tg) then
        mkWalk
          (res ++ [mkPoint
                     (x (pointOf prev)
                      + (Fin (tg - c) / Fin (segment prev p)) * Fin (fst p - fst prev))%num
                     (y (pointOf prev)
                      + (Fin (tg - c) / Fin (segment prev p)) * Fin (snd p - snd prev))%num])
          (Fin c) (pointOf prev) (points (p :: rest))
      else whileLoop (Fin tg) res (Fin (c + segment prev p)) (pointOf p)
             (points rest)
    else mkWalk res (Fin c) (pointOf prev) (points (p :: rest)).
Proof.
  unfold points. rewrite fmap_cons. cbn [whileLoop].
  rewrite (segmentLength_real prev p). rewrite lt_Fin, add_Fin, ge_Fin, sub_Fin.
  reflexivity.
Qed.

(** The [while] loop on real data: it keeps the walk real, conserves the
    length still to be walked, pushes at most one point, and pushes one
    whenever the target lies ahead on the curve. *)
Lemma whileLoop_real (tg : R) (rest : list (R * R)) :
  forall (c : R) (res : list (R * R)) (prev : R * R),
  exists (pushed : list (R * R)) (c' : R) (prev' : R * R) (rest' : list (R * R)),
    whileLoop (Fin tg) (points res) (Fin c) (pointOf prev) (points rest)
    = mkWalk (points (res ++ pushed)) (Fin c') (pointOf prev') (points rest')
    /\ c' + pathFrom prev' rest' = c + pathFrom prev rest
    /\ (c' = c \/ c' < tg)
    /\ (length pushed <= 1)%nat
    /\ (c < tg <= c + pathFrom prev rest -> length pushed = 1%nat).
Proof.
  induction rest as [|p rest IH]; intros c res prev.
  - exists [], c, prev, []. rewrite app_nil_r. cbn [pathFrom].
    repeat split; try reflexivity; [left; reflexivity | cbn; lia | lra].
  - rewrite whileLoop_real_step.
    destruct (Rltb_spec c tg) as [Hlt|Hge].
    + destruct (Rltb_spec (c + segment prev p) tg) as [Hfar|Hnear]; cbn [negb].
      * destruct (IH (c + segment prev p) res p)
          as (pushed & c' & prev' & rest' & Heq & Hpath & Hc' & Hlen & Hpush).
        exists pushed, c', prev', rest'. rewrite Heq. cbn [pathFrom].
        repeat split; try assumption; try lra.
        intros Htg. apply Hpush. lra.
      * assert (Hseg : segment prev p <> 0) by lra.
        exists [interpolate prev p ((tg - c) / segment prev p)], c, prev, (p :: rest).
        repeat split; try reflexivity; [|left; reflexivity].
        f_equal. unfold points. rewrite fmap_app. f_equal. cbn [fmap list_fmap].
        f_equal. unfold pointOf, pt, interpolate. cbn [x y fst snd].
        rewrite div_Fin by assumption. autorewrite with num. reflexivity.
    + exists [], c, prev, (p :: rest). rewrite app_nil_r.
      repeat split; try reflexivity; [left; reflexivity | cbn; lia | lra].
Qed.

Lemma forBody_real (step : R) (w : Walk num) (i : nat) :
  forBody (Fin step) w i
  = whileLoop (Fin (INR i * step)) (result w) (currentDistance w)
      (prevPoint w) (remaining w).
Proof. unfold forBody. rewrite ofNat_Fin, mul_Fin. reflexivity. Qed.

(** The [for] loop on real data, started as [resampleCurve] starts it:
    after [k] iterations at most [k] points were pushed, and exactly [k]
    when the step is positive and the [k] targets lie on the curve. *)
Lemma forLoop_real (step : R) (p0 : R * R) (rest : list (R * R)) (k : nat) :
  exists (pushed : list (R * R)) (c' : R) (prev' : R * R) (rest' : list (R * R)),
    foldl (forBody (Fin step))
      (mkWalk (points [p0]) (Fin 0) (pointOf p0) (points rest)) (seq 1 k)
    = mkWalk (points ([p0] ++ pushed)) (Fin c') (pointOf prev') (points rest')
    /\ (length pushed <= k)%nat
    /\ (0 < step -> INR k * step <= pathFrom p0 rest -> length pushed = k).
Proof.
  set (total := pathFrom p0 rest).
  pose (Q := fun (j : nat) (w : Walk num) =>
    exists (pushed : list (R * R)) (c' : R) (prev' : R * R) (rest' : list (R * R)),
      w = mkWalk (points ([p0] ++ pushed)) (Fin c') (pointOf prev') (points rest')
      /\ c' + pathFrom prev' rest' = total
      /\ (S (length pushed) <= j)%nat
      /\ (0 < step -> INR k * step <= total ->
          S (length pushed) = j /\ c' <= (INR j - 1) * step)).
  assert (HQ : Q (1 + k)%nat
                 (foldl (forBody (Fin step))
                    (mkWalk (points [p0]) (Fin 0) (pointOf p0) (points rest))
                    (seq 1 k))).
  { apply (foldl_seq_invariant Q).
    - exists [], 0, p0, rest. rewrite app_nil_r. cbn [length INR].
      split; [reflexivity|]. split; [unfold total; lra|]. split; [lia|].
      intros _ _. split; [reflexivity | lra].
    - intros j w Hj (pushed & c & prev & rest1 & -> & Hpath & Hlen & Hpos).
      rewrite forBody_real. cbn [result currentDistance prevPoint remaining].
      destruct (whileLoop_real (INR j * step) rest1 c ([p0] ++ pushed) prev)
        as (new & c' & prev' & rest' & Heq & Hpath' & Hc' & Hnew & Hpush).
      exists (pushed ++ new), c', prev', rest'. rewrite Heq, <- app_assoc.
      rewrite length_app, S_INR.
      split; [reflexivity|]. split; [lra|]. split; [lia|].
      intros Hstep Hk. destruct (Hpos Hstep Hk) as [Hpushed Hc].
      assert (Hjk : INR j <= INR k) by (apply le_INR; lia).
      split.
      + rewrite Hpush; [lia|]. split; nra.
      + destruct Hc'; nra. }
  destruct HQ as (pushed & c' & prev' & rest' & Heq & _ & Hlen & Hpos).
  exists pushed, c', prev', rest'.
  repeat split; [exact Heq | lia |].
  intros Hstep Hk. destruct (Hpos Hstep Hk). lia.
Qed.

Lemma last_points (rest : list (R * R)) (p0 : R * R) :
  List.last (points rest) (pointOf p0) = pointOf (List.last rest p0).
Proof.
  induction rest as [|p rest IH]; [reflexivity|].
  destruct rest as [|q rest]; [reflexivity|]. exact IH.
Qed.

Lemma resampleCurve_unfold (p0 : Point num) (rest : list (Point num)) (n : nat) :
  rest <> [] ->
  resampleCurve (p0 :: rest) n
  = result
      (forLoop (pathLengthLoop (Fin 0) p0 rest / (JS.ofNat n - Fin 1))%num
         (mkWalk [p0] (Fin 0) p0 rest) n)
    ++ [List.last rest p0].
Proof. destruct rest; [congruence | reflexivity]. Qed.

(** The shape of the result on a curve of at least two real points. *)
Lemma resampleCurve_real (p0 p1 : R * R) (rest : list (R * R)) (n : nat) :
  exists pushed : list (R * R),
    resampleCurve (points (p0 :: p1 :: rest)) n
    = points ([p0] ++ pushed ++ [List.last (p1 :: rest) p0])
    /\ (length pushed <= n - 2)%nat
    /\ (0 < pathFrom p0 (p1 :: rest) -> length pushed = (n - 2)%nat).
Proof.
  change (points (p0 :: p1 :: rest))
    with (pointOf p0 :: points (p1 :: rest)).
  rewrite resampleCurve_unfold by discriminate.
  rewrite pathLengthLoop_real, Rplus_0_l, last_points.
  set (total := pathFrom p0 (p1 :: rest)).
  unfold forLoop. rewrite ofNat_Fin, sub_Fin.
  destruct (decide (n - 2 = 0)%nat) as [Hn|Hn].
  - rewrite Hn. cbn [seq foldl result]. exists []. cbn [length].
    split; [reflexivity|]. split; [lia | reflexivity].
  - assert (Hd : 0 < INR n - 1).
    { assert (H3 : INR 3 <= INR n) by (apply le_INR; lia).
      cbn [INR] in H3. lra. }
    rewrite div_Fin by lra.
    destruct (forLoop_real (total / (INR n - 1)) p0 (p1 :: rest) (n - 2))
      as (pushed & c' & prev' & rest' & Heq & Hlen & Hpos).
    change [pointOf p0] with (points [p0]). rewrite Heq. cbn [result].
    exists pushed. split; [|split; [exact Hlen|]].
    + unfold points. rewrite !fmap_app, <- app_assoc. reflexivity.
    + intros Htotal. apply Hpos.
      * apply Rdiv_lt_0_compat; assumption.
      * rewrite minus_INR by lia. cbn [INR].
        set (q := total / (INR n - 1)).
        assert (Hq : 0 < q) by (apply Rdiv_lt_0_compat; assumption).
        assert (Hsplit : total = q * (INR n - 1)) by (unfold q; field; lra).
        apply Rle_trans with (q * (INR n - 1)); [nra | right; symmetry; exact Hsplit].
Qed.

(** Real points stay real points: no NaN and no infinity appears. *)
Lemma resampleCurve_points (rs : list (R * R)) (n : nat) :
  exists out : list (R * R),
    resampleCurve (points rs) n = points out /\ (rs <> [] -> out <> []).
Proof.
  destruct rs as [|p0 [|p1 rest]].
  - exists []. split; [reflexivity | congruence].
  - exists [p0]. split; [reflexivity | congruence].
  - destruct (resampleCurve_real p0 p1 rest n) as (pushed & Heq & _).
    eexists. split; [exact Heq | discriminate].
Qed.

(** A curve of positive length is resampled to exactly [n] points, the
    first and the last being those of the curve. *)
Lemma resampleCurve_positive_length (p0 p1 : R * R) (rest : list (R * R))
    (n : nat) :
  (2 <= n)%nat -> 0 < pathFrom p0 (p1 :: rest) ->
  length (resampleCurve (points (p0 :: p1 :: rest)) n) = n
  /\ head (resampleCurve (points (p0 :: p1 :: rest)) n) = Some (pointOf p0)
  /\ last (resampleCurve (points (p0 :: p1 :: rest)) n)
     = Some (pointOf (List.last (p1 :: rest) p0)).
Proof.
  intros Hn Hpath.
  destruct (resampleCurve_real p0 p1 rest n) as (pushed & -> & _ & Hlen).
  specialize (Hlen Hpath). unfold points.
  rewrite length_fmap, !length_app, Hlen. cbn [length].
  split; [lia|]. split; [reflexivity|].
  rewrite !fmap_app, app_assoc. cbn [fmap list_fmap]. apply last_snoc.
Qed.

(** The first and the last point of a curve of at least two real points
    are kept, whatever its length and whatever [n]. *)
Lemma resampleCurve_endpoints (p0 p1 : R * R) (rest : list (R * R)) (n : nat) :
  head (resampleCurve (points (p0 :: p1 :: rest)) n) = Some (pointOf p0)
  /\ last (resampleCurve (points (p0 :: p1 :: rest)) n)
     = Some (pointOf (List.last (p1 :: rest) p0)).
Proof.
  destruct (resampleCurve_real p0 p1 rest n) as (pushed & -> & _).
  split; [reflexivity|]. unfold points.
  rewrite !fmap_app, app_assoc. cbn [fmap list_fmap]. apply last_snoc.
Qed.

(** ** A curve of length zero *)

Lemma whileLoop_target_reached (tg c : R) (res : list (Point num)) (prev : Point num)
    (rest : list (Point num)) :
  tg <= c ->
  whileLoop (Fin tg) res (Fin c) prev rest = mkWalk res (Fin c) prev rest.
Proof.
  intros H. destruct rest as [|p rest]; [reflexivity|].
  cbn [whileLoop]. rewrite lt_Fin, Rltb_false by assumption. reflexivity.
Qed.

Lemma forLoop_zero_step (step : R) (w : Walk num) (k : nat) :
  step <= 0 -> currentDistance w = Fin 0 ->
  foldl (forBody (Fin step)) w (seq 1 k) = w.
Proof.
  intros Hstep Hw.
  apply (foldl_seq_invariant (fun _ w' => w' = w)); [reflexivity|].
  intros j w' Hj ->. rewrite forBody_real, Hw.
  rewrite whileLoop_target_reached.
  - rewrite <- Hw. destruct w; reflexivity.
  - pose proof (pos_INR j). nra.
Qed.

Lemma pathLengthLoop_same_point (a b : R) (k : nat) :
  forall acc, pathLengthLoop (Fin acc) (pt a b) (replicate k (pt a b)) = Fin acc.
Proof.
  induction k as [|k IH]; intros acc; [reflexivity|].
  cbn [replicate pathLengthLoop]. autorewrite with num.
  rewrite sqrt_Fin by (right; ring).
  replace ((a - a) * (a - a) + (b - b) * (b - b)) with 0 by ring.
  rewrite sqrt_0, add_Fin, Rplus_0_r. apply IH.
Qed.

Lemma last_replicate (p d : Point num) (k : nat) :
  List.last (replicate (S k) p) d = p.
Proof. induction k as [|k IH]; [reflexivity | exact IH]. Qed.

(** The same point repeated at least twice is resampled to two copies of
    it, whatever [n] is. *)
Lemma resampleCurve_same_point (a b : R) (k n : nat) :
  resampleCurve (replicate (S (S k)) (pt a b)) n = [pt a b; pt a b].
Proof.
  cbn [replicate]. rewrite resampleCurve_unfold by discriminate.
  change (pt a b :: replicate k (pt a b)) with (replicate (S k) (pt a b)).
  rewrite pathLengthLoop_same_point, last_replicate. unfold forLoop.
  destruct (decide (n - 2 = 0)%nat) as [Hn|Hn].
  - rewrite Hn. reflexivity.
  - assert (Hd : 0 < INR n - 1).
    { assert (H3 : INR 3 <= INR n) by (apply le_INR; lia).
      cbn [INR] in H3. lra. }
    rewrite ofNat_Fin, sub_Fin, div_Fin by lra.
    rewrite forLoop_zero_step; [reflexivity | | reflexivity].
    right. unfold Rdiv. ring.
Qed.

(** C1, at the failing input: two coinciding points resampled to three
    give two points, not three. *)
Theorem C1_resample_coinciding_points_fails :
  resampleCurve [pt 0 0; pt 0 0] 3 = [pt 0 0; pt 0 0]
  /\ length (resampleCurve [pt 0 0; pt 0 0] 3) <> 3%nat.
Proof.
  change [pt 0 0; pt 0 0] with (replicate 2 (pt 0 0)) at 1 3.
  rewrite resampleCurve_same_point. split; [reflexivity | discriminate].
Qed.

(** C2, at the failing inputs: a curve whose points all coincide is
    resampled to two copies of the point, not [n] copies, for every
    [n >= 3]; the step length is [0 / (n - 1) = 0], so nothing is divided
    by zero and every loop ends. *)
Theorem C2_resample_zero_length_gives_two_points (a b : R) (k n : nat) :
  let curve := replicate (2 + k) (pt a b) in
  let pathLength := pathLengthLoop (Fin 0) (pt a b) (replicate (1 + k) (pt a b)) in
  resampleCurve curve (3 + n) = [pt a b; pt a b]
  /\ resampleCurve curve (3 + n) <> replicate (3 + n) (pt a b)
  /\ (pathLength / (JS.ofNat (3 + n) - Fin 1))%num = Fin 0
  /\ Forall finitePoint (resampleCurve curve (3 + n)).
Proof.
  cbn zeta. change (2 + k)%nat with (S (S k)).
  rewrite resampleCurve_same_point. split; [reflexivity|]. split; [discriminate|].
  split; [|repeat constructor].
  rewrite pathLengthLoop_same_point, ofNat_Fin, sub_Fin.
  assert (H3 : INR 3 <= INR (3 + n)) by (apply le_INR; lia).
  cbn [INR] in H3. rewrite div_Fin by lra. f_equal. unfold Rdiv. ring.
Qed.

(** ** Normalisation *)

Lemma min_Fin (l : list R) : l <> [] -> JS.min (Fin <$> l) = Fin (lower l).
Proof.
  induction l as [|a l IH]; [congruence|]. intros _.
  destruct l as [|b l]; [reflexivity|].
  change (JS.min (Fin <$> a :: b :: l))
    with (JS.min2 (Fin a) (JS.min (Fin <$> b :: l))).
  rewrite IH by discriminate. apply min2_Fin.
Qed.

Lemma max_Fin (l : list R) : l <> [] -> JS.max (Fin <$> l) = Fin (upper l).
Proof.
  induction l as [|a l IH]; [congruence|]. intros _.
  destruct l as [|b l]; [reflexivity|].
  change (JS.max (Fin <$> a :: b :: l))
    with (JS.max2 (Fin a) (JS.max (Fin <$> b :: l))).
  rewrite IH by discriminate. apply max2_Fin.
Qed.

Lemma lower_le (l : list R) (r : R) : r ∈ l -> lower l <= r.
Proof.
  induction l as [|a l IH]; [intros H; inversion H|].
  intros [->|Hr]%elem_of_cons; destruct l as [|b l]; cbn [lower].
  - lra.
  - apply Rmin_l.
  - inversion Hr.
  - eapply Rle_trans; [apply Rmin_r | apply IH, Hr].
Qed.

Lemma upper_ge (l : list R) (r : R) : r ∈ l -> r <= upper l.
Proof.
  induction l as [|a l IH]; [intros H; inversion H|].
  intros [->|Hr]%elem_of_cons; destruct l as [|b l]; cbn [upper].
  - lra.
  - apply Rmax_l.
  - inversion Hr.
  - eapply Rle_trans; [apply IH, Hr | apply Rmax_r].
Qed.

Lemma normalize_coordinate (lo hi v : R) :
  (Fin (v - lo) / JS.or (Fin (hi - lo)) (Fin 1))%num = Fin (scale lo hi v).
Proof.
  unfold JS.or. exact_ops. unfold Num.truthy, scale, Num.Reqb.
  destruct (Req_dec_T (hi - lo) 0); cbn [negb]; apply div_Fin; lra.
Qed.

Lemma scale_unit (lo hi v : R) : lo <= v <= hi -> 0 <= scale lo hi v <= 1.
Proof.
  intros Hv. unfold scale. destruct (Req_dec_T (hi - lo) 0) as [Hz|Hnz].
  - replace (v - lo) with 0 by lra. unfold Rdiv. rewrite Rmult_0_l. lra.
  - assert (Hd : 0 < hi - lo) by lra. split.
    + apply Rmult_le_pos; [lra|]. left. apply Rinv_0_lt_compat, Hd.
    + apply (Rmult_le_reg_r (hi - lo)); [exact Hd|].
      unfold Rdiv. rewrite Rmult_assoc, Rinv_l by lra. lra.
Qed.

Lemma scale_flat (lo hi v : R) : lo <= v <= hi -> hi = lo -> scale lo hi v = 0.
Proof.
  intros Hv Heq. unfold scale. replace (v - lo) with 0 by lra.
  unfold Rdiv. apply Rmult_0_l.
Qed.

Lemma scale_monotone (lo hi v w : R) :
  lo <= hi -> v <= w -> scale lo hi v <= scale lo hi w.
Proof.
  intros Hlohi Hvw. unfold scale, Rdiv. apply Rmult_le_compat_r; [|lra].
  left. apply Rinv_0_lt_compat.
  destruct (Req_dec_T (hi - lo) 0); lra.
Qed.

Lemma x_points (rs : list (R * R)) : x <$> points rs = Fin <$> (fst <$> rs).
Proof. unfold points. rewrite <- !list_fmap_compose. reflexivity. Qed.

Lemma y_points (rs : list (R * R)) : y <$> points rs = Fin <$> (snd <$> rs).
Proof. unfold points. rewrite <- !list_fmap_compose. reflexivity. Qed.

(** The normalised stroke, in real numbers. *)
Lemma normalizedDrawing_real (rs : list (R * R)) :
  rs <> [] ->
  normalizedDrawing (points rs)
  = points ((fun ab =>
               (scale (lower (fst <$> rs)) (upper (fst <$> rs)) (fst ab),
                1 - scale (lower (snd <$> rs)) (upper (snd <$> rs)) (snd ab)))
            <$> rs).
Proof.
  intros Hrs. unfold normalizedDrawing. rewrite x_points, y_points.
  rewrite !min_Fin, !max_Fin by (destruct rs; [congruence | discriminate]).
  unfold points. rewrite <- !list_fmap_compose. apply list_fmap_ext.
  intros i [a b] _. unfold compose, pointOf. cbn [fst snd].
  autorewrite with num.
  rewrite !normalize_coordinate. autorewrite with num. reflexivity.
Qed.

Lemma finitePoint_points (rs : list (R * R)) : Forall finitePoint (points rs).
Proof.
  unfold points. apply Forall_fmap, Forall_forall. intros ab _.
  split; exact I.
Qed.

Lemma fst_bounds (rs : list (R * R)) (ab : R * R) :
  ab ∈ rs -> lower (fst <$> rs) <= fst ab <= upper (fst <$> rs).
Proof.
  intros Hab. assert (fst ab ∈ fst <$> rs) by (apply list_elem_of_fmap_2, Hab).
  split; [apply lower_le | apply upper_ge]; assumption.
Qed.

Lemma snd_bounds (rs : list (R * R)) (ab : R * R) :
  ab ∈ rs -> lower (snd <$> rs) <= snd ab <= upper (snd <$> rs).
Proof.
  intros Hab. assert (snd ab ∈ snd <$> rs) by (apply list_elem_of_fmap_2, Hab).
  split; [apply lower_le | apply upper_ge]; assumption.
Qed.

Lemma normalizedDrawing_unit_square (rs : list (R * R)) :
  rs <> [] ->
  Forall (fun p => between 0 1 (x p) /\ between 0 1 (y p))
    (normalizedDrawing (points rs)).
Proof.
  intros Hrs. rewrite normalizedDrawing_real by assumption.
  unfold points. rewrite <- list_fmap_compose. apply Forall_fmap, Forall_forall.
  intros ab Hab. cbn.
  pose proof (scale_unit _ _ _ (fst_bounds rs ab Hab)).
  pose proof (scale_unit _ _ _ (snd_bounds rs ab Hab)). lra.
Qed.

Lemma normalizedDrawing_keeps_order (rs : list (R * R)) :
  rs <> [] ->
  nonDecreasingX (points rs) -> nonDecreasingX (normalizedDrawing (points rs)).
Proof.
  intros Hrs Hinc. rewrite normalizedDrawing_real by assumption.
  intros i j p q Hij Hp Hq. unfold points in Hp, Hq.
  rewrite <- list_fmap_compose in Hp, Hq.
  apply list_lookup_fmap_Some_1 in Hp as (ab & -> & Hab).
  apply list_lookup_fmap_Some_1 in Hq as (cd & -> & Hcd).
  cbn. apply scale_monotone.
  - pose proof (fst_bounds rs ab (list_elem_of_lookup_2 _ _ _ Hab)). lra.
  - apply (Hinc i j (pointOf ab) (pointOf cd) Hij); unfold points;
      rewrite list_lookup_fmap; [rewrite Hab | rewrite Hcd]; reflexivity.
Qed.

Lemma normalizedDrawing_flat_x (rs : list (R * R)) :
  rs <> [] ->
  JS.max (x <$> points rs) = JS.min (x <$> points rs) ->
  Forall (fun p => x p = Fin 0) (normalizedDrawing (points rs)).
Proof.
  intros Hrs. rewrite x_points.
  rewrite min_Fin, max_Fin by (destruct rs; [congruence | discriminate]).
  intros [= Hflat]. rewrite normalizedDrawing_real by assumption.
  unfold points. rewrite <- list_fmap_compose. apply Forall_fmap, Forall_forall.
  intros ab Hab. cbn. f_equal.
  apply scale_flat; [apply fst_bounds, Hab | exact Hflat].
Qed.

Lemma normalizedDrawing_flat_y (rs : list (R * R)) :
  rs <> [] ->
  JS.max (y <$> points rs) = JS.min (y <$> points rs) ->
  Forall (fun p => y p = Fin 1) (normalizedDrawing (points rs)).
Proof.
  intros Hrs. rewrite y_points.
  rewrite min_Fin, max_Fin by (destruct rs; [congruence | discriminate]).
  intros [= Hflat]. rewrite normalizedDrawing_real by assumption.
  unfold points. rewrite <- list_fmap_compose. apply Forall_fmap, Forall_forall.
  intros ab Hab. cbn. f_equal.
  rewrite scale_flat; [lra | apply snd_bounds, Hab | exact Hflat].
Qed.

Lemma sales_seriesOf (product category : string) (values : list (string * R))
    (total : num) :
  sales <$> data (seriesOf product category values total)
  = Fin <$> (snd <$> values).
Proof. cbn [seriesOf data]. rewrite <- !list_fmap_compose. reflexivity. Qed.

(** The [y] of a normalised series, in real numbers. *)
Lemma normalizedSeries_y (product category : string)
    (values : list (string * R)) (total : num) :
  values <> [] ->
  y <$> normalizedSeries (seriesOf product category values total)
  = (fun mv => Fin (scale (lower (snd <$> values)) (upper (snd <$> values))
                      (snd mv))) <$> values.
Proof.
  intros Hv. unfold normalizedSeries. rewrite sales_seriesOf.
  rewrite min_Fin, max_Fin by (destruct values; [congruence | discriminate]).
  cbn [seriesOf data]. rewrite imap_fmap, fmap_imap.
  etrans; [|apply imap_const]. apply imap_ext. intros i [m v] _.
  unfold compose, const. cbn [y sales fst snd]. autorewrite with num.
  apply normalize_coordinate.
Qed.

(** A normalised series of at least two periods, in real numbers. *)
Lemma normalizedSeries_real (product category : string)
    (values : list (string * R)) (total : num) :
  (2 <= length values)%nat ->
  normalizedSeries (seriesOf product category values total)
  = points (imap (fun i mv =>
                    (INR i / (INR (length values) - 1),
                     scale (lower (snd <$> values)) (upper (snd <$> values))
                       (snd mv)))
              values).
Proof.
  intros Hlen. unfold normalizedSeries. rewrite sales_seriesOf.
  rewrite min_Fin, max_Fin by (destruct values; [cbn in Hlen; lia | discriminate]).
  cbn [seriesOf data]. rewrite length_fmap, imap_fmap.
  unfold points. rewrite fmap_imap. apply imap_ext. intros i [m v] _.
  unfold compose, pointOf, pt. cbn [sales fst snd]. autorewrite with num.
  rewrite normalize_coordinate, div_Fin; [reflexivity|].
  assert (H2 : INR 2 <= INR (length values)) by (apply le_INR; lia).
  cbn [INR] in H2. lra.
Qed.

(** A series of a single period: [0 / (1 - 1)] is NaN. *)
Lemma normalizedSeries_single_period (product category month : string)
    (v : R) (total : num) :
  normalizedSeries (seriesOf product category [(month, v)] total)
  = [mkPoint NaN (Fin 0)].
Proof.
  unfold normalizedSeries. rewrite sales_seriesOf.
  cbn [seriesOf data fmap list_fmap snd length imap sales JS.min JS.max foldr].
  autorewrite with num. cbn [INR]. rewrite normalize_coordinate.
  exact_ops. unfold Num.div, Num.scaleInf. rdecide. do 3 f_equal.
  apply scale_flat; lra.
Qed.

Lemma normalizedSeries_flat (product category : string)
    (values : list (string * R)) (total : num) :
  values <> [] ->
  let rawValues := sales <$> data (seriesOf product category values total) in
  JS.max rawValues = JS.min rawValues ->
  Forall (fun p => y p = Fin 0)
    (normalizedSeries (seriesOf product category values total)).
Proof.
  intros Hv rawValues. unfold rawValues. rewrite sales_seriesOf.
  rewrite min_Fin, max_Fin by (destruct values; [congruence | discriminate]).
  intros [= Hflat]. apply (Forall_fmap y (fun a => a = Fin 0)).
  rewrite normalizedSeries_y by assumption.
  apply Forall_fmap, Forall_forall. intros mv Hmv. cbn. f_equal.
  apply scale_flat; [|exact Hflat].
  assert (snd mv ∈ snd <$> values) by (apply list_elem_of_fmap_2, Hmv).
  split; [apply lower_le | apply upper_ge]; assumption.
Qed.

(** C3, as stated, fails: a horizontal stroke has zero range on Y, and the
    inverted Y of the drawn stroke is [1 - 0 = 1], not 0. *)
Lemma C3_flat_stroke_counterexample :
  let stroke := points [(0, 5); (1, 5)] in
  JS.max (y <$> stroke) = JS.min (y <$> stroke)
  /\ ~ Forall (fun p => y p = Fin 0) (normalizedDrawing stroke).
Proof.
  cbn zeta.
  assert (Hflat : JS.max (y <$> points [(0, 5); (1, 5)])
                  = JS.min (y <$> points [(0, 5); (1, 5)])).
  { rewrite y_points, min_Fin, max_Fin by discriminate.
    cbn [fmap list_fmap snd lower upper].
    unfold Rmax, Rmin. destruct (Rle_dec 5 5); reflexivity. }
  split; [exact Hflat|].
  intros Hzero.
  pose proof (normalizedDrawing_flat_y [(0, 5); (1, 5)] ltac:(discriminate) Hflat)
    as Hone.
  rewrite normalizedDrawing_real in Hzero, Hone by discriminate.
  apply Forall_inv in Hzero. apply Forall_inv in Hone.
  rewrite Hone in Hzero. injection Hzero as Hzero. lra.
Qed.

(** C3, amended: on an axis of zero range the drawn stroke gets [x = 0]
    and, Y being inverted, [y = 1]; a value series gets [y = 0].  The
    normalised and the resampled stroke hold real numbers only, and so do
    those of a series of at least two periods. *)
Theorem C3_zero_range_axes (stroke : list (R * R))
    (product category : string) (values : list (string * R)) (total : num) :
  stroke <> [] -> values <> [] ->
  let drawing := normalizedDrawing (points stroke) in
  let series := seriesOf product category values total in
  let rawValues := sales <$> data series in
  (JS.max (x <$> points stroke) = JS.min (x <$> points stroke) ->
   Forall (fun p => x p = Fin 0) drawing)
  /\ (JS.max (y <$> points stroke) = JS.min (y <$> points stroke) ->
      Forall (fun p => y p = Fin 1) drawing)
  /\ (JS.max rawValues = JS.min rawValues ->
      Forall (fun p => y p = Fin 0) (normalizedSeries series))
  /\ Forall finitePoint drawing
  /\ Forall finitePoint (resampleCurve drawing numSamplePoints)
  /\ Forall (fun p => Num.finite (y p)) (normalizedSeries series)
  /\ ((2 <= length values)%nat ->
      Forall finitePoint (normalizedSeries series)
      /\ Forall finitePoint
           (resampleCurve (normalizedSeries series) numSamplePoints)).
Proof.
  intros Hstroke Hvalues. cbn zeta.
  split; [apply normalizedDrawing_flat_x, Hstroke|].
  split; [apply normalizedDrawing_flat_y, Hstroke|].
  split; [apply normalizedSeries_flat, Hvalues|].
  rewrite normalizedDrawing_real by assumption.
  split; [apply finitePoint_points|].
  split.
  { destruct (resampleCurve_points
                ((fun ab =>
                    (scale (lower (fst <$> stroke)) (upper (fst <$> stroke)) (fst ab),
                     1 - scale (lower (snd <$> stroke)) (upper (snd <$> stroke)) (snd ab)))
                   <$> stroke) numSamplePoints) as (out & -> & _).
    apply finitePoint_points. }
  split.
  { apply (Forall_fmap y Num.finite). rewrite normalizedSeries_y by assumption.
    apply Forall_fmap, Forall_forall. intros mv _. exact I. }
  intros Hlen. rewrite normalizedSeries_real by assumption.
  split; [apply finitePoint_points|].
  destruct (resampleCurve_points
              (imap (fun i mv =>
                       (INR i / (INR (length values) - 1),
                        scale (lower (snd <$> values)) (upper (snd <$> values))
                          (snd mv))) values) numSamplePoints) as (out & -> & _).
  apply finitePoint_points.
Qed.

(** C6, as stated, fails: a stroke drawn from right to left is normalised
    to X coordinates that decrease. *)
Lemma C6_right_to_left_stroke_counterexample :
  ~ normalizedCurve (normalizedDrawing (points [(1, 0); (0, 0)])).
Proof.
  intros [_ Hinc]. rewrite normalizedDrawing_real in Hinc by discriminate.
  specialize (Hinc 0%nat 1%nat _ _ (Nat.le_succ_diag_r 0) eq_refl eq_refl).
  cbn in Hinc. unfold scale, Rmin, Rmax in Hinc.
  destruct (Rle_dec 1 0); [lra|].
  destruct (Req_dec_T (1 - 0) 0); [lra|].
  unfold Rdiv in Hinc. rewrite Rinv_r in Hinc by lra. lra.
Qed.

(** C6, amended: every coordinate of a normalised stroke lies in [0, 1],
    and normalisation keeps the order of the X coordinates: they are
    non-decreasing whenever those of the stroke are.  The points are never
    reordered. *)
Theorem C6_normalized_stroke (stroke : list (R * R)) :
  stroke <> [] ->
  Forall (fun p => between 0 1 (x p) /\ between 0 1 (y p))
    (normalizedDrawing (points stroke))
  /\ (nonDecreasingX (points stroke) ->
      normalizedCurve (normalizedDrawing (points stroke))).
Proof.
  intros Hstroke.
  pose proof (normalizedDrawing_unit_square stroke Hstroke) as Hunit.
  split; [exact Hunit|]. intros Hinc. split; [exact Hunit|].
  apply normalizedDrawing_keeps_order; assumption.
Qed.

(** ** Sorting by similarity *)

Lemma numLe_trans (a b c : num) : numLe a b -> numLe b c -> numLe a c.
Proof.
  destruct a, b, c; cbn; intros; try contradiction; try exact I. lra.
Qed.

(** The comparator on distances: [a] goes after [b] exactly when [b] is
    strictly smaller. *)
Lemma bySimilarity_distance (a b : MatchResult num) :
  distance (similarity a) -> distance (similarity b) ->
  if (bySimilarity a b >? JS.lit 0)%num
  then numLe (similarity b) (similarity a)
  else numLe (similarity a) (similarity b).
Proof.
  unfold bySimilarity.
  intros [->|(ra & -> & Ha)]%distance_cases [->|(rb & -> & Hb)]%distance_cases;
    try exact I.
  rewrite lit_Fin, sub_Fin, gt_Fin.
  destruct (Rltb_spec 0 (ra - rb)); cbn; lra.
Qed.

(** The comparator never separates two results of the same similarity. *)
Lemma bySimilarity_equal (a b : MatchResult num) :
  similarity a = similarity b -> (bySimilarity a b >? JS.lit 0)%num = false.
Proof.
  unfold bySimilarity. intros ->. destruct (similarity b); try reflexivity.
  rewrite lit_Fin, sub_Fin, gt_Fin. apply Rltb_false. lra.
Qed.

Lemma sortInsert_Forall {A : Type} (P : A -> Prop) (compareFn : A -> A -> num)
    (a : A) (l : list A) :
  P a -> Forall P l -> Forall P (sortInsert compareFn a l).
Proof.
  intros Ha Hl. induction Hl as [|b l Hb Hl IH]; cbn [sortInsert].
  - repeat constructor. exact Ha.
  - destruct (compareFn a b >? JS.lit 0)%num; repeat constructor; assumption.
Qed.

Lemma sort_Forall {A : Type} (P : A -> Prop) (compareFn : A -> A -> num)
    (l : list A) :
  Forall P l -> Forall P (sort compareFn l).
Proof.
  induction 1 as [|a l Ha Hl IH]; cbn [sort]; [constructor|].
  apply sortInsert_Forall; assumption.
Qed.

Lemma sortInsert_length {A : Type} (compareFn : A -> A -> num) (a : A)
    (l : list A) :
  length (sortInsert compareFn a l) = S (length l).
Proof.
  induction l as [|b l IH]; cbn [sortInsert]; [reflexivity|].
  destruct (compareFn a b >? JS.lit 0)%num; cbn [length]; rewrite ?IH; reflexivity.
Qed.

Lemma sort_length {A : Type} (compareFn : A -> A -> num) (l : list A) :
  length (sort compareFn l) = length l.
Proof.
  induction l as [|a l IH]; cbn [sort]; [reflexivity|].
  rewrite sortInsert_length, IH. reflexivity.
Qed.

Lemma sortInsert_ascending (a : MatchResult num) (l : list (MatchResult num)) :
  distance (similarity a) ->
  Forall (fun r => distance (similarity r)) l ->
  ascending l -> ascending (sortInsert bySimilarity a l).
Proof.
  intros Ha Hl Hsorted. unfold ascending in *.
  induction Hsorted as [|b l Hsorted IH Hb]; cbn [sortInsert].
  - repeat constructor.
  - apply Forall_cons in Hl as [Hdb Hl].
    pose proof (bySimilarity_distance a b Ha Hdb) as Hcmp.
    destruct (bySimilarity a b >? JS.lit 0)%num.
    + constructor; [apply IH, Hl|].
      apply sortInsert_Forall; assumption.
    + constructor; [constructor; assumption|].
      constructor; [exact Hcmp|].
      eapply Forall_impl; [exact Hb|]. intros c Hc.
      eapply numLe_trans; eassumption.
Qed.

Lemma sort_ascending (l : list (MatchResult num)) :
  Forall (fun r => distance (similarity r)) l ->
  ascending (sort bySimilarity l).
Proof.
  induction 1 as [|a l Ha Hl IH]; cbn [sort]; [constructor|].
  apply sortInsert_ascending; [exact Ha | | exact IH].
  apply sort_Forall, Hl.
Qed.

(** The sort is stable: the results of one similarity keep their order. *)
Lemma sortInsert_stable (d : num) (a : MatchResult num) (l : list (MatchResult num)) :
  filter (fun r => similarity r = d) (sortInsert bySimilarity a l)
  = filter (fun r => similarity r = d) (a :: l).
Proof.
  induction l as [|b l IH]; cbn [sortInsert]; [reflexivity|].
  destruct (bySimilarity a b >? JS.lit 0)%num eqn:Hcmp; [|reflexivity].
  rewrite filter_cons, IH, !filter_cons.
  destruct (decide (similarity b = d)) as [Hb|Hb],
           (decide (similarity a = d)) as [Ha|Ha]; try reflexivity.
  rewrite bySimilarity_equal in Hcmp by congruence. discriminate.
Qed.

Lemma sort_stable (d : num) (l : list (MatchResult num)) :
  filter (fun r => similarity r = d) (sort bySimilarity l)
  = filter (fun r => similarity r = d) l.
Proof.
  induction l as [|a l IH]; cbn [sort]; [reflexivity|].
  rewrite sortInsert_stable, !filter_cons, IH. reflexivity.
Qed.

(** ** The similarities the search computes *)

Lemma finiteY_points (rs : list (R * R)) : finiteY (points rs).
Proof.
  eapply Forall_impl; [apply finitePoint_points|]. intros p [_ Hy]. exact Hy.
Qed.

Lemma sampledDrawing_finiteY (stroke : list (R * R)) (n : nat) :
  finiteY (resampleCurve (normalizedDrawing (points stroke)) n).
Proof.
  destruct stroke as [|p stroke]; [constructor|].
  rewrite normalizedDrawing_real by discriminate.
  destruct (resampleCurve_points
              ((fun ab =>
                  (scale (lower (fst <$> p :: stroke)) (upper (fst <$> p :: stroke)) (fst ab),
                   1 - scale (lower (snd <$> p :: stroke)) (upper (snd <$> p :: stroke)) (snd ab)))
                 <$> p :: stroke) n) as (out & -> & _).
  apply finiteY_points.
Qed.

Lemma realSeries_values (series : Series num) :
  realSeries series ->
  exists values,
    series = seriesOf (product series) (category series) values
               (totalSales series).
Proof.
  destruct series as [p c ds t]. unfold realSeries. cbn [data product category totalSales].
  intros Hds. unfold seriesOf.
  enough (exists values,
             ds = (fun mv => mkDataPoint (fst mv) (Fin (snd mv))) <$> values)
    as [values ->] by (exists values; reflexivity).
  induction Hds as [|[m [v| | |]] ds Hd _ [values ->]]; try contradiction.
  - exists []. reflexivity.
  - exists ((m, v) :: values). reflexivity.
Qed.

Lemma sampledSeries_finiteY (series : Series num) (n : nat) :
  realSeries series -> finiteY (resampleCurve (normalizedSeries series) n).
Proof.
  intros [values ->]%realSeries_values.
  destruct values as [|[m v] [|mv values]].
  - constructor.
  - rewrite normalizedSeries_single_period. repeat constructor.
  - rewrite normalizedSeries_real by (cbn; lia).
    match goal with
    | |- finiteY (resampleCurve (points ?rs) n) =>
        destruct (resampleCurve_points rs n) as (out & -> & _)
    end.
    apply finiteY_points.
Qed.

Lemma results_distance (stroke : list (R * R))
    (timeSeriesData : list (Series num)) (selectedCategory : string) :
  Forall realSeries timeSeriesData ->
  Forall (fun r => distance (similarity r))
    (results (points stroke) timeSeriesData selectedCategory).
Proof.
  intros Hreal. unfold results. apply Forall_fmap, Forall_forall.
  intros series Hin. cbn. apply dtw_distance.
  - apply sampledDrawing_finiteY.
  - apply sampledSeries_finiteY.
    rewrite Forall_forall in Hreal. apply Hreal.
    apply list_elem_of_In in Hin. apply filter_In in Hin as [Hin _].
    apply list_elem_of_In, Hin.
Qed.

Lemma results_matched (drawingPoints : list (Point num))
    (timeSeriesData : list (Series num)) (selectedCategory : string) :
  matched <$> results drawingPoints timeSeriesData selectedCategory
  = List.filter (inCategory selectedCategory) timeSeriesData.
Proof.
  unfold results. rewrite <- list_fmap_compose.
  etrans; [|apply list_fmap_id]. apply list_fmap_ext. reflexivity.
Qed.

Lemma points_nonempty (rs : list (R * R)) : rs <> [] -> points rs <> [].
Proof. destruct rs; [congruence | discriminate]. Qed.

Lemma sampledDrawing_nonempty (stroke : list (R * R)) (n : nat) :
  stroke <> [] -> resampleCurve (normalizedDrawing (points stroke)) n <> [].
Proof.
  intros Hstroke. rewrite normalizedDrawing_real by assumption.
  match goal with
  | |- resampleCurve (points ?rs) n <> [] =>
      destruct (resampleCurve_points rs n) as (out & -> & Hout)
  end.
  apply points_nonempty, Hout. destruct stroke; [congruence | discriminate].
Qed.

Lemma sampledSeries_nonempty (series : Series num) (n : nat) :
  realSeries series -> data series <> [] ->
  resampleCurve (normalizedSeries series) n <> [].
Proof.
  intros [values ->]%realSeries_values Hdata.
  destruct values as [|[m v] [|mv values]].
  - contradiction Hdata. reflexivity.
  - rewrite normalizedSeries_single_period. discriminate.
  - rewrite normalizedSeries_real by (cbn; lia).
    match goal with
    | |- resampleCurve (points ?rs) n <> [] =>
        destruct (resampleCurve_points rs n) as (out & -> & Hout)
    end.
    apply points_nonempty, Hout. discriminate.
Qed.

(** With a stroke and series that are not empty, every similarity the
    search computes is a real number: [Infinity] does not reach the
    ranking. *)
Lemma results_finite (stroke : list (R * R)) (timeSeriesData : list (Series num))
    (selectedCategory : string) :
  stroke <> [] ->
  Forall (fun series => realSeries series /\ data series <> []) timeSeriesData ->
  Forall (fun r => exists v, similarity r = Fin v /\ 0 <= v)
    (results (points stroke) timeSeriesData selectedCategory).
Proof.
  intros Hstroke Hreal. unfold results. apply Forall_fmap, Forall_forall.
  intros series Hin. cbn.
  assert (Hseries : realSeries series /\ data series <> []).
  { rewrite Forall_forall in Hreal. apply Hreal.
    apply list_elem_of_In in Hin. apply filter_In in Hin as [Hin _].
    apply list_elem_of_In, Hin. }
  destruct Hseries as [Hr Hd]. apply dtw_finite.
  - apply sampledDrawing_finiteY.
  - apply sampledSeries_finiteY, Hr.
  - apply sampledDrawing_nonempty, Hstroke.
  - apply sampledSeries_nonempty; assumption.
Qed.

(** Every match the search keeps is shown with a quality between 0 and
    100. *)
Lemma sortedResults_matchQuality (stroke : list (R * R))
    (timeSeriesData : list (Series num)) (selectedCategory : string) :
  Forall realSeries timeSeriesData ->
  Forall (fun r => distance (similarity r) /\ between 0 100 (matchQuality r))
    (sortedResults (points stroke) timeSeriesData selectedCategory).
Proof.
  intros Hreal. unfold sortedResults. apply Forall_take, sort_Forall.
  eapply Forall_impl; [apply results_distance, Hreal|].
  intros r Hr. split; [exact Hr | apply matchQuality_range, Hr].
Qed.

(** C4: the search keeps at most ten results, in ascending order of
    [similarity]; the results of one similarity are an initial part of
    those of the corpus, in corpus order. *)
Theorem C4_top_ten_ascending_stable (stroke : list (R * R))
    (timeSeriesData : list (Series num)) (selectedCategory : string) :
  Forall realSeries timeSeriesData ->
  let found := results (points stroke) timeSeriesData selectedCategory in
  let top := sortedResults (points stroke) timeSeriesData selectedCategory in
  (length top <= 10)%nat
  /\ ascending top
  /\ matched <$> found = List.filter (inCategory selectedCategory) timeSeriesData
  /\ forall d : num,
       filter (fun r => similarity r = d) top
       `prefix_of` filter (fun r => similarity r = d) found.
Proof.
  intros Hreal found top. unfold top, sortedResults. fold found.
  split; [rewrite length_take; lia|].
  split.
  { apply (StronglySorted_app_1_l _ _ (drop 10 (sort bySimilarity found))).
    rewrite take_drop. apply sort_ascending, results_distance, Hreal. }
  split; [apply results_matched|].
  intros d. rewrite <- (sort_stable d found).
  exists (filter (fun r => similarity r = d) (drop 10 (sort bySimilarity found))).
  rewrite <- filter_app, take_drop. reflexivity.
Qed.

(** ** Ending a stroke (C5) *)

Lemma searchForMatchingPatterns_runs (timeSeriesData : list (Series num))
    (st : State num) :
  drawingPoints st <> [] -> timeSeriesData <> [] ->
  patternResults (searchForMatchingPatterns timeSeriesData st)
  = sortedResults (drawingPoints st) timeSeriesData (selectedCategory st).
Proof.
  intros Hdp Htsd. unfold searchForMatchingPatterns.
  rewrite !bool_decide_eq_false_2; [reflexivity | |].
  - intros H. apply Htsd. destruct timeSeriesData; [reflexivity | discriminate].
  - intros H. apply Hdp. destruct (drawingPoints st); [reflexivity | discriminate].
Qed.

Lemma sortedResults_length (drawingPoints : list (Point num))
    (timeSeriesData : list (Series num)) (selectedCategory : string) :
  length (sortedResults drawingPoints timeSeriesData selectedCategory)
  = Nat.min 10
      (length (List.filter (inCategory selectedCategory) timeSeriesData)).
Proof.
  unfold sortedResults, results.
  rewrite length_take, sort_length, length_fmap. reflexivity.
Qed.

Lemma endDrawing_short_stroke (timeSeriesData : list (Series num)) (st : State num) :
  (length (drawingPoints st) < 5)%nat ->
  endDrawing timeSeriesData st
  = mkState (drawingPoints st) false (patternResults st) (searching st)
      (selectedCategory st).
Proof.
  intros Hlen. unfold endDrawing.
  rewrite bool_decide_eq_false_2 by lia. reflexivity.
Qed.

(** C5, as stated, fails: after a stroke of five points has been matched,
    a stroke of three points ends with the earlier matches still in
    [patternResults]; the result list is not empty. *)
Lemma C5_earlier_results_stay_counterexample :
  let corpus :=
    [seriesOf "p" "c" [("2024-01"%string, 1); ("2024-02"%string, 2)] (Fin 3)] in
  let first :=
    endDrawing corpus
      (draw (pt 4 4) (draw (pt 3 3) (draw (pt 2 2) (draw (pt 1 1)
         (startDrawing (pt 0 0) initialState))))) in
  let second :=
    draw (pt 2 0) (draw (pt 1 0) (startDrawing (pt 0 0) first)) in
  (length (drawingPoints second) < 5)%nat
  /\ patternResults (endDrawing corpus second) <> [].
Proof.
  cbn zeta. split; [cbn; lia|].
  rewrite endDrawing_short_stroke by (cbn; lia).
  cbn [patternResults draw startDrawing isDrawing].
  unfold endDrawing.
  cbn [drawingPoints draw startDrawing isDrawing initialState app length].
  rewrite bool_decide_eq_true_2 by lia.
  rewrite searchForMatchingPatterns_runs by discriminate.
  intros Hnil. apply (f_equal length) in Hnil.
  rewrite sortedResults_length in Hnil. discriminate Hnil.
Qed.

(** C5, amended: ending a stroke of fewer than five points does not run
    the search: only [isDrawing] is cleared, the result list stays what it
    was (empty if it was empty), and nothing is thrown. *)
Theorem C5_short_stroke_is_not_searched (timeSeriesData : list (Series num))
    (st : State num) :
  (length (drawingPoints st) < 5)%nat ->
  patternResults (endDrawing timeSeriesData st) = patternResults st
  /\ drawingPoints (endDrawing timeSeriesData st) = drawingPoints st
  /\ isDrawing (endDrawing timeSeriesData st) = false
  /\ (patternResults st = [] ->
      patternResults (endDrawing timeSeriesData st) = []).
Proof.
  intros Hlen. rewrite endDrawing_short_stroke by assumption.
  cbn. repeat split. intros H. exact H.
Qed.

(** ** Runs on exact numbers *)

Lemma cost_abs (a b : R) :
  JS.sqrt (JS.pow2 (Fin a - Fin b)%num) = Fin (Rabs (a - b)).
Proof.
  rewrite sub_Fin, pow2_Fin, sqrt_Fin by apply Rle_0_sqr.
  f_equal. apply sqrt_Rsqr_abs.
Qed.

Lemma min2_PInf_l (a : R) : JS.min2 PInf (Fin a) = Fin a.
Proof. reflexivity. Qed.

Lemma min2_PInf_PInf : JS.min2 PInf PInf = PInf.
Proof. reflexivity. Qed.

#[global] Hint Rewrite cost_abs min2_PInf_l min2_PInf_PInf : num.

(** Settles a goal on real numbers built from [Rmin], [Rmax] and [Rabs]. *)
Ltac real_eval :=
  unfold Rmin, Rmax, Rabs;
  repeat match goal with
    | |- context [Rle_dec ?a ?b] => destruct (Rle_dec a b); try lra
    | |- context [Rcase_abs ?a] => destruct (Rcase_abs a); try lra
    end.

Example dtw_two_by_two :
  calculateDTWSimilarity [pt 0 0; pt 1 1] [pt 0 1; pt 1 0] = Fin 2.
Proof.
  unfold calculateDTWSimilarity, dtwTable, dtwRow, dtwCell, dtwInit, setCell, cell, yAt.
  cbn. autorewrite with num. f_equal. real_eval.
Qed.

Example resample_segment :
  resampleCurve [pt 0 0; pt 4 0] 3 = [pt 0 0; pt 2 0; pt 4 0].
Proof.
  assert (Hseg : segment (0, 0) (4, 0) = 4).
  { unfold segment. cbn [fst snd].
    replace ((4 - 0) * (4 - 0) + (0 - 0) * (0 - 0)) with (4 * 4) by ring.
    apply sqrt_square. lra. }
  change [pt 0 0; pt 4 0] with (pointOf (0, 0) :: points [(4, 0)]).
  rewrite resampleCurve_unfold by discriminate.
  rewrite pathLengthLoop_real. cbn [pathFrom]. rewrite Hseg.
  autorewrite with num. cbn [INR]. rewrite div_Fin by lra.
  unfold forLoop. cbn [seq foldl Nat.sub]. rewrite forBody_real.
  cbn [result currentDistance prevPoint remaining INR].
  rewrite whileLoop_real_step, Hseg.
  rdecide. cbn [negb result]. rewrite div_Fin by lra.
  autorewrite with num. cbn [fst snd app points fmap list_fmap List.last].
  unfold pointOf. cbn [fst snd]. autorewrite with num. unfold pt.
  repeat f_equal; field.
Qed.

Example resample_two_segments :
  resampleCurve [pt 0 0; pt 1 0; pt 4 0] 4
  = [pt 0 0; pt (4 / 3) 0; pt (8 / 3) 0; pt 4 0].
Proof.
  assert (Hseg1 : segment (0, 0) (1, 0) = 1).
  { unfold segment. cbn [fst snd].
    replace ((1 - 0) * (1 - 0) + (0 - 0) * (0 - 0)) with (1 * 1) by ring.
    apply sqrt_square. lra. }
  assert (Hseg2 : segment (1, 0) (4, 0) = 3).
  { unfold segment. cbn [fst snd].
    replace ((4 - 1) * (4 - 1) + (0 - 0) * (0 - 0)) with (3 * 3) by ring.
    apply sqrt_square. lra. }
  change [pt 0 0; pt 1 0; pt 4 0] with (pointOf (0, 0) :: points [(1, 0); (4, 0)]).
  rewrite resampleCurve_unfold by discriminate.
  rewrite pathLengthLoop_real. cbn [pathFrom]. rewrite Hseg1, Hseg2.
  autorewrite with num. cbn [INR]. rewrite div_Fin by lra.
  unfold forLoop. cbn [seq foldl Nat.sub]. rewrite !forBody_real.
  cbn [result currentDistance prevPoint remaining INR].
  rewrite whileLoop_real_step, Hseg1. rdecide. cbn [negb].
  rewrite whileLoop_real_step, Hseg2. rdecide. cbn [negb].
  cbn [result currentDistance prevPoint remaining].
  rewrite whileLoop_real_step, Hseg2. rdecide. cbn [negb result].
  rewrite !div_Fin by lra.
  autorewrite with num. cbn [fst snd app points fmap list_fmap List.last].
  unfold pointOf. cbn [fst snd]. autorewrite with num. unfold pt.
  repeat f_equal; field.
Qed.

(** ** Sorting, on any numbers *)

Section Sorting.

Context {N : Type} `{!JS.Number N} {A : Type}.

Lemma sortInsert_Permutation (compareFn : A -> A -> N) (a : A) (l : list A) :
  sortInsert compareFn a l ≡ₚ a :: l.
Proof.
  induction l as [|b l IH]; cbn [sortInsert]; [reflexivity|].
  destruct (compareFn a b >? JS.lit 0)%num; [|reflexivity].
  rewrite IH. apply Permutation_swap.
Qed.

(** [sort] reorders: it neither drops nor adds an element. *)
Lemma sort_Permutation (compareFn : A -> A -> N) (l : list A) :
  sort compareFn l ≡ₚ l.
Proof.
  induction l as [|a l IH]; cbn [sort]; [reflexivity|].
  rewrite sortInsert_Permutation, IH. reflexivity.
Qed.

End Sorting.


(** ** Resampling by arc length *)

(** The [while] loop when the target lies ahead on the curve: the point
    pushed is the point of the curve at the target arc length. *)
Lemma whileLoop_arc (tg : R) (rest : list (R * R)) :
  forall (c : R) (res : list (R * R)) (prev : R * R),
  c < tg <= c + pathFrom prev rest ->
  exists (c' : R) (prev' : R * R) (rest' : list (R * R)),
    whileLoop (Fin tg) (points res) (Fin c) (pointOf prev) (points rest)
    = mkWalk (points (res ++ [pointAt prev rest (tg - c)])) (Fin c')
        (pointOf prev') (points rest')
    /\ c' + pathFrom prev' rest' = c + pathFrom prev rest
    /\ c' < tg
    /\ forall d, tg <= d ->
         pointAt prev' rest' (d - c') = pointAt prev rest (d - c).
Proof.
  induction rest as [|p rest IH]; intros c res prev Htg.
  - cbn [pathFrom] in Htg. lra.
  - rewrite whileLoop_real_step. cbn [pathFrom pointAt] in *.
    rewrite Rltb_true by lra.
    destruct (Rltb_spec (c + segment prev p) tg) as [Hfar|Hnear]; cbn [negb].
    + destruct (IH (c + segment prev p) res p ltac:(lra))
        as (c' & prev' & rest' & Heq & Hpath & Hc' & Hat).
      exists c', prev', rest'. rewrite Heq.
      destruct (Rle_dec (tg - c) (segment prev p)) as [Hle|_]; [lra|].
      replace (tg - (c + segment prev p)) with (tg - c - segment prev p) by lra.
      split; [reflexivity|]. split; [lra|]. split; [exact Hc'|].
      intros d Hd. rewrite (Hat d Hd).
      destruct (Rle_dec (d - c) (segment prev p)) as [Hle|_]; [lra|].
      f_equal. lra.
    + assert (Hseg : segment prev p <> 0) by lra.
      exists c, prev, (p :: rest).
      destruct (Rle_dec (tg - c) (segment prev p)) as [_|Hgt]; [|lra].
      split; [|split; [reflexivity | split; [lra | reflexivity]]].
      f_equal. unfold points. rewrite fmap_app. f_equal. cbn [fmap list_fmap].
      f_equal. unfold pointOf, pt, interpolate. cbn [x y fst snd].
      rewrite div_Fin by assumption. autorewrite with num. reflexivity.
Qed.

(** The [for] loop with a positive step whose [k] targets lie on the
    curve: the [i]-th point pushed is the point at arc length [i * step]. *)
Lemma forLoop_arc (step : R) (p0 : R * R) (rest : list (R * R)) (k : nat) :
  0 < step -> INR k * step <= pathFrom p0 rest ->
  result
    (foldl (forBody (Fin step))
       (mkWalk (points [p0]) (Fin 0) (pointOf p0) (points rest)) (seq 1 k))
  = points ([p0] ++ ((fun i => pointAt p0 rest (INR i * step)) <$> seq 1 k)).
Proof.
  intros Hstep Hk. set (total := pathFrom p0 rest) in *.
  pose (Q := fun (j : nat) (w : Walk num) =>
    exists (c' : R) (prev' : R * R) (rest' : list (R * R)),
      w = mkWalk
            (points ([p0] ++ ((fun i => pointAt p0 rest (INR i * step))
                              <$> seq 1 (j - 1))))
            (Fin c') (pointOf prev') (points rest')
      /\ c' + pathFrom prev' rest' = total
      /\ c' < INR j * step
      /\ forall d, INR j * step <= d ->
           pointAt prev' rest' (d - c') = pointAt p0 rest d).
  assert (HQ : Q (1 + k)%nat
                 (foldl (forBody (Fin step))
                    (mkWalk (points [p0]) (Fin 0) (pointOf p0) (points rest))
                    (seq 1 k))).
  { apply (foldl_seq_invariant Q).
    - exists 0, p0, rest. cbn [Nat.sub seq fmap list_fmap INR].
      split; [reflexivity|]. split; [unfold total; lra|]. split; [lra|].
      intros d _. f_equal. lra.
    - intros j w Hj (c & prev & rest1 & -> & Hpath & Hc & Hat).
      rewrite forBody_real. cbn [result currentDistance prevPoint remaining].
      assert (Hjk : INR j <= INR k) by (apply le_INR; lia).
      destruct (whileLoop_arc (INR j * step) rest1 c
                  ([p0] ++ ((fun i => pointAt p0 rest (INR i * step))
                            <$> seq 1 (j - 1))) prev)
        as (c' & prev' & rest' & Heq & Hpath' & Hc' & Hat'); [split; nra|].
      exists c', prev', rest'. rewrite Heq.
      split; [|split; [lra | split]].
      + f_equal. f_equal. rewrite <- app_assoc. f_equal.
        replace (S j - 1)%nat with (S (j - 1)) by lia.
        rewrite seq_S, fmap_app. cbn [fmap list_fmap].
        replace (1 + (j - 1))%nat with j by lia.
        rewrite (Hat (INR j * step)) by lra. reflexivity.
      + rewrite S_INR. nra.
      + intros d Hd. rewrite S_INR in Hd.
        rewrite Hat' by nra. apply Hat. nra. }
  destruct HQ as (c' & prev' & rest' & -> & _). cbn [result].
  replace (1 + k - 1)%nat with k by lia. reflexivity.
Qed.

(** Resampling by arc length: the points between the two ends are the
    points of the curve at the arc lengths [i * L / (n - 1)]. *)
Lemma resampleCurve_arc (p0 p1 : R * R) (rest : list (R * R)) (n : nat) :
  let L := pathFrom p0 (p1 :: rest) in
  0 < L ->
  resampleCurve (points (p0 :: p1 :: rest)) n
  = points ([p0]
            ++ ((fun i => pointAt p0 (p1 :: rest) (INR i * (L / (INR n - 1))))
                <$> seq 1 (n - 2))
            ++ [List.last (p1 :: rest) p0]).
Proof.
  intros L HL.
  change (points (p0 :: p1 :: rest))
    with (pointOf p0 :: points (p1 :: rest)).
  rewrite resampleCurve_unfold by discriminate.
  rewrite pathLengthLoop_real, Rplus_0_l, last_points. fold L.
  unfold forLoop. rewrite ofNat_Fin, sub_Fin.
  destruct (decide (n - 2 = 0)%nat) as [Hn|Hn].
  - rewrite Hn. reflexivity.
  - assert (Hd : 0 < INR n - 1).
    { assert (H3 : INR 3 <= INR n) by (apply le_INR; lia).
      cbn [INR] in H3. lra. }
    rewrite div_Fin by lra.
    change [pointOf p0] with (points [p0]).
    rewrite forLoop_arc.
    + unfold points. rewrite !fmap_app, <- app_assoc. reflexivity.
    + apply Rdiv_lt_0_compat; assumption.
    + rewrite minus_INR by lia. cbn [INR].
      set (q := L / (INR n - 1)).
      assert (Hq : 0 < q) by (apply Rdiv_lt_0_compat; assumption).
      assert (Hsplit : L = q * (INR n - 1)) by (unfold q; field; lra).
      fold L. apply Rle_trans with (q * (INR n - 1));
        [nra | right; symmetry; exact Hsplit].
Qed.

(** ** Resampled points stay between the points of the curve *)

Lemma last_elem_of {A : Type} (l : list A) (d : A) :
  l <> [] -> List.last l d ∈ l.
Proof.
  induction l as [|a l IH]; [congruence|]. intros _.
  destruct l as [|b l]; [apply list_elem_of_here|].
  apply list_elem_of_further, IH. discriminate.
Qed.

Section Convex.

Variable P : R * R -> Prop.
Hypothesis P_convex : convex P.

Lemma whileLoop_convex (tg : R) (rest : list (R * R)) :
  forall (c : R) (res : list (R * R)) (prev : R * R),
  P prev -> Forall P rest -> Forall P res ->
  exists (res' : list (R * R)) (c' : R) (prev' : R * R) (rest' : list (R * R)),
    whileLoop (Fin tg) (points res) (Fin c) (pointOf prev) (points rest)
    = mkWalk (points res') (Fin c') (pointOf prev') (points rest')
    /\ P prev' /\ Forall P rest' /\ Forall P res'.
Proof using P_convex.
  induction rest as [|p rest IH]; intros c res prev Hprev Hrest Hres.
  - exists res, c, prev, []. repeat split; assumption.
  - rewrite whileLoop_real_step. inversion Hrest as [|? ? Hp Hrest']; subst.
    destruct (Rltb_spec c tg) as [Hlt|Hge].
    + destruct (Rltb_spec (c + segment prev p) tg) as [Hfar|Hnear]; cbn [negb].
      * apply IH; assumption.
      * assert (Hseg : 0 < segment prev p) by lra.
        exists (res ++ [interpolate prev p ((tg - c) / segment prev p)]),
          c, prev, (p :: rest).
        split; [|split; [assumption | split; [assumption|]]].
        -- f_equal. unfold points. rewrite fmap_app. f_equal.
           cbn [fmap list_fmap]. f_equal.
           unfold pointOf, pt, interpolate. cbn [x y fst snd].
           rewrite div_Fin by lra. autorewrite with num. reflexivity.
        -- apply Forall_app. split; [assumption|]. constructor; [|constructor].
           apply P_convex; try assumption. split.
           ++ apply Rmult_le_pos; [lra|]. left. apply Rinv_0_lt_compat, Hseg.
           ++ apply (Rmult_le_reg_r (segment prev p)); [exact Hseg|].
              unfold Rdiv. rewrite Rmult_assoc, Rinv_l by lra. lra.
    + exists res, c, prev, (p :: rest). repeat split; assumption.
Qed.

Lemma forLoop_convex (step : R) (p0 : R * R) (rest : list (R * R)) (k : nat) :
  P p0 -> Forall P rest ->
  exists res : list (R * R),
    result
      (foldl (forBody (Fin step))
         (mkWalk (points [p0]) (Fin 0) (pointOf p0) (points rest)) (seq 1 k))
    = points res
    /\ Forall P res.
Proof using P_convex.
  intros Hp0 Hrest.
  pose (Q := fun (j : nat) (w : Walk num) =>
    exists (res : list (R * R)) (c' : R) (prev' : R * R) (rest' : list (R * R)),
      w = mkWalk (points res) (Fin c') (pointOf prev') (points rest')
      /\ P prev' /\ Forall P rest' /\ Forall P res).
  assert (HQ : Q (1 + k)%nat
                 (foldl (forBody (Fin step))
                    (mkWalk (points [p0]) (Fin 0) (pointOf p0) (points rest))
                    (seq 1 k))).
  { apply (foldl_seq_invariant Q).
    - exists [p0], 0, p0, rest. repeat split; try assumption.
      constructor; [assumption | constructor].
    - intros j w Hj (res & c & prev & rest1 & -> & Hprev & Hrest1 & Hres).
      rewrite forBody_real. cbn [result currentDistance prevPoint remaining].
      apply whileLoop_convex; assumption. }
  destruct HQ as (res & c' & prev' & rest' & -> & _ & _ & Hres).
  exists res. split; [reflexivity | exact Hres].
Qed.

(** Every point of the resampled curve lies in every convex set that
    holds the points of the curve. *)
Lemma resampleCurve_convex (rs : list (R * R)) (n : nat) :
  Forall P rs ->
  exists out : list (R * R),
    resampleCurve (points rs) n = points out /\ Forall P out.
Proof using P_convex.
  intros Hrs. destruct rs as [|p0 [|p1 rest]].
  - exists []. split; [reflexivity | constructor].
  - exists [p0]. split; [reflexivity | exact Hrs].
  - change (points (p0 :: p1 :: rest))
      with (pointOf p0 :: points (p1 :: rest)).
    rewrite resampleCurve_unfold by discriminate.
    rewrite pathLengthLoop_real, Rplus_0_l, last_points.
    set (total := pathFrom p0 (p1 :: rest)).
    inversion Hrs as [|? ? Hp0 Hrest]; subst.
    assert (Hlast : P (List.last (p1 :: rest) p0)).
    { rewrite Forall_forall in Hrest. apply Hrest.
      apply last_elem_of. discriminate. }
    unfold forLoop. rewrite ofNat_Fin, sub_Fin.
    destruct (decide (n - 2 = 0)%nat) as [Hn|Hn].
    + rewrite Hn. cbn [seq foldl result].
      exists [p0; List.last (p1 :: rest) p0].
      split; [reflexivity | repeat constructor; assumption].
    + assert (Hd : 0 < INR n - 1).
      { assert (H3 : INR 3 <= INR n) by (apply le_INR; lia).
        cbn [INR] in H3. lra. }
      rewrite div_Fin by lra.
      destruct (forLoop_convex (total / (INR n - 1)) p0 (p1 :: rest) (n - 2)
                  Hp0 Hrest) as (res & Heq & Hres).
      change [pointOf p0] with (points [p0]). rewrite Heq.
      exists (res ++ [List.last (p1 :: rest) p0]). split.
      * unfold points. rewrite fmap_app. reflexivity.
      * apply Forall_app. split; [exact Hres | repeat constructor; assumption].
Qed.

End Convex.

Lemma unitSquare_convex : convex unitSquare.
Proof.
  intros [a b] [c d] t [Ha Hb] [Hc Hd] Ht. unfold unitSquare, interpolate in *.
  cbn [fst snd] in *. split; split; nra.
Qed.

(** The number of points of the result. *)
Lemma resampleCurve_length (p0 p1 : R * R) (rest : list (R * R)) (n : nat) :
  (2 <= n)%nat ->
  (2 <= length (resampleCurve (points (p0 :: p1 :: rest)) n) <= n)%nat.
Proof.
  intros Hn.
  destruct (resampleCurve_real p0 p1 rest n) as (pushed & -> & Hlen & _).
  unfold points. rewrite length_fmap, !length_app. cbn [length]. lia.
Qed.

(** ** A straight segment *)

Lemma segment_positive (p q : R * R) : p <> q -> 0 < segment p q.
Proof.
  intros Hne. unfold segment. apply sqrt_lt_R0.
  destruct p as [a b], q as [c d]. cbn [fst snd].
  pose proof (Rle_0_sqr (c - a)) as Hx. pose proof (Rle_0_sqr (d - b)) as Hy.
  destruct (Req_dec_T c a) as [->|Hca].
  - destruct (Req_dec_T d b) as [->|Hdb]; [congruence|].
    assert (0 < Rsqr (d - b)) by (apply Rsqr_pos_lt; lra).
    unfold Rsqr in *. lra.
  - assert (0 < Rsqr (c - a)) by (apply Rsqr_pos_lt; lra).
    unfold Rsqr in *. lra.
Qed.

(** A straight segment is cut into [n - 1] equal parts. *)
Lemma resampleCurve_segment (p0 p1 : R * R) (n : nat) :
  (2 <= n)%nat -> p0 <> p1 ->
  resampleCurve (points [p0; p1]) n
  = points ((fun i => interpolate p0 p1 (INR i / (INR n - 1))) <$> seq 0 n).
Proof.
  intros Hn Hne. pose proof (segment_positive p0 p1 Hne) as Hseg.
  assert (HL : pathFrom p0 [p1] = segment p0 p1) by (cbn [pathFrom]; lra).
  rewrite resampleCurve_arc by (rewrite HL; exact Hseg). rewrite HL.
  assert (Hd : 0 < INR n - 1).
  { assert (H2 : INR 2 <= INR n) by (apply le_INR; lia).
    cbn [INR] in H2. lra. }
  assert (Hseq : seq 0 n = 0%nat :: seq 1 (n - 2) ++ [(n - 1)%nat]).
  { replace n with (S ((n - 2) + 1)) at 1 by lia. cbn [seq]. f_equal.
    rewrite seq_app. cbn [seq]. do 2 f_equal. lia. }
  rewrite Hseq. f_equal. cbn [List.last fmap list_fmap app].
  rewrite fmap_app. cbn [fmap list_fmap]. f_equal; [|f_equal].
  - destruct p0 as [a b]. unfold interpolate. cbn [INR fst snd].
    f_equal; unfold Rdiv; ring.
  - apply list_fmap_ext. intros k i Hi.
    apply lookup_seq in Hi as [-> Hk]. cbn [pointAt].
    assert (Hi : INR (1 + k) <= INR n - 1).
    { assert (H' : INR (S (1 + k)) <= INR n) by (apply le_INR; lia).
      rewrite S_INR in H'. lra. }
    pose proof (pos_INR (1 + k)) as Hpos.
    destruct (Rle_dec _ _) as [_|Hgt].
    + f_equal. field. lra.
    + exfalso. apply Hgt.
      apply (Rmult_le_reg_r (INR n - 1)); [exact Hd|].
      replace (INR (1 + k) * (segment p0 p1 / (INR n - 1)) * (INR n - 1))
        with (INR (1 + k) * segment p0 p1) by (field; lra).
      nra.
  - f_equal. rewrite minus_INR by lia. cbn [INR].
    destruct p0 as [a b], p1 as [c d]. unfold interpolate. cbn [fst snd].
    f_equal; field; lra.
Qed.


(** X1: for [n >= 2], a curve of at least two real points is resampled
    to at least two and at most [n] points, the first and the last being
    those of the curve; a curve of positive length gives exactly [n]
    points. *)
Theorem X1_resample_count_and_ends (p0 p1 : R * R) (rest : list (R * R))
    (n : nat) :
  (2 <= n)%nat ->
  let resampled := resampleCurve (points (p0 :: p1 :: rest)) n in
  (2 <= length resampled <= n)%nat
  /\ head resampled = Some (pointOf p0)
  /\ last resampled = Some (pointOf (List.last (p1 :: rest) p0))
  /\ (0 < pathFrom p0 (p1 :: rest) -> length resampled = n).
Proof.
  intros Hn. cbn zeta.
  split; [apply resampleCurve_length, Hn|].
  destruct (resampleCurve_endpoints p0 p1 rest n) as [Hhead Hlast].
  split; [exact Hhead|]. split; [exact Hlast|].
  intros Hpath. apply (resampleCurve_positive_length p0 p1 rest n Hn Hpath).
Qed.

(** X2: resampling is by arc length: on a curve of real points of
    positive length [L], the points between the two ends are the points
    of the curve at the arc lengths [i * L / (n - 1)], for
    [i = 1 .. n - 2]. *)
Theorem X2_resample_by_arc_length (p0 p1 : R * R) (rest : list (R * R))
    (n : nat) :
  let L := pathFrom p0 (p1 :: rest) in
  0 < L ->
  resampleCurve (points (p0 :: p1 :: rest)) n
  = points ([p0]
            ++ ((fun i => pointAt p0 (p1 :: rest) (INR i * (L / (INR n - 1))))
                <$> seq 1 (n - 2))
            ++ [List.last (p1 :: rest) p0]).
Proof. exact (resampleCurve_arc p0 p1 rest n). Qed.

(** X3: a straight segment between two distinct real points is cut into
    [n - 1] equal parts: the result holds the points at the parameters
    [i / (n - 1)], for [i = 0 .. n - 1]. *)
Theorem X3_resample_segment_equal_parts (p0 p1 : R * R) (n : nat) :
  (2 <= n)%nat -> p0 <> p1 ->
  resampleCurve (points [p0; p1]) n
  = points ((fun i => interpolate p0 p1 (INR i / (INR n - 1))) <$> seq 0 n).
Proof. exact (resampleCurve_segment p0 p1 n). Qed.

(** X4: every point of the resampled curve lies in every convex set that
    holds the points of the curve: resampling never leaves the convex
    hull, and the result holds real points only. *)
Theorem X4_resample_stays_in_convex_hull (P : R * R -> Prop)
    (rs : list (R * R)) (n : nat) :
  convex P -> Forall P rs ->
  exists out : list (R * R),
    resampleCurve (points rs) n = points out /\ Forall P out.
Proof. intros Hconvex. exact (resampleCurve_convex P Hconvex rs n). Qed.

(** ** Dynamic time warping as a least cost *)

Lemma warping_pos (i j : nat) (w : list (nat * nat)) :
  warping i j w -> (1 <= i)%nat /\ (1 <= j)%nat.
Proof. induction 1; lia. Qed.

Lemma cost_real (a b : list (Point num)) (i j : nat) :
  finiteY a -> finiteY b ->
  (1 <= i <= length a)%nat -> (1 <= j <= length b)%nat ->
  cost a b i j = Fin (Rabs (yReal a (i - 1) - yReal b (j - 1))).
Proof.
  intros Ha Hb Hi Hj. unfold cost, yReal.
  destruct (yAt_finite a (i - 1) Ha) as [ra ->]; [lia|].
  destruct (yAt_finite b (j - 1) Hb) as [rb ->]; [lia|].
  apply cost_abs.
Qed.

Lemma min3_Fin (u l d : R) :
  JS.min [Fin u; Fin l; Fin d] = Fin (Rmin u (Rmin l d)).
Proof. cbn [JS.min foldr]. autorewrite with num. reflexivity. Qed.

(** Every cell of the finished table holds the least cost of a warping
    path to it. *)
Lemma dtw_cells_leastCost (a b : list (Point num)) (i j : nat) :
  finiteY a -> finiteY b -> (i <= length a)%nat -> (j <= length b)%nat ->
  leastCost a b i j (cell (dtwTable a b) i j).
Proof.
  intros Ha Hb. apply (dtw_induction a b (leastCost a b)).
  - reflexivity.
  - intros i' j' _ _ Hz Hnz. destruct i', j'; cbn; try reflexivity; lia.
  - intros i' j' u l d Hi Hj Hu Hl Hd.
    rewrite (cost_real a b i' j' Ha Hb Hi Hj).
    set (c := Rabs (yReal a (i' - 1) - yReal b (j' - 1))).
    assert (Hcons : forall w, pathCost a b ((i', j') :: w) = c + pathCost a b w)
      by reflexivity.
    destruct i' as [|i']; [lia|]. destruct j' as [|j']; [lia|].
    cbn [Nat.sub] in Hu, Hl, Hd. rewrite !Nat.sub_0_r in *.
    destruct i' as [|i'], j' as [|j'].
    + cbn in Hu, Hl, Hd. subst u l d. cbn [JS.min foldr].
      autorewrite with num. exists (c + 0). split; [reflexivity|]. split.
      * exists [(1, 1)%nat]. split; [constructor | reflexivity].
      * intros w Hw. inversion Hw as [|? ? w' Hw'|? ? w' Hw'|? ? w' Hw']; subst.
        -- apply Rle_refl.
        -- apply warping_pos in Hw'. lia.
        -- apply warping_pos in Hw'. lia.
        -- apply warping_pos in Hw'. lia.
    + cbn in Hu, Hd. subst u d.
      destruct Hl as (s & -> & (w0 & Hw0 & Hcost0) & Hleast).
      cbn [JS.min foldr]. autorewrite with num.
      exists (c + s). split; [reflexivity|]. split.
      * exists ((1, S (S j'))%nat :: w0). split; [constructor; exact Hw0|].
        rewrite Hcons, Hcost0. reflexivity.
      * intros w Hw. inversion Hw as [|? ? w' Hw'|? ? w' Hw'|? ? w' Hw']; subst.
        -- apply warping_pos in Hw'. lia.
        -- rewrite Hcons. specialize (Hleast _ Hw'). lra.
        -- apply warping_pos in Hw'. lia.
    + cbn in Hl, Hd. subst l d.
      destruct Hu as (s & -> & (w0 & Hw0 & Hcost0) & Hleast).
      cbn [JS.min foldr]. autorewrite with num.
      exists (c + s). split; [reflexivity|]. split.
      * exists ((S (S i'), 1)%nat :: w0). split; [constructor; exact Hw0|].
        rewrite Hcons, Hcost0. reflexivity.
      * intros w Hw. inversion Hw as [|? ? w' Hw'|? ? w' Hw'|? ? w' Hw']; subst.
        -- rewrite Hcons. specialize (Hleast _ Hw'). lra.
        -- apply warping_pos in Hw'. lia.
        -- apply warping_pos in Hw'. lia.
    + destruct Hu as (su & -> & (wu & Hwu & Hcu) & Hleastu).
      destruct Hl as (sl & -> & (wl & Hwl & Hcl) & Hleastl).
      destruct Hd as (sd & -> & (wd & Hwd & Hcd) & Hleastd).
      rewrite min3_Fin, add_Fin.
      exists (c + Rmin su (Rmin sl sd)). split; [reflexivity|]. split.
      * unfold Rmin. destruct (Rle_dec sl sd), (Rle_dec su _).
        -- exists ((S (S i'), S (S j'))%nat :: wu).
           split; [constructor; exact Hwu | rewrite Hcons, Hcu; reflexivity].
        -- exists ((S (S i'), S (S j'))%nat :: wl).
           split; [constructor; exact Hwl | rewrite Hcons, Hcl; reflexivity].
        -- exists ((S (S i'), S (S j'))%nat :: wu).
           split; [constructor; exact Hwu | rewrite Hcons, Hcu; reflexivity].
        -- exists ((S (S i'), S (S j'))%nat :: wd).
           split; [constructor; exact Hwd | rewrite Hcons, Hcd; reflexivity].
      * intros w Hw.
        pose proof (Rmin_l su (Rmin sl sd)).
        pose proof (Rmin_r su (Rmin sl sd)).
        pose proof (Rmin_l sl sd). pose proof (Rmin_r sl sd).
        inversion Hw as [|? ? w' Hw'|? ? w' Hw'|? ? w' Hw']; subst;
          rewrite Hcons.
        -- specialize (Hleastu _ Hw'). lra.
        -- specialize (Hleastl _ Hw'). lra.
        -- specialize (Hleastd _ Hw'). lra.
Qed.

(** The DTW distance is the least total cost of a warping path. *)
Theorem dtw_least_warping_cost (a b : list (Point num)) :
  finiteY a -> finiteY b -> a <> [] -> b <> [] ->
  exists s,
    calculateDTWSimilarity a b = Fin s
    /\ (exists w, warping (length a) (length b) w /\ pathCost a b w = s)
    /\ (forall w, warping (length a) (length b) w -> s <= pathCost a b w).
Proof.
  intros Ha Hb Hna Hnb.
  pose proof (dtw_cells_leastCost a b (length a) (length b) Ha Hb
                (le_n _) (le_n _)) as H.
  destruct a as [|p a]; [congruence|]. destruct b as [|q b]; [congruence|].
  exact H.
Qed.

(** ** Consequences *)

Lemma warping_transpose (i j : nat) (w : list (nat * nat)) :
  warping i j w -> warping j i (prod_swap <$> w).
Proof. induction 1; cbn; constructor; assumption. Qed.

Lemma pathCost_transpose (a b : list (Point num)) (w : list (nat * nat)) :
  pathCost b a (prod_swap <$> w) = pathCost a b w.
Proof.
  induction w as [|[i j] w IH]; [reflexivity|].
  cbn [fmap list_fmap pathCost foldr prod_swap fst snd].
  fold (pathCost b a (prod_swap <$> w)). fold (pathCost a b w).
  rewrite IH, Rabs_minus_sym. reflexivity.
Qed.

Lemma leastCost_transpose (a b : list (Point num)) (i j : nat) (u v : num) :
  leastCost a b i j u -> leastCost b a j i v -> u = v.
Proof.
  destruct i as [|i], j as [|j]; cbn; try congruence.
  intros (s & -> & (w & Hw & Hs) & Hleast) (t & -> & (w' & Hw' & Ht) & Hleast').
  f_equal. apply Rle_antisym.
  - rewrite <- Ht, <- (pathCost_transpose b a w').
    apply Hleast. change (S i) with (snd (S j, S i)).
    apply (warping_transpose _ _ _ Hw').
  - rewrite <- Hs, <- (pathCost_transpose a b w).
    apply Hleast'. apply (warping_transpose _ _ _ Hw).
Qed.

Theorem dtw_symmetric (a b : list (Point num)) :
  finiteY a -> finiteY b ->
  calculateDTWSimilarity a b = calculateDTWSimilarity b a.
Proof.
  intros Ha Hb. unfold calculateDTWSimilarity.
  apply (leastCost_transpose a b (length a) (length b));
    apply dtw_cells_leastCost; auto.
Qed.

(** The cells of a path to [(i, j)] lie between [(1, 1)] and [(i, j)]. *)
Lemma warping_cells (i j : nat) (w : list (nat * nat)) :
  warping i j w ->
  Forall (fun ij => (1 <= fst ij <= i)%nat /\ (1 <= snd ij <= j)%nat) w.
Proof.
  induction 1 as [|i j w Hw IH|i j w Hw IH|i j w Hw IH].
  - repeat constructor.
  - apply warping_pos in Hw. constructor; [cbn; lia|].
    eapply Forall_impl; [exact IH|]. cbn. intros ij. lia.
  - apply warping_pos in Hw. constructor; [cbn; lia|].
    eapply Forall_impl; [exact IH|]. cbn. intros ij. lia.
  - apply warping_pos in Hw. constructor; [cbn; lia|].
    eapply Forall_impl; [exact IH|]. cbn. intros ij. lia.
Qed.

Lemma pathCost_nonneg (a b : list (Point num)) (w : list (nat * nat)) :
  0 <= pathCost a b w.
Proof.
  induction w as [|ij w IH]; [apply Rle_refl|].
  cbn [pathCost foldr]. fold (pathCost a b w).
  pose proof (Rabs_pos (yReal a (fst ij - 1) - yReal b (snd ij - 1))). lra.
Qed.

Lemma pathCost_member (a b : list (Point num)) (w : list (nat * nat))
    (ij : nat * nat) :
  ij ∈ w ->
  Rabs (yReal a (fst ij - 1) - yReal b (snd ij - 1)) <= pathCost a b w.
Proof.
  induction 1 as [ij w|ij kl w Hin IH];
    cbn [pathCost foldr]; fold (pathCost a b w).
  - pose proof (pathCost_nonneg a b w). lra.
  - pose proof (Rabs_pos (yReal a (fst kl - 1) - yReal b (snd kl - 1))). lra.
Qed.

Lemma warping_ends (i j : nat) (w : list (nat * nat)) :
  warping i j w -> (i, j) ∈ w /\ (1, 1)%nat ∈ w.
Proof.
  induction 1 as [|i j w Hw [_ IH]|i j w Hw [_ IH]|i j w Hw [_ IH]];
    split; try apply list_elem_of_here; apply list_elem_of_further;
    assumption.
Qed.

(** The first points of the two curves are always matched with each
    other, and so are the last points. *)
Theorem dtw_at_least_endpoints (a b : list (Point num)) :
  finiteY a -> finiteY b -> a <> [] -> b <> [] ->
  exists s,
    calculateDTWSimilarity a b = Fin s
    /\ Rabs (yReal a 0 - yReal b 0) <= s
    /\ Rabs (yReal a (length a - 1) - yReal b (length b - 1)) <= s.
Proof.
  intros Ha Hb Hna Hnb.
  destruct (dtw_least_warping_cost a b Ha Hb Hna Hnb)
    as (s & Heq & (w & Hw & <-) & _).
  exists (pathCost a b w). split; [exact Heq|].
  destruct (warping_ends _ _ _ Hw) as [Hlast Hfirst].
  split.
  - apply (pathCost_member a b w (1, 1)%nat Hfirst).
  - apply (pathCost_member a b w (length a, length b) Hlast).
Qed.

Lemma yBetween_finiteY (lo hi : R) (c : list (Point num)) :
  yBetween lo hi c -> finiteY c.
Proof.
  intros Hc. eapply Forall_impl; [exact Hc|].
  intros p Hp. cbn beta in Hp |- *.
  destruct (y p); [exact I | destruct Hp..].
Qed.

Lemma yReal_between (lo hi : R) (c : list (Point num)) (k : nat) :
  yBetween lo hi c -> (k < length c)%nat -> lo <= yReal c k <= hi.
Proof.
  intros Hc Hk. unfold yReal, yAt.
  destruct (lookup_lt_is_Some_2 c k Hk) as [p Hp]. rewrite Hp. cbn.
  unfold yBetween in Hc. rewrite Forall_lookup in Hc. specialize (Hc _ _ Hp).
  destruct (y p); cbn in Hc; tauto.
Qed.

(** A shortest warping path: diagonal steps first, then straight on. *)
Lemma warping_shortest (i j : nat) :
  exists w, warping (S i) (S j) w /\ length w = S (Nat.max i j).
Proof.
  revert j. induction i as [|i IH]; intros j.
  - induction j as [|j (w & Hw & Hlen)].
    + exists [(1, 1)%nat]. split; [constructor | reflexivity].
    + exists ((1, S (S j))%nat :: w). split; [constructor; exact Hw|].
      cbn [length]. rewrite Hlen. lia.
  - destruct j as [|j].
    + destruct (IH 0%nat) as (w & Hw & Hlen).
      exists ((S (S i), 1)%nat :: w). split; [constructor; exact Hw|].
      cbn [length]. rewrite Hlen. lia.
    + destruct (IH j) as (w & Hw & Hlen).
      exists ((S (S i), S (S j))%nat :: w). split; [constructor; exact Hw|].
      cbn [length]. rewrite Hlen. lia.
Qed.

Lemma pathCost_bounded (lo hi : R) (a b : list (Point num))
    (w : list (nat * nat)) :
  yBetween lo hi a -> yBetween lo hi b ->
  Forall (fun ij => (1 <= fst ij <= length a)%nat
                    /\ (1 <= snd ij <= length b)%nat) w ->
  pathCost a b w <= INR (length w) * (hi - lo).
Proof.
  intros Ha Hb. induction 1 as [|ij w [Hi Hj] _ IH].
  - cbn. lra.
  - cbn [pathCost foldr]. fold (pathCost a b w).
    change (length (ij :: w)) with (S (length w)). rewrite S_INR.
    pose proof (yReal_between lo hi a (fst ij - 1) Ha ltac:(lia)).
    pose proof (yReal_between lo hi b (snd ij - 1) Hb ltac:(lia)).
    assert (Rabs (yReal a (fst ij - 1) - yReal b (snd ij - 1)) <= hi - lo).
    { unfold Rabs. destruct (Rcase_abs _); lra. }
    lra.
Qed.

(** Two curves whose values stay in an interval are at a distance of at
    most the longer length times the width of the interval. *)
Theorem dtw_bounded (lo hi : R) (a b : list (Point num)) :
  yBetween lo hi a -> yBetween lo hi b -> a <> [] -> b <> [] ->
  exists s,
    calculateDTWSimilarity a b = Fin s
    /\ 0 <= s <= INR (Nat.max (length a) (length b)) * (hi - lo).
Proof.
  intros Ha Hb Hna Hnb.
  destruct (dtw_least_warping_cost a b (yBetween_finiteY _ _ _ Ha)
              (yBetween_finiteY _ _ _ Hb) Hna Hnb)
    as (s & Heq & (w0 & Hw0 & Hs) & Hleast).
  exists s. split; [exact Heq|]. split.
  - rewrite <- Hs. apply pathCost_nonneg.
  - destruct a as [|p a]; [congruence|]. destruct b as [|q b]; [congruence|].
    cbn [length] in *.
    destruct (warping_shortest (length a) (length b)) as (w & Hw & Hlen).
    apply Rle_trans with (pathCost (p :: a) (q :: b) w); [apply Hleast, Hw|].
    replace (Nat.max (S (length a)) (S (length b))) with (length w)
      by (rewrite Hlen; lia).
    apply pathCost_bounded; try assumption.
    apply (warping_cells _ _ _ Hw).
Qed.

(** ** What the table does not read *)

Section AnyNumber.

Context {N : Type} `{!JS.Number N}.

Lemma yAt_fmap (c : list (Point N)) (k : nat) :
  yAt c k = default JS.nan ((y <$> c) !! k).
Proof. unfold yAt. rewrite list_lookup_fmap. destruct (c !! k); reflexivity. Qed.

Lemma foldl_pointwise {A B : Type} (f g : A -> B -> A) (l : list B) :
  (forall s k, f s k = g s k) -> forall s, foldl f s l = foldl g s l.
Proof.
  intros Hfg. induction l as [|k l IH]; intros s; [reflexivity|].
  cbn [foldl]. rewrite Hfg. apply IH.
Qed.

(** Only the [y] coordinates of the two curves are read. *)
Lemma dtwTable_reads_y (a a' b b' : list (Point N)) :
  y <$> a = y <$> a' -> y <$> b = y <$> b' ->
  dtwTable a b = dtwTable a' b'.
Proof.
  intros Ha Hb.
  assert (Hla : length a = length a')
    by (rewrite <- (length_fmap y a), Ha; apply length_fmap).
  assert (Hlb : length b = length b')
    by (rewrite <- (length_fmap y b), Hb; apply length_fmap).
  unfold dtwTable. rewrite Hla, Hlb. apply foldl_pointwise.
  intros dtw i. unfold dtwRow. rewrite Hlb. apply foldl_pointwise.
  intros dtw' j. unfold dtwCell. rewrite !yAt_fmap, Ha, Hb. reflexivity.
Qed.

End AnyNumber.

(** The X coordinates have no part in the distance, on any numbers. *)
Theorem dtw_ignores_x {N : Type} `{!JS.Number N} (a a' b b' : list (Point N)) :
  y <$> a = y <$> a' -> y <$> b = y <$> b' ->
  calculateDTWSimilarity a b = calculateDTWSimilarity a' b'.
Proof.
  intros Ha Hb. unfold calculateDTWSimilarity.
  rewrite (dtwTable_reads_y a a' b b' Ha Hb).
  rewrite <- (length_fmap y a), <- (length_fmap y b), Ha, Hb, !length_fmap.
  reflexivity.
Qed.

(** ** An empty curve *)

Lemma dtwTable_empty_l (b : list (Point num)) :
  dtwTable [] b = dtwInit 0 (length b).
Proof. reflexivity. Qed.

Lemma dtwTable_empty_r (a : list (Point num)) :
  dtwTable a [] = dtwInit (length a) 0.
Proof.
  unfold dtwTable. cbn [length].
  assert (H : forall (l : list nat) (dtw : Table),
             foldl (dtwRow a []) dtw l = dtw).
  { induction l as [|i l IH]; intros dtw; [reflexivity | apply IH]. }
  apply H.
Qed.

(** An empty curve is at distance [Infinity] from every curve that is not
    empty, and at distance [0] from the empty curve; no coordinate is
    read. *)
Theorem dtw_empty_curve (c : list (Point num)) :
  calculateDTWSimilarity [] [] = Fin 0
  /\ (c <> [] ->
      calculateDTWSimilarity [] c = PInf /\ calculateDTWSimilarity c [] = PInf).
Proof.
  split; [reflexivity|]. intros Hc. unfold calculateDTWSimilarity.
  rewrite dtwTable_empty_l, dtwTable_empty_r. cbn [length].
  assert (length c <> 0%nat) by (destruct c; [congruence | discriminate]).
  split; apply cell_dtwInit_border; lia.
Qed.


(** X5: the DTW distance of two curves that are not empty, with real
    [y], is the least total cost of a warping path from [(1, 1)] to
    [(n, m)]: some path has this cost and no path has less. *)
Theorem X5_dtw_least_warping_cost (a b : list (Point num)) :
  finiteY a -> finiteY b -> a <> [] -> b <> [] ->
  exists s,
    calculateDTWSimilarity a b = Fin s
    /\ (exists w, warping (length a) (length b) w /\ pathCost a b w = s)
    /\ (forall w, warping (length a) (length b) w -> s <= pathCost a b w).
Proof. exact (dtw_least_warping_cost a b). Qed.

(** X6: the DTW distance is symmetric. *)
Theorem X6_dtw_symmetric (a b : list (Point num)) :
  finiteY a -> finiteY b ->
  calculateDTWSimilarity a b = calculateDTWSimilarity b a.
Proof. exact (dtw_symmetric a b). Qed.

(** X7: the first points of the two curves are matched with each other,
    and so are the last points: the DTW distance is at least the
    difference of the first values and at least that of the last. *)
Theorem X7_dtw_at_least_endpoints (a b : list (Point num)) :
  finiteY a -> finiteY b -> a <> [] -> b <> [] ->
  exists s,
    calculateDTWSimilarity a b = Fin s
    /\ Rabs (yReal a 0 - yReal b 0) <= s
    /\ Rabs (yReal a (length a - 1) - yReal b (length b - 1)) <= s.
Proof. exact (dtw_at_least_endpoints a b). Qed.

(** X8: two curves whose values lie between [lo] and [hi] are at a DTW
    distance of at most [max(n, m) * (hi - lo)]. *)
Theorem X8_dtw_bounded (lo hi : R) (a b : list (Point num)) :
  yBetween lo hi a -> yBetween lo hi b -> a <> [] -> b <> [] ->
  exists s,
    calculateDTWSimilarity a b = Fin s
    /\ 0 <= s <= INR (Nat.max (length a) (length b)) * (hi - lo).
Proof. exact (dtw_bounded lo hi a b). Qed.

(** X9: the X coordinates have no part in the DTW distance, whatever the
    numbers are: two pairs of curves with the same [y] are at the same
    distance. *)
Theorem X9_dtw_ignores_x {N : Type} `{!JS.Number N}
    (a a' b b' : list (Point N)) :
  y <$> a = y <$> a' -> y <$> b = y <$> b' ->
  calculateDTWSimilarity a b = calculateDTWSimilarity a' b'.
Proof. exact (dtw_ignores_x a a' b b'). Qed.

(** X10: an empty curve is at distance [Infinity] from every curve that
    is not empty, whatever its points are, and at distance [0] from the
    empty curve. *)
Theorem X10_dtw_empty_curve (c : list (Point num)) :
  c <> [] ->
  calculateDTWSimilarity [] c = PInf
  /\ calculateDTWSimilarity c [] = PInf
  /\ calculateDTWSimilarity ([] : list (Point num)) [] = Fin 0.
Proof.
  intros Hc. destruct (dtw_empty_curve c) as [Hzero Hinf].
  destruct (Hinf Hc) as [Hl Hr]. auto.
Qed.

(** ** Normalisation does not depend on scale *)

Lemma lower_elem_of (l : list R) : l <> [] -> lower l ∈ l.
Proof.
  induction l as [|a l IH]; [congruence|]. intros _.
  destruct l as [|b l]; [apply list_elem_of_here|].
  cbn [lower]. unfold Rmin. destruct (Rle_dec a _).
  - apply list_elem_of_here.
  - apply list_elem_of_further, IH. discriminate.
Qed.

Lemma upper_elem_of (l : list R) : l <> [] -> upper l ∈ l.
Proof.
  induction l as [|a l IH]; [congruence|]. intros _.
  destruct l as [|b l]; [apply list_elem_of_here|].
  cbn [upper]. unfold Rmax. destruct (Rle_dec a _).
  - apply list_elem_of_further, IH. discriminate.
  - apply list_elem_of_here.
Qed.

Lemma lower_le_upper (l : list R) : l <> [] -> lower l <= upper l.
Proof. intros Hl. apply upper_ge, lower_elem_of, Hl. Qed.

Lemma scale_lower (lo hi : R) : scale lo hi lo = 0.
Proof. unfold scale, Rdiv. replace (lo - lo) with 0 by ring. apply Rmult_0_l. Qed.

Lemma scale_upper (lo hi : R) : hi <> lo -> scale lo hi hi = 1.
Proof.
  intros H. unfold scale. destruct (Req_dec_T (hi - lo) 0); [lra|].
  field. assumption.
Qed.

Lemma lower_affine (s d : R) (l : list R) :
  0 < s -> l <> [] ->
  lower ((fun v => s * v + d) <$> l) = s * lower l + d.
Proof.
  intros Hs. induction l as [|a l IH]; [congruence|]. intros _.
  destruct l as [|b l]; [reflexivity|].
  change (lower ((fun v => s * v + d) <$> a :: b :: l))
    with (Rmin (s * a + d) (lower ((fun v => s * v + d) <$> b :: l))).
  rewrite IH by discriminate.
  change (lower (a :: b :: l)) with (Rmin a (lower (b :: l))).
  unfold Rmin. destruct (Rle_dec a _), (Rle_dec (s * a + d) _);
    try reflexivity; nra.
Qed.

Lemma upper_affine (s d : R) (l : list R) :
  0 < s -> l <> [] ->
  upper ((fun v => s * v + d) <$> l) = s * upper l + d.
Proof.
  intros Hs. induction l as [|a l IH]; [congruence|]. intros _.
  destruct l as [|b l]; [reflexivity|].
  change (upper ((fun v => s * v + d) <$> a :: b :: l))
    with (Rmax (s * a + d) (upper ((fun v => s * v + d) <$> b :: l))).
  rewrite IH by discriminate.
  change (upper (a :: b :: l)) with (Rmax a (upper (b :: l))).
  unfold Rmax. destruct (Rle_dec a _), (Rle_dec (s * a + d) _);
    try reflexivity; nra.
Qed.

Lemma scale_affine (s d lo hi v : R) :
  0 < s -> lo <= v <= hi ->
  scale (s * lo + d) (s * hi + d) (s * v + d) = scale lo hi v.
Proof.
  intros Hs Hv. unfold scale.
  destruct (Req_dec_T (s * hi + d - (s * lo + d)) 0) as [Hz|Hnz],
           (Req_dec_T (hi - lo) 0) as [Hz'|Hnz'].
  - replace v with lo by lra. field.
  - exfalso. apply Hnz'. nra.
  - exfalso. apply Hnz. rewrite (ltac:(lra) : hi = lo). ring.
  - field. split; [lra|]. intros H. apply Hnz'. nra.
Qed.

(** The normalised stroke does not depend on where the stroke is drawn
    nor on its size. *)
Lemma normalizedDrawing_transformed (sx dx sy dy : R) (stroke : list (R * R)) :
  0 < sx -> 0 < sy ->
  normalizedDrawing (points (transformed sx dx sy dy stroke))
  = normalizedDrawing (points stroke).
Proof.
  intros Hsx Hsy. destruct (decide (stroke = [])) as [->|Hne]; [reflexivity|].
  assert (Hne' : transformed sx dx sy dy stroke <> []).
  { unfold transformed. destruct stroke; [congruence | discriminate]. }
  rewrite !normalizedDrawing_real by assumption. f_equal.
  unfold transformed. rewrite <- !list_fmap_compose.
  assert (Hfst : fst ∘ (fun ab : R * R => (sx * fst ab + dx, sy * snd ab + dy))
                 = (fun v => sx * v + dx) ∘ fst) by reflexivity.
  assert (Hsnd : snd ∘ (fun ab : R * R => (sx * fst ab + dx, sy * snd ab + dy))
                 = (fun v => sy * v + dy) ∘ snd) by reflexivity.
  rewrite Hfst, Hsnd, !list_fmap_compose.
  rewrite !lower_affine, !upper_affine
    by (assumption || (destruct stroke; [congruence | discriminate])).
  rewrite <- list_fmap_compose.
  apply list_fmap_ext. intros i [a b] Hab. unfold compose. cbn [fst snd].
  apply list_elem_of_lookup_2 in Hab.
  rewrite !scale_affine;
    [reflexivity | assumption | apply (snd_bounds stroke (a, b) Hab)
    | assumption | apply (fst_bounds stroke (a, b) Hab)].
Qed.

(** On an axis along which the stroke is not flat, the normalised stroke
    reaches [0] and [1]. *)
Lemma normalizedDrawing_reaches_bounds (stroke : list (R * R)) :
  stroke <> [] ->
  (upper (fst <$> stroke) <> lower (fst <$> stroke) ->
   (exists p, p ∈ normalizedDrawing (points stroke) /\ x p = Fin 0)
   /\ (exists p, p ∈ normalizedDrawing (points stroke) /\ x p = Fin 1))
  /\ (upper (snd <$> stroke) <> lower (snd <$> stroke) ->
      (exists p, p ∈ normalizedDrawing (points stroke) /\ y p = Fin 0)
      /\ (exists p, p ∈ normalizedDrawing (points stroke) /\ y p = Fin 1)).
Proof.
  intros Hne. rewrite normalizedDrawing_real by assumption.
  assert (Hx : fst <$> stroke <> [])
    by (destruct stroke; [congruence | discriminate]).
  assert (Hy : snd <$> stroke <> [])
    by (destruct stroke; [congruence | discriminate]).
  set (f := fun ab : R * R =>
              (scale (lower (fst <$> stroke)) (upper (fst <$> stroke)) (fst ab),
               1 - scale (lower (snd <$> stroke)) (upper (snd <$> stroke))
                     (snd ab))).
  assert (Hin : forall ab, ab ∈ stroke -> pointOf (f ab) ∈ points (f <$> stroke)).
  { intros ab Hab. unfold points. do 2 apply list_elem_of_fmap_2. exact Hab. }
  split; intros Hflat; split.
  - destruct (proj1 (list_elem_of_fmap _ _ _) (lower_elem_of _ Hx))
      as (ab & Hlo & Hab).
    exists (pointOf (f ab)). split; [apply Hin, Hab|].
    cbn. rewrite <- Hlo, scale_lower. reflexivity.
  - destruct (proj1 (list_elem_of_fmap _ _ _) (upper_elem_of _ Hx))
      as (ab & Hhi & Hab).
    exists (pointOf (f ab)). split; [apply Hin, Hab|].
    cbn. rewrite <- Hhi, scale_upper by assumption. reflexivity.
  - destruct (proj1 (list_elem_of_fmap _ _ _) (upper_elem_of _ Hy))
      as (ab & Hhi & Hab).
    exists (pointOf (f ab)). split; [apply Hin, Hab|].
    cbn. rewrite <- Hhi, scale_upper by assumption. f_equal. lra.
  - destruct (proj1 (list_elem_of_fmap _ _ _) (lower_elem_of _ Hy))
      as (ab & Hlo & Hab).
    exists (pointOf (f ab)). split; [apply Hin, Hab|].
    cbn. rewrite <- Hlo, scale_lower. f_equal. lra.
Qed.

(** The normalised series does not depend on the unit nor on the origin
    of the values, nor on the names and the total of the series. *)
Lemma normalizedSeries_rescaled (s d : R) (product product' category
    category' : string) (values : list (string * R)) (total total' : num) :
  0 < s ->
  normalizedSeries (seriesOf product' category' (rescaled s d values) total')
  = normalizedSeries (seriesOf product category values total).
Proof.
  intros Hs. destruct (decide (values = [])) as [->|Hne]; [reflexivity|].
  unfold normalizedSeries. rewrite !sales_seriesOf.
  assert (Hsnd : snd <$> rescaled s d values
                 = (fun v => s * v + d) <$> (snd <$> values)).
  { unfold rescaled. rewrite <- !list_fmap_compose. reflexivity. }
  assert (Hv : snd <$> values <> [])
    by (destruct values; [congruence | discriminate]).
  rewrite Hsnd.
  rewrite !min_Fin, !max_Fin
    by (assumption || (destruct values; [congruence | discriminate])).
  rewrite lower_affine, upper_affine by assumption.
  cbn [seriesOf data]. unfold rescaled.
  rewrite !length_fmap, <- list_fmap_compose, !imap_fmap.
  apply imap_ext. intros i [m v] Hmv. unfold compose. cbn [sales fst snd].
  f_equal. autorewrite with num.
  rewrite !normalize_coordinate, scale_affine; [reflexivity | assumption|].
  assert (v ∈ snd <$> values)
    by (apply (list_elem_of_fmap_2 snd _ (m, v)),
          (list_elem_of_lookup_2 _ _ _ Hmv)).
  split; [apply lower_le | apply upper_ge]; assumption.
Qed.

(** A series of at least two periods becomes a curve from [x = 0] to
    [x = 1], evenly spaced, with [y] in the unit interval. *)
Lemma normalizedSeries_curve (product category : string)
    (values : list (string * R)) (total : num) :
  (2 <= length values)%nat ->
  let curve := normalizedSeries (seriesOf product category values total) in
  length curve = length values
  /\ (forall i p, curve !! i = Some p ->
        x p = Fin (INR i / (INR (length values) - 1)) /\ between 0 1 (y p))
  /\ normalizedCurve curve.
Proof.
  intros Hlen curve. unfold curve.
  rewrite normalizedSeries_real by assumption.
  assert (H2 : INR 2 <= INR (length values)) by (apply le_INR; lia).
  cbn [INR] in H2.
  assert (Hcell : forall i p,
            points (imap (fun i mv =>
                      (INR i / (INR (length values) - 1),
                       scale (lower (snd <$> values)) (upper (snd <$> values))
                         (snd mv))) values) !! i = Some p ->
            x p = Fin (INR i / (INR (length values) - 1))
            /\ between 0 1 (y p) /\ (i < length values)%nat).
  { intros i p Hp. unfold points in Hp. rewrite list_lookup_fmap in Hp.
    rewrite list_lookup_imap in Hp.
    destruct (values !! i) as [mv|] eqn:Hmv; [|discriminate].
    cbn in Hp. injection Hp as <-. split; [reflexivity|]. split.
    - cbn. apply scale_unit.
      assert (snd mv ∈ snd <$> values)
        by (apply list_elem_of_fmap_2, (list_elem_of_lookup_2 _ _ _ Hmv)).
      split; [apply lower_le | apply upper_ge]; assumption.
    - apply (lookup_lt_Some _ _ _ Hmv). }
  split; [|split; [|split]].
  - unfold points. rewrite length_fmap, length_imap. reflexivity.
  - intros i p Hp. destruct (Hcell i p Hp) as (Hx & Hy & _). auto.
  - apply Forall_lookup. intros i p Hp.
    destruct (Hcell i p Hp) as (Hx & Hy & Hi). split; [|exact Hy].
    rewrite Hx. cbn.
    assert (Hi' : INR i <= INR (length values) - 1).
    { assert (INR (S i) <= INR (length values)) by (apply le_INR; lia).
      rewrite S_INR in *. lra. }
    pose proof (pos_INR i). split.
    + apply Rmult_le_pos; [lra|]. left. apply Rinv_0_lt_compat. lra.
    + apply (Rmult_le_reg_r (INR (length values) - 1)); [lra|].
      unfold Rdiv. rewrite Rmult_assoc, Rinv_l by lra. lra.
  - intros i j p q Hij Hp Hq.
    destruct (Hcell i p Hp) as (-> & _). destruct (Hcell j q Hq) as (-> & _).
    cbn. unfold Rdiv. apply Rmult_le_compat_r.
    + left. apply Rinv_0_lt_compat. lra.
    + apply le_INR, Hij.
Qed.


(** X11: the normalised stroke does not depend on where the stroke is
    drawn nor on its size: moving the stroke and scaling it by positive
    factors, one per axis, leaves it unchanged. *)
Theorem X11_normalized_stroke_invariant (sx dx sy dy : R)
    (stroke : list (R * R)) :
  0 < sx -> 0 < sy ->
  normalizedDrawing (points (transformed sx dx sy dy stroke))
  = normalizedDrawing (points stroke).
Proof. exact (normalizedDrawing_transformed sx dx sy dy stroke). Qed.

(** X12: on an axis along which the stroke is not flat, the normalised
    stroke has a point at [0] and a point at [1]. *)
Theorem X12_normalized_stroke_reaches_bounds (stroke : list (R * R)) :
  stroke <> [] ->
  (upper (fst <$> stroke) <> lower (fst <$> stroke) ->
   (exists p, p ∈ normalizedDrawing (points stroke) /\ x p = Fin 0)
   /\ (exists p, p ∈ normalizedDrawing (points stroke) /\ x p = Fin 1))
  /\ (upper (snd <$> stroke) <> lower (snd <$> stroke) ->
      (exists p, p ∈ normalizedDrawing (points stroke) /\ y p = Fin 0)
      /\ (exists p, p ∈ normalizedDrawing (points stroke) /\ y p = Fin 1)).
Proof. exact (normalizedDrawing_reaches_bounds stroke). Qed.

(** X13: the normalised series does not depend on the unit nor on the
    origin of the sales, nor on the names and the total of the series. *)
Theorem X13_normalized_series_invariant (s d : R)
    (product product' category category' : string)
    (values : list (string * R)) (total total' : num) :
  0 < s ->
  normalizedSeries (seriesOf product' category' (rescaled s d values) total')
  = normalizedSeries (seriesOf product category values total).
Proof.
  exact (normalizedSeries_rescaled s d product product' category category'
           values total total').
Qed.

(** X14: a series of at least two periods of real sales is normalised to
    a curve with one point per period, at [x = i / (L - 1)], with [y] in
    the unit interval: a NormalizedCurve. *)
Theorem X14_normalized_series_curve (product category : string)
    (values : list (string * R)) (total : num) :
  (2 <= length values)%nat ->
  let curve := normalizedSeries (seriesOf product category values total) in
  length curve = length values
  /\ (forall i p, curve !! i = Some p ->
        x p = Fin (INR i / (INR (length values) - 1)) /\ between 0 1 (y p))
  /\ normalizedCurve curve.
Proof. exact (normalizedSeries_curve product category values total). Qed.

(** ** The curves the search compares *)

Lemma yBetween_unitSquare (out : list (R * R)) :
  Forall unitSquare out -> yBetween 0 1 (points out).
Proof.
  intros H. unfold yBetween, points. apply Forall_fmap.
  eapply Forall_impl; [exact H|]. intros [a b] [_ Hb]. exact Hb.
Qed.

(** A curve of the unit square resampled to [n] points: its values stay
    in the unit interval and it has between 1 and [n] points. *)
Lemma resampleCurve_unitSquare (rs : list (R * R)) (n : nat) :
  Forall unitSquare rs -> rs <> [] -> (2 <= n)%nat ->
  yBetween 0 1 (resampleCurve (points rs) n)
  /\ resampleCurve (points rs) n <> []
  /\ (length (resampleCurve (points rs) n) <= n)%nat.
Proof.
  intros Hrs Hne Hn. split; [|split].
  - destruct (resampleCurve_convex unitSquare unitSquare_convex rs n Hrs)
      as (out & -> & Hout).
    apply yBetween_unitSquare, Hout.
  - destruct (resampleCurve_points rs n) as (out & -> & Hout).
    apply points_nonempty, Hout, Hne.
  - destruct rs as [|p0 [|p1 rest]]; [congruence | cbn; lia|].
    apply resampleCurve_length, Hn.
Qed.

Lemma sampledDrawing_unitSquare (stroke : list (R * R)) :
  stroke <> [] ->
  let sampledDrawing :=
    resampleCurve (normalizedDrawing (points stroke)) numSamplePoints in
  yBetween 0 1 sampledDrawing /\ sampledDrawing <> []
  /\ (length sampledDrawing <= 20)%nat.
Proof.
  intros Hne. cbn zeta. rewrite normalizedDrawing_real by assumption.
  apply resampleCurve_unitSquare.
  - apply Forall_fmap, Forall_forall. intros ab Hab. split; cbn [fst snd].
    + apply scale_unit, fst_bounds, Hab.
    + pose proof (scale_unit _ _ _ (snd_bounds stroke ab Hab)). lra.
  - destruct stroke; [congruence | discriminate].
  - unfold numSamplePoints. lia.
Qed.

Lemma sampledSeries_unitSquare (series : Series num) :
  realSeries series -> data series <> [] ->
  let sampledSeries :=
    resampleCurve (normalizedSeries series) numSamplePoints in
  yBetween 0 1 sampledSeries /\ sampledSeries <> []
  /\ (length sampledSeries <= 20)%nat.
Proof.
  intros [values ->]%realSeries_values Hdata. cbn zeta.
  destruct values as [|[m v] [|mv values]].
  - contradiction Hdata. reflexivity.
  - rewrite normalizedSeries_single_period. cbn [resampleCurve length].
    split; [|split; [discriminate | lia]].
    repeat constructor; cbn; lra.
  - rewrite normalizedSeries_real by (cbn; lia).
    apply resampleCurve_unitSquare; [|discriminate | unfold numSamplePoints; lia].
    set (values' := (m, v) :: mv :: values).
    assert (H2 : INR 2 <= INR (length values'))
      by (apply le_INR; cbn; lia).
    cbn [INR] in H2. clearbody values'.
    apply Forall_lookup. intros i ab Hab. rewrite list_lookup_imap in Hab.
    destruct (values' !! i) as [mw|] eqn:Hmw; [|discriminate].
    cbn in Hab. injection Hab as <-. split; cbn [fst snd].
    + assert (Hi : INR (S i) <= INR (length values')).
      { apply le_INR. apply lookup_lt_Some in Hmw. lia. }
      rewrite S_INR in Hi. pose proof (pos_INR i). split.
      * apply Rmult_le_pos; [lra|]. left. apply Rinv_0_lt_compat. lra.
      * apply (Rmult_le_reg_r (INR (length values') - 1)); [lra|].
        unfold Rdiv. rewrite Rmult_assoc, Rinv_l by lra. lra.
    + apply scale_unit.
      assert (snd mw ∈ snd <$> values')
        by (apply list_elem_of_fmap_2, (list_elem_of_lookup_2 _ _ _ Hmw)).
      split; [apply lower_le | apply upper_ge]; assumption.
Qed.

(** Every similarity the search computes lies between [0] and [20]: the
    compared curves have at most [20] points with values in the unit
    interval. *)
Lemma results_bounded (stroke : list (R * R))
    (timeSeriesData : list (Series num)) (selectedCategory : string) :
  stroke <> [] ->
  Forall (fun series => realSeries series /\ data series <> []) timeSeriesData ->
  Forall (fun r => exists v, similarity r = Fin v /\ 0 <= v <= 20)
    (results (points stroke) timeSeriesData selectedCategory).
Proof.
  intros Hstroke Hreal. unfold results. apply Forall_fmap, Forall_forall.
  intros series Hin. cbn [scoreSeries similarity].
  assert (Hseries : realSeries series /\ data series <> []).
  { rewrite Forall_forall in Hreal. apply Hreal.
    apply list_elem_of_In in Hin. apply filter_In in Hin as [Hin _].
    apply list_elem_of_In, Hin. }
  destruct Hseries as [Hr Hd].
  destruct (sampledDrawing_unitSquare stroke Hstroke) as (Hya & Hna & Hla).
  destruct (sampledSeries_unitSquare series Hr Hd) as (Hyb & Hnb & Hlb).
  destruct (dtw_bounded 0 1 _ _ Hya Hyb Hna Hnb) as (s & Heq & Hs0 & Hs).
  exists s. split; [exact Heq|]. split; [exact Hs0|].
  assert (Hmax : INR (Nat.max
                        (length (resampleCurve (normalizedDrawing (points stroke))
                                   numSamplePoints))
                        (length (resampleCurve (normalizedSeries series)
                                   numSamplePoints))) <= INR 20)
    by (apply le_INR; lia).
  replace (INR 20) with 20 in Hmax by (cbn [INR]; lra). lra.
Qed.

(** ** The results kept *)

Lemma filter_sublist {A : Type} (f : A -> bool) (l : list A) :
  List.filter f l `sublist_of` l.
Proof.
  induction l as [|a l IH]; cbn [List.filter]; [constructor|].
  destruct (f a); [apply sublist_skip | apply sublist_cons]; exact IH.
Qed.

(** The ten results kept are the closest ones: a result left out is at
    least as far from the stroke as every result kept. *)
Lemma sortedResults_closest (stroke : list (R * R))
    (timeSeriesData : list (Series num)) (selectedCategory : string)
    (kept left : MatchResult num) :
  Forall realSeries timeSeriesData ->
  kept ∈ sortedResults (points stroke) timeSeriesData selectedCategory ->
  left ∈ results (points stroke) timeSeriesData selectedCategory ->
  left ∉ sortedResults (points stroke) timeSeriesData selectedCategory ->
  numLe (similarity kept) (similarity left).
Proof.
  intros Hreal Hkept Hleft Hout. unfold sortedResults in *.
  set (found := results (points stroke) timeSeriesData selectedCategory) in *.
  assert (Hsorted : ascending (sort bySimilarity found))
    by apply sort_ascending, results_distance, Hreal.
  rewrite <- (take_drop 10 (sort bySimilarity found)) in Hsorted.
  apply (StronglySorted_app_1_elem_of _ _ _ _ _ Hsorted Hkept).
  rewrite <- (sort_Permutation bySimilarity found) in Hleft.
  rewrite <- (take_drop 10 (sort bySimilarity found)) in Hleft.
  apply elem_of_app in Hleft as [Hin|Hin]; [contradiction | exact Hin].
Qed.

(** Every result kept is the score of a series of the corpus, of the
    selected category; a corpus of distinct products gives results of
    distinct products. *)
Lemma sortedResults_from_corpus (drawingPoints : list (Point num))
    (timeSeriesData : list (Series num)) (selectedCategory : string) :
  let sampledDrawing :=
    resampleCurve (normalizedDrawing drawingPoints) numSamplePoints in
  let top := sortedResults drawingPoints timeSeriesData selectedCategory in
  Forall (fun r => matched r ∈ timeSeriesData
                   /\ inCategory selectedCategory (matched r) = true
                   /\ r = scoreSeries sampledDrawing (matched r)) top
  /\ (NoDup (product <$> timeSeriesData) ->
      NoDup (product ∘ matched <$> top)).
Proof.
  cbn zeta. unfold sortedResults. split.
  - apply Forall_take, sort_Forall. unfold results.
    apply Forall_fmap, Forall_forall. intros series Hin. cbn [matched scoreSeries].
    apply list_elem_of_In, filter_In in Hin as [Hin Hcat].
    split; [apply list_elem_of_In, Hin | split; [exact Hcat | reflexivity]].
  - intros Hnodup.
    apply (sublist_NoDup _ (product ∘ matched
             <$> sort bySimilarity
                   (results drawingPoints timeSeriesData selectedCategory)));
      [|apply fmap_sublist, sublist_take].
    rewrite sort_Permutation, list_fmap_compose, results_matched.
    eapply sublist_NoDup; [exact Hnodup|].
    apply fmap_sublist, filter_sublist.
Qed.

(** ** Match quality *)

(** The quality falls as the distance grows: it is [100] at distance [0]
    only, and [0] from distance [5] on. *)
Lemma matchQuality_decreasing (d e : MatchResult num) (v w : R) :
  similarity d = Fin v -> similarity e = Fin w -> 0 <= v <= w ->
  numLe (matchQuality e) (matchQuality d)
  /\ (matchQuality d = Fin 100 <-> v = 0)
  /\ (matchQuality d = Fin 0 <-> 5 <= v).
Proof.
  intros Hd He Hvw.
  rewrite (matchQuality_Fin d v Hd), (matchQuality_Fin e w He). cbn [numLe].
  unfold Rmax.
  destruct (Rle_dec 0 (100 - v * 20)), (Rle_dec 0 (100 - w * 20));
    repeat split; try lra;
    try (intros [= H]; lra); try (intros H; f_equal; lra).
Qed.

(** ** The event handlers *)



(** Ending a stroke of at least five points over a corpus that is not
    empty replaces the results by those of the search for this stroke. *)
Lemma endDrawing_searches (timeSeriesData : list (Series num)) (st : State num) :
  (5 <= length (drawingPoints st))%nat -> timeSeriesData <> [] ->
  endDrawing timeSeriesData st
  = mkState (drawingPoints st) false
      (sortedResults (drawingPoints st) timeSeriesData (selectedCategory st))
      false (selectedCategory st).
Proof.
  intros Hlen Htsd. unfold endDrawing, searchForMatchingPatterns.
  cbn [drawingPoints isDrawing selectedCategory].
  rewrite bool_decide_eq_true_2 by assumption.
  rewrite !bool_decide_eq_false_2; [reflexivity | | lia].
  intros H. apply Htsd. destruct timeSeriesData; [reflexivity | discriminate].
Qed.

(** Without a stroke or without a corpus the search changes nothing: the
    results of an earlier search stay. *)
Lemma searchForMatchingPatterns_nothing (timeSeriesData : list (Series num))
    (st : State num) :
  drawingPoints st = [] \/ timeSeriesData = [] ->
  searchForMatchingPatterns timeSeriesData st = st.
Proof.
  intros [H|H]; unfold searchForMatchingPatterns; rewrite H; cbn [length].
  - reflexivity.
  - rewrite orb_true_r. reflexivity.
Qed.

(** After [clearDrawing] there is no stroke and no result, and a search
    finds nothing to do. *)
Lemma clearDrawing_resets (timeSeriesData : list (Series num)) (st : State num) :
  drawingPoints (clearDrawing st) = []
  /\ patternResults (clearDrawing st) = []
  /\ searchForMatchingPatterns timeSeriesData (clearDrawing st)
     = clearDrawing st
  /\ patternResults (endDrawing timeSeriesData (clearDrawing st)) = [].
Proof.
  repeat split.
Qed.


(** X15: with a stroke that is not empty and real series that are not
    empty, every result of the search has a distance between [0] and
    [20]: the curves compared have at most [20] points, with values in
    the unit interval. *)
Theorem X15_search_distances_bounded (stroke : list (R * R))
    (timeSeriesData : list (Series num)) (selectedCategory : string) :
  stroke <> [] ->
  Forall (fun series => realSeries series /\ data series <> []) timeSeriesData ->
  Forall (fun r => exists v, similarity r = Fin v /\ 0 <= v <= 20)
    (sortedResults (points stroke) timeSeriesData selectedCategory).
Proof.
  intros Hstroke Hreal. unfold sortedResults.
  apply Forall_take, sort_Forall, results_bounded; assumption.
Qed.

(** X16: the results kept are the closest ones: the sorted results are
    those of the search, reordered; the first ten are kept, and every
    result left out is at least as far from the stroke as every result
    kept. *)
Theorem X16_search_keeps_the_closest (stroke : list (R * R))
    (timeSeriesData : list (Series num)) (selectedCategory : string) :
  Forall realSeries timeSeriesData ->
  let found := results (points stroke) timeSeriesData selectedCategory in
  let sorted := sort bySimilarity found in
  sorted ≡ₚ found
  /\ sortedResults (points stroke) timeSeriesData selectedCategory
     = take 10 sorted
  /\ forall kept left : MatchResult num,
       kept ∈ take 10 sorted -> left ∈ drop 10 sorted ->
       numLe (similarity kept) (similarity left).
Proof.
  intros Hreal found sorted. split; [apply sort_Permutation|].
  split; [reflexivity|]. intros kept left Hkept Hleft.
  assert (Hsorted : ascending sorted)
    by apply sort_ascending, results_distance, Hreal.
  unfold ascending in Hsorted. rewrite <- (take_drop 10 sorted) in Hsorted.
  apply (StronglySorted_app_1_elem_of _ _ _ _ _ Hsorted Hkept Hleft).
Qed.

(** X17: the search keeps [min(10, k)] results, [k] being the number of
    series of the selected category; each is the score of a series of
    the corpus, of that category; a corpus of distinct products gives
    results of distinct products. *)
Theorem X17_search_results_from_corpus (drawingPoints : list (Point num))
    (timeSeriesData : list (Series num)) (selectedCategory : string) :
  let sampledDrawing :=
    resampleCurve (normalizedDrawing drawingPoints) numSamplePoints in
  let top := sortedResults drawingPoints timeSeriesData selectedCategory in
  length top
  = Nat.min 10
      (length (List.filter (inCategory selectedCategory) timeSeriesData))
  /\ Forall (fun r => matched r ∈ timeSeriesData
                      /\ inCategory selectedCategory (matched r) = true
                      /\ r = scoreSeries sampledDrawing (matched r)) top
  /\ (NoDup (product <$> timeSeriesData) ->
      NoDup (product ∘ matched <$> top)).
Proof.
  cbn zeta. split; [apply sortedResults_length|].
  exact (sortedResults_from_corpus drawingPoints timeSeriesData
           selectedCategory).
Qed.

(** X18: the quality shown falls as the distance grows; it is [100] at
    distance [0] only, and [0] from distance [5] on. *)
Theorem X18_match_quality_decreasing (d e : MatchResult num) (v w : R) :
  similarity d = Fin v -> similarity e = Fin w -> 0 <= v <= w ->
  numLe (matchQuality e) (matchQuality d)
  /\ (matchQuality d = Fin 100 <-> v = 0)
  /\ (matchQuality d = Fin 0 <-> 5 <= v).
Proof. exact (matchQuality_decreasing d e v w). Qed.


(** X20: ending a stroke of at least five points over a corpus that is
    not empty replaces the results by those of the search for this
    stroke, and clears [isDrawing] and [searching]. *)
Theorem X20_end_of_stroke_searches (timeSeriesData : list (Series num))
    (st : State num) :
  (5 <= length (drawingPoints st))%nat -> timeSeriesData <> [] ->
  endDrawing timeSeriesData st
  = mkState (drawingPoints st) false
      (sortedResults (drawingPoints st) timeSeriesData (selectedCategory st))
      false (selectedCategory st).
Proof. exact (endDrawing_searches timeSeriesData st). Qed.

(** ** Objects *)

Section Objects.

Context {V : Type}.

Implicit Types (o : list (string * V)) (k : string) (v : V).

Lemma get_assign_eq o k v : Object.get (Object.assign o k v) k = Some v.
Proof.
  induction o as [|[k' w] o IH]; cbn [Object.assign Object.get].
  - rewrite bool_decide_eq_true_2 by reflexivity. reflexivity.
  - destruct (decide (k' = k)) as [->|Hne].
    + rewrite bool_decide_eq_true_2 by reflexivity. cbn [Object.get].
      rewrite bool_decide_eq_true_2 by reflexivity. reflexivity.
    + rewrite bool_decide_eq_false_2 by assumption. cbn [Object.get].
      rewrite bool_decide_eq_false_2 by assumption. exact IH.
Qed.

Lemma get_assign_ne o k k' v :
  k <> k' -> Object.get (Object.assign o k v) k' = Object.get o k'.
Proof.
  intros Hne. induction o as [|[k0 w] o IH]; cbn [Object.assign Object.get].
  - rewrite bool_decide_eq_false_2 by assumption. reflexivity.
  - destruct (decide (k0 = k)) as [->|Hne0].
    + rewrite bool_decide_eq_true_2 by reflexivity. cbn [Object.get].
      rewrite !bool_decide_eq_false_2 by assumption. reflexivity.
    + rewrite bool_decide_eq_false_2 by assumption. cbn [Object.get].
      rewrite IH. reflexivity.
Qed.

Lemma get_None o k : Object.get o k = None <-> k ∉ fst <$> o.
Proof.
  induction o as [|[k' w] o IH]; cbn [Object.get fmap list_fmap fst].
  - split; [intros _ H; inversion H | reflexivity].
  - rewrite not_elem_of_cons. destruct (decide (k' = k)) as [->|Hne].
    + rewrite bool_decide_eq_true_2 by reflexivity.
      split; [discriminate | intros [H _]; contradiction].
    + rewrite bool_decide_eq_false_2 by assumption. rewrite IH.
      split; [intros H; split; [congruence | exact H] | intros [_ H]; exact H].
Qed.

Lemma get_Some_elem_of o k v : Object.get o k = Some v -> (k, v) ∈ o.
Proof.
  induction o as [|[k' w] o IH]; cbn [Object.get]; [discriminate|].
  destruct (decide (k' = k)) as [->|Hne].
  - rewrite bool_decide_eq_true_2 by reflexivity. intros [= ->].
    apply list_elem_of_here.
  - rewrite bool_decide_eq_false_2 by assumption. intros H.
    apply list_elem_of_further, IH, H.
Qed.

Lemma elem_of_get o k v :
  NoDup (fst <$> o) -> (k, v) ∈ o -> Object.get o k = Some v.
Proof.
  induction o as [|[k' w] o IH]; cbn [Object.get fmap list_fmap fst].
  - intros _ H. inversion H.
  - rewrite NoDup_cons. intros [Hk' Hnodup] [[= -> ->]|Hin]%elem_of_cons.
    + rewrite bool_decide_eq_true_2 by reflexivity. reflexivity.
    + rewrite bool_decide_eq_false_2; [apply IH; assumption|].
      intros ->. apply Hk'. apply (list_elem_of_fmap_2 fst _ (k, v)), Hin.
Qed.

(** The keys after an assignment: the key is added at the end unless the
    object has it. *)
Lemma keys_assign o k v :
  fst <$> Object.assign o k v
  = match Object.get o k with
    | Some _ => fst <$> o
    | None => (fst <$> o) ++ [k]
    end.
Proof.
  induction o as [|[k' w] o IH]; cbn [Object.assign Object.get]; [reflexivity|].
  destruct (decide (k' = k)) as [->|Hne].
  - rewrite bool_decide_eq_true_2 by reflexivity. reflexivity.
  - rewrite bool_decide_eq_false_2 by assumption.
    cbn [fmap list_fmap fst]. cbn [fmap] in IH. rewrite IH.
    destruct (Object.get o k); reflexivity.
Qed.

Lemma NoDup_keys_assign o k v :
  NoDup (fst <$> o) -> NoDup (fst <$> Object.assign o k v).
Proof.
  intros Hnodup. rewrite keys_assign.
  destruct (Object.get o k) eqn:Hget; [exact Hnodup|].
  apply NoDup_app. split; [exact Hnodup|]. split; [|apply NoDup_singleton].
  intros k' Hk' ->%list_elem_of_singleton. apply get_None in Hget.
  contradiction.
Qed.

Lemma elem_of_assign o k v (kw : string * V) :
  kw ∈ Object.assign o k v -> kw = (k, v) \/ kw ∈ o.
Proof.
  induction o as [|[k' w] o IH]; cbn [Object.assign].
  - intros ->%list_elem_of_singleton. left. reflexivity.
  - destruct (bool_decide (k' = k)) eqn:Hk.
    + apply bool_decide_eq_true in Hk as ->.
      intros [->|Hin]%elem_of_cons; [left; reflexivity|].
      right. apply list_elem_of_further, Hin.
    + intros [->|Hin]%elem_of_cons; [right; apply list_elem_of_here|].
      destruct (IH Hin) as [->|Hin']; [left; reflexivity|].
      right. apply list_elem_of_further, Hin'.
Qed.

Lemma Forall_assign (P : string * V -> Prop) o k v :
  Forall P o -> P (k, v) -> Forall P (Object.assign o k v).
Proof.
  intros Ho Hkv. apply Forall_forall. intros kw Hin.
  destruct (elem_of_assign o k v kw Hin) as [->|Hin']; [exact Hkv|].
  rewrite Forall_forall in Ho. apply Ho, Hin'.
Qed.

Lemma assign_nonempty o k v : Object.assign o k v <> [].
Proof.
  destruct o as [|[k' w] o]; cbn [Object.assign]; [discriminate|].
  destruct (bool_decide (k' = k)); discriminate.
Qed.

Lemma insertByIndex_Permutation (kv : string * V) o :
  Object.insertByIndex kv o ≡ₚ kv :: o.
Proof.
  induction o as [|kw o IH]; cbn [Object.insertByIndex]; [reflexivity|].
  destruct (bool_decide _); [reflexivity|].
  rewrite IH. apply Permutation_swap.
Qed.

(** The enumeration holds every own property once. *)
Lemma ownProperties_Permutation o : Object.ownProperties o ≡ₚ o.
Proof.
  unfold Object.ownProperties.
  etrans; [|apply (filter_app_complement
                     (fun kv => is_Some (Object.arrayIndex (fst kv))) o)].
  apply Permutation_app; [|reflexivity].
  induction (filter _ o) as [|kv l IH]; cbn [foldr]; [reflexivity|].
  rewrite insertByIndex_Permutation, IH. reflexivity.
Qed.

Lemma keys_Permutation o : Object.keys o ≡ₚ fst <$> o.
Proof. unfold Object.keys. rewrite ownProperties_Permutation. reflexivity. Qed.

Lemma values_Permutation o : Object.values o ≡ₚ snd <$> o.
Proof. unfold Object.values. rewrite ownProperties_Permutation. reflexivity. Qed.

End Objects.

(** ** [new Set] *)

Lemma elem_of_unique (l : list string) (a : string) : a ∈ unique l <-> a ∈ l.
Proof.
  induction l as [|b l IH]; cbn [unique]; [reflexivity|].
  rewrite !elem_of_cons, list_elem_of_filter, IH.
  destruct (decide (a = b)); tauto.
Qed.

Lemma NoDup_unique (l : list string) : NoDup (unique l).
Proof.
  induction l as [|b l IH]; cbn [unique]; [constructor|].
  apply NoDup_cons. split; [|apply NoDup_filter, IH].
  rewrite list_elem_of_filter. intros [H _]. apply H. reflexivity.
Qed.


(** ** The product map *)

Section CorpusFacts.

Context {N : Type} `{!JS.Number N}.

Implicit Types (productMap : list (string * ProductMap.Entry N))
  (item : Item N) (items : list (Item N)).

Lemma soundEntry_credit (key : string) (entry : ProductMap.Entry N)
    (month : string) (value : N) :
  ProductMap.product entry = key ->
  NoDup (fst <$> ProductMap.months entry) ->
  key ∉ Object.prototype -> key <> ""%string ->
  soundEntry (key, credit entry month value).
Proof.
  intros Hkey Hnodup Hproto Hne. unfold soundEntry, credit.
  cbn [fst snd ProductMap.product ProductMap.months].
  split; [exact Hkey|]. split; [apply assign_nonempty|].
  split; [apply NoDup_keys_assign, Hnodup|]. split; assumption.
Qed.

Lemma addItem_sound productMap item productMap' :
  sound productMap -> addItem productMap item = Some productMap' ->
  sound productMap'.
Proof.
  intros [Hnodup Hentries]. unfold addItem.
  destruct (OrderDate item) as [date|]; [|intros [= <-]; split; assumption].
  destruct (bool_decide (ProductName item = ""%string)) eqn:Hname;
    [intros [= <-]; split; assumption|].
  apply bool_decide_eq_false in Hname.
  destruct (Object.get productMap (ProductName item)) as [entry|] eqn:Hget.
  - intros [= <-]. split; [apply NoDup_keys_assign, Hnodup|].
    apply Forall_assign; [exact Hentries|].
    apply get_Some_elem_of in Hget.
    rewrite Forall_forall in Hentries.
    destruct (Hentries _ Hget) as (Hkey & _ & Hmonths & Hproto & _).
    apply soundEntry_credit; assumption.
  - destruct (bool_decide (ProductName item ∈ Object.prototype)) eqn:Hproto;
      [discriminate|].
    apply bool_decide_eq_false in Hproto.
    intros [= <-]. split; [apply NoDup_keys_assign, Hnodup|].
    apply Forall_assign; [exact Hentries|].
    apply soundEntry_credit; try assumption; [reflexivity | constructor].
Qed.

Lemma forEach_thrown items :
  foldl (fun acc item => acc ≫= fun m => addItem m item)
    None items = None.
Proof. induction items as [|item items IH]; [reflexivity | exact IH]. Qed.

Lemma forEach_sound items :
  forall productMap productMap',
  sound productMap ->
  foldl (fun acc item => acc ≫= fun m => addItem m item)
    (Some productMap) items = Some productMap' ->
  sound productMap'.
Proof.
  induction items as [|item items IH]; intros productMap productMap' Hsound.
  - intros [= <-]. exact Hsound.
  - cbn [foldl mbind option_bind].
    destruct (addItem productMap item) as [productMap1|] eqn:Hadd.
    + apply IH. apply (addItem_sound _ _ _ Hsound Hadd).
    + rewrite forEach_thrown. discriminate.
Qed.

Lemma groupByProduct_sound items productMap :
  groupByProduct items = Some productMap -> sound productMap.
Proof.
  apply forEach_sound. split; constructor.
Qed.

(** The products of the series are the keys of the map. *)
Lemma products_of_map productMap (months : list string) :
  sound productMap ->
  product <$> (toSeries months <$> Object.values productMap)
  ≡ₚ fst <$> productMap.
Proof.
  intros [_ Hentries]. unfold Object.values.
  rewrite <- (ownProperties_Permutation productMap) at 2.
  rewrite <- (ownProperties_Permutation productMap) in Hentries.
  induction Hentries as [|kv l Hkv _ IH]; [reflexivity|].
  cbn [fmap list_fmap toSeries product]. cbn [fmap] in IH.
  destruct Hkv as (-> & _). rewrite IH. reflexivity.
Qed.

Lemma months_of_series (months : list string) (entry : ProductMap.Entry N) :
  month <$> data (toSeries months entry) = months.
Proof.
  unfold toSeries. cbn [data]. rewrite <- list_fmap_compose.
  etrans; [|apply list_fmap_id]. apply list_fmap_ext. reflexivity.
Qed.

Lemma allMonths_Permutation productMap :
  allMonths productMap
  ≡ₚ unique (Object.values productMap
             ≫= fun product => Object.keys (ProductMap.months product)).
Proof. apply sort_Permutation. Qed.

Lemma NoDup_allMonths productMap : NoDup (allMonths productMap).
Proof. rewrite allMonths_Permutation. apply NoDup_unique. Qed.

(** The months of every entry are on the shared axis. *)
Lemma elem_of_allMonths productMap (key : string)
    (entry : ProductMap.Entry N) (m : string) :
  (key, entry) ∈ productMap -> m ∈ fst <$> ProductMap.months entry ->
  m ∈ allMonths productMap.
Proof.
  intros Hentry Hm. rewrite allMonths_Permutation, elem_of_unique.
  apply list_elem_of_bind. exists entry. split.
  - rewrite keys_Permutation. exact Hm.
  - rewrite values_Permutation. apply (list_elem_of_fmap_2 snd _ (key, entry)).
    exact Hentry.
Qed.

Lemma allMonths_nonempty productMap :
  sound productMap -> productMap <> [] -> allMonths productMap <> [].
Proof.
  intros [_ Hentries] Hne. destruct productMap as [|[key entry] rest];
    [congruence|].
  apply Forall_cons in Hentries as [(_ & Hmonths & _) _]. cbn [snd] in Hmonths.
  destruct (ProductMap.months entry) as [|[m v] months] eqn:Heq; [congruence|].
  intros Hnil.
  assert (Hin : m ∈ allMonths ((key, entry) :: rest)).
  { apply (elem_of_allMonths _ key entry); [apply list_elem_of_here|].
    rewrite Heq. apply list_elem_of_here. }
  rewrite Hnil in Hin. inversion Hin.
Qed.

(** The corpus, when it is built: its series are those of distinct
    products, and they share one axis of distinct months, which is not
    empty. *)
Lemma timeSeriesData_series items (corpus : list (Series N)) :
  timeSeriesData items = Some corpus ->
  NoDup (product <$> corpus)
  /\ exists months : list string,
       NoDup months
       /\ Forall (fun series => month <$> data series = months) corpus
       /\ (corpus <> [] -> months <> []).
Proof.
  unfold timeSeriesData. destruct (bool_decide (length items = 0%nat)).
  { intros [= <-]. split; [constructor|]. exists []. repeat split.
    - constructor.
    - constructor.
    - congruence. }
  destruct (groupByProduct items) as [productMap|] eqn:Hgroup; [|discriminate].
  cbn [mbind option_bind]. intros [= <-].
  pose proof (groupByProduct_sound _ _ Hgroup) as Hsound.
  unfold filterInsufficientData. split.
  - eapply sublist_NoDup;
      [|apply fmap_sublist, filter_sublist].
    rewrite products_of_map by assumption. apply Hsound.
  - exists (allMonths productMap). split; [apply NoDup_allMonths|]. split.
    + apply Forall_forall. intros series Hin.
      apply list_elem_of_In, filter_In in Hin as [Hin _].
      apply list_elem_of_In, list_elem_of_fmap in Hin as (entry & -> & _).
      apply months_of_series.
    + intros Hne. apply allMonths_nonempty; [exact Hsound|].
      intros ->. apply Hne. reflexivity.
Qed.

(** ** When the corpus cannot be built *)

Lemma forEach_throws items :
  forall productMap,
  Forall (fun kv => fst kv ∉ Object.prototype) productMap ->
  (foldl (fun acc item => acc ≫= fun m => addItem m item)
     (Some productMap) items = None
   <-> Exists (fun item => usable item /\ ProductName item ∈ Object.prototype)
         items).
Proof.
  induction items as [|item items IH]; intros productMap Hkeys.
  - cbn [foldl]. rewrite Exists_nil. split; [discriminate | contradiction].
  - cbn [foldl mbind option_bind]. rewrite Exists_cons. unfold addItem, usable.
    destruct (OrderDate item) as [date|];
      [|rewrite (IH _ Hkeys); split; [tauto | intros [[[Hc _] _]|Hc]; tauto]].
    destruct (bool_decide (ProductName item = ""%string)) eqn:Hname.
    { apply bool_decide_eq_true in Hname. rewrite (IH _ Hkeys).
      split; [tauto | intros [[[_ Hc] _]|Hc]; tauto]. }
    apply bool_decide_eq_false in Hname.
    destruct (Object.get productMap (ProductName item)) as [entry|] eqn:Hget.
    + assert (Hown : ProductName item ∉ Object.prototype).
      { apply get_Some_elem_of in Hget. rewrite Forall_forall in Hkeys.
        apply (Hkeys _ Hget). }
      rewrite IH by (apply Forall_assign; assumption).
      split; [tauto | intros [[_ Hc]|Hc]; tauto].
    + destruct (bool_decide (ProductName item ∈ Object.prototype)) eqn:Hproto.
      * apply bool_decide_eq_true in Hproto. rewrite forEach_thrown.
        split; [intros _; left; repeat split; [discriminate | assumption..]
               | reflexivity].
      * apply bool_decide_eq_false in Hproto.
        rewrite IH by (apply Forall_assign; assumption).
        split; [tauto | intros [[_ Hc]|Hc]; tauto].
Qed.

(** The corpus is built unless a record that the component reads is named
    like a property that every object inherits. *)
Lemma timeSeriesData_throws items :
  timeSeriesData items = None
  <-> Exists (fun item => usable item /\ ProductName item ∈ Object.prototype)
        items.
Proof.
  unfold timeSeriesData. destruct items as [|item items].
  - cbn. rewrite Exists_nil. split; [discriminate | contradiction].
  - rewrite bool_decide_eq_false_2 by discriminate.
    rewrite <- (forEach_throws (item :: items) []) by constructor.
    fold (groupByProduct (item :: items)).
    destruct (groupByProduct (item :: items)); cbn [mbind option_bind];
      split; congruence.
Qed.

(** The corpus is built when no record is named like an inherited
    property. *)
Lemma timeSeriesData_built items :
  Forall (fun item => ProductName item ∉ Object.prototype) items ->
  exists corpus, timeSeriesData items = Some corpus.
Proof.
  intros Hnames. destruct (timeSeriesData items) as [corpus|] eqn:Hcorpus;
    [eauto|].
  apply timeSeriesData_throws, Exists_exists in Hcorpus
    as (item & Hin & _ & Hname).
  rewrite Forall_forall in Hnames. destruct (Hnames _ Hin Hname).
Qed.

Lemma not_inherited (key : string) :
  bool_decide (key ∈ Object.prototype) = false -> key ∉ Object.prototype.
Proof. apply bool_decide_eq_false_1. Qed.

(** ** The choices of the category filter *)

Lemma categories_spec items :
  head (categories items) = Some "All"%string
  /\ NoDup (tail (categories items))
  /\ forall c : string,
       c ∈ tail (categories items)
       <-> c <> ""%string /\ exists item, item ∈ items /\ CategoryName item = c.
Proof.
  unfold categories. destruct items as [|item items].
  - cbn. split; [reflexivity|]. split; [constructor|].
    intros c. split; [intros Hc; inversion Hc|].
    intros (_ & i & Hi & _). inversion Hi.
  - rewrite bool_decide_eq_false_2 by discriminate. cbn [head tail].
    split; [reflexivity|]. split.
    + eapply sublist_NoDup; [apply NoDup_unique | apply filter_sublist].
    + intros c. rewrite list_elem_of_In, filter_In, <- list_elem_of_In.
      rewrite elem_of_unique, list_elem_of_fmap, negb_true_iff, String.eqb_neq.
      split.
      * intros [(i & -> & Hi) Hne]. split; [exact Hne | eauto].
      * intros (Hne & i & Hi & <-). split; [eauto | exact Hne].
Qed.

End CorpusFacts.


(** ** What the series hold *)

Section Reading.

Context {N : Type} `{!JS.Number N}.

Implicit Types (productMap : list (string * ProductMap.Entry N))
  (item : Item N) (items : list (Item N)).

(** The two ways a record is read without throwing: it is skipped, or it
    is credited to the entry of its product, made first if need be. *)
Lemma addItem_cases productMap item productMap' :
  addItem productMap item = Some productMap' ->
  ((forall product, recordOf product item = false) /\ productMap' = productMap)
  \/ exists date,
       OrderDate item = Some date
       /\ ProductName item <> ""%string
       /\ productMap'
          = Object.assign productMap (ProductName item)
              (credit
                 (default
                    (ProductMap.mkEntry (ProductName item) (categoryOf item) []
                       (JS.lit 0))
                    (Object.get productMap (ProductName item)))
                 (monthKey date) (salesValue item)).
Proof.
  unfold addItem, recordOf.
  destruct (OrderDate item) as [date|]; [|intros [= <-]; left; auto].
  destruct (bool_decide (ProductName item = ""%string)) eqn:Hname.
  - apply bool_decide_eq_true in Hname. intros [= <-]. left.
    split; [|reflexivity]. intros product. rewrite Hname. reflexivity.
  - apply bool_decide_eq_false in Hname. intros Hadd. right. exists date.
    split; [reflexivity|]. split; [exact Hname|].
    destruct (Object.get productMap (ProductName item)) as [entry|].
    + injection Hadd as <-. reflexivity.
    + destruct (bool_decide (ProductName item ∈ Object.prototype));
        [discriminate|].
      injection Hadd as <-. reflexivity.
Qed.

(** A property of the records read so far and of the map that every
    record keeps holds when all the records are read. *)
Lemma forEach_invariant
    (Inv : list (Item N) -> list (string * ProductMap.Entry N) -> Prop) :
  Inv [] [] ->
  (forall seen productMap item productMap',
     Inv seen productMap -> addItem productMap item = Some productMap' ->
     Inv (seen ++ [item]) productMap') ->
  forall items productMap,
    groupByProduct items = Some productMap -> Inv items productMap.
Proof.
  intros Hstart Hstep.
  enough (Hgen : forall items seen productMap0 productMap,
            Inv seen productMap0 ->
            foldl (fun acc item => acc ≫= fun m => addItem m item)
              (Some productMap0) items = Some productMap ->
            Inv (seen ++ items) productMap)
    by (intros items productMap; apply (Hgen items [] []), Hstart).
  induction items as [|item items IH]; intros seen productMap0 productMap Hinv.
  - intros [= <-]. rewrite app_nil_r. exact Hinv.
  - cbn [foldl mbind option_bind].
    destruct (addItem productMap0 item) as [productMap1|] eqn:Hadd.
    + intros Hrest. rewrite (cons_middle item seen items), app_assoc.
      apply (IH _ productMap1); [|exact Hrest].
      apply (Hstep _ _ _ _ Hinv Hadd).
    + rewrite forEach_thrown. discriminate.
Qed.

Lemma firstRecord_snoc items item (product : string) :
  firstRecord (items ++ [item]) product
  = match firstRecord items product with
    | Some first => Some first
    | None => if recordOf product item then Some item else None
    end.
Proof.
  unfold firstRecord. induction items as [|i items IH]; cbn [app List.find].
  - destruct (recordOf product item); reflexivity.
  - destruct (recordOf product i); [reflexivity | exact IH].
Qed.

Lemma recordOf_name item (product : string) :
  recordOf product item = true -> ProductName item = product.
Proof.
  unfold recordOf. destruct (OrderDate item); [|discriminate].
  intros [_ Heq]%andb_true_iff. apply String.eqb_eq, Heq.
Qed.

Lemma recordOf_read item (date : JSDate) :
  OrderDate item = Some date -> ProductName item <> ""%string ->
  recordOf (ProductName item) item = true.
Proof.
  intros Hdate Hname. unfold recordOf. rewrite Hdate.
  apply andb_true_iff. split; [|apply String.eqb_refl].
  apply negb_true_iff, String.eqb_neq, Hname.
Qed.

Lemma recordOf_other item (product : string) :
  ProductName item <> product -> recordOf product item = false.
Proof.
  intros Hne. destruct (recordOf product item) eqn:Hrec; [|reflexivity].
  apply recordOf_name in Hrec. contradiction.
Qed.

(** The map has an entry for the products read so far, and the category
    of an entry is that of the first record read for the product. *)
Lemma groupByProduct_category items productMap :
  groupByProduct items = Some productMap ->
  forall product : string,
    categoryOf <$> firstRecord items product
    = ProductMap.category <$> Object.get productMap product.
Proof.
  revert items productMap.
  apply (forEach_invariant
           (fun seen productMap => forall product : string,
              categoryOf <$> firstRecord seen product
              = ProductMap.category <$> Object.get productMap product));
    [reflexivity|].
  intros seen productMap item productMap' Hinv Hadd product.
  rewrite firstRecord_snoc.
  destruct (addItem_cases _ _ _ Hadd) as [[Hskip ->]|(date & Hdate & Hname & ->)].
  - rewrite Hskip, <- Hinv. destruct (firstRecord seen product); reflexivity.
  - destruct (decide (ProductName item = product)) as [<-|Hne].
    + rewrite get_assign_eq, (recordOf_read item date Hdate Hname).
      specialize (Hinv (ProductName item)).
      destruct (Object.get productMap (ProductName item)) as [entry|],
               (firstRecord seen (ProductName item)) as [first|];
        try discriminate; cbn in *; congruence.
    + rewrite get_assign_ne, recordOf_other, <- Hinv by assumption.
      destruct (firstRecord seen product); reflexivity.
Qed.

Lemma elem_of_values_get productMap (entry : ProductMap.Entry N) :
  sound productMap -> entry ∈ Object.values productMap ->
  Object.get productMap (ProductMap.product entry) = Some entry.
Proof.
  intros [Hnodup Hentries]. rewrite values_Permutation.
  intros ([key entry'] & -> & Hin)%list_elem_of_fmap. cbn [snd].
  rewrite Forall_forall in Hentries.
  destruct (Hentries _ Hin) as (Hkey & _). cbn [fst snd] in Hkey.
  rewrite Hkey. apply elem_of_get; assumption.
Qed.

(** Every series of the corpus comes from an entry of the map. *)
Lemma timeSeriesData_entries items (corpus : list (Series N)) :
  timeSeriesData items = Some corpus ->
  exists productMap,
    groupByProduct items = Some productMap
    /\ Forall (fun series =>
                 exists entry,
                   Object.get productMap (product series) = Some entry
                   /\ series = toSeries (allMonths productMap) entry)
         corpus.
Proof.
  unfold timeSeriesData. destruct (bool_decide (length items = 0%nat)) eqn:Hlen.
  { intros [= <-]. apply bool_decide_eq_true in Hlen.
    destruct items; [|discriminate]. exists []. split; [reflexivity | constructor]. }
  destruct (groupByProduct items) as [productMap|] eqn:Hgroup; [|discriminate].
  cbn [mbind option_bind]. intros [= <-]. exists productMap.
  split; [reflexivity|]. apply Forall_forall. intros series Hin.
  apply list_elem_of_In, filter_In in Hin as [Hin _].
  apply list_elem_of_In, list_elem_of_fmap in Hin as (entry & -> & Hentry).
  exists entry. split; [|reflexivity]. cbn [toSeries product].
  apply elem_of_values_get; [|exact Hentry].
  apply (groupByProduct_sound _ _ Hgroup).
Qed.

(** The category of a series is that of the first record read for its
    product, ['Unknown'] if that record has none; the categories of later
    records of the product are not read. *)
Lemma timeSeriesData_category items (corpus : list (Series N)) :
  timeSeriesData items = Some corpus ->
  Forall (fun series =>
            exists first,
              firstRecord items (product series) = Some first
              /\ category series = categoryOf first)
    corpus.
Proof.
  intros (productMap & Hgroup & Hentries)%timeSeriesData_entries.
  eapply Forall_impl; [exact Hentries|].
  intros series (entry & Hget & ->). cbn [toSeries product category] in *.
  pose proof (groupByProduct_category _ _ Hgroup (ProductMap.product entry))
    as Hcat.
  rewrite Hget in Hcat.
  destruct (firstRecord items (ProductMap.product entry)) as [first|];
    [|discriminate].
  exists first. split; [reflexivity|]. cbn in Hcat. congruence.
Qed.

(** A series can be chosen through the category filter unless it is filed
    under ['Unknown']. *)
Lemma timeSeriesData_categories items (corpus : list (Series N)) :
  timeSeriesData items = Some corpus ->
  Forall (fun series =>
            category series ∈ categories items
            \/ category series = "Unknown"%string)
    corpus.
Proof.
  intros Hcorpus.
  eapply Forall_impl; [apply (timeSeriesData_category _ _ Hcorpus)|].
  intros series (first & Hfirst & ->). unfold categoryOf.
  destruct (bool_decide (CategoryName first = ""%string)) eqn:Hname;
    [right; reflexivity | left].
  apply bool_decide_eq_false in Hname.
  apply find_some in Hfirst as [Hin _].
  destruct (categories_spec items) as (_ & _ & Hspec).
  assert (Htail : CategoryName first ∈ tail (categories items)).
  { apply Hspec. split; [exact Hname|]. exists first.
    split; [apply list_elem_of_In, Hin | reflexivity]. }
  destruct (categories items); [inversion Htail|].
  apply list_elem_of_further, Htail.
Qed.

End Reading.


(** ** The sales of the series, in real numbers *)

Lemma or_zero (a : num) :
  realOrMissing a -> JS.or a (JS.lit 0) = Fin (orZero a).
Proof.
  intros [Hp Hn]. unfold JS.or. exact_ops. rewrite lit_Fin.
  destruct a as [r| | |]; try congruence; cbn [Num.truthy orZero].
  - destruct (Reqb_spec r 0) as [->|_]; reflexivity.
  - reflexivity.
Qed.

Lemma or_zero_Fin (r : R) : JS.or (Fin r) (JS.lit 0) = Fin r.
Proof. apply (or_zero (Fin r)). split; discriminate. Qed.

Lemma salesValue_real (item : Item num) :
  realItem item -> salesValue item = Fin (salesOf item).
Proof.
  intros [Hq Hp]. unfold salesValue, salesOf.
  rewrite (or_zero _ Hq), (or_zero _ Hp). apply mul_Fin.
Qed.

Lemma sumR_snoc (l : list R) (a : R) : sumR (l ++ [a]) = sumR l + a.
Proof.
  unfold sumR. induction l as [|b l IH]; cbn [app foldr]; [lra|].
  rewrite IH. lra.
Qed.

Lemma filter_snoc {A : Type} (f : A -> bool) (l : list A) (a : A) :
  List.filter f (l ++ [a]) = List.filter f l ++ (if f a then [a] else []).
Proof. rewrite List.filter_app. reflexivity. Qed.

Lemma monthlySales_snoc (items : list (Item num)) (item : Item num)
    (product m : string) :
  monthlySales (items ++ [item]) product m
  = monthlySales items product m
    + (if recordOf product item && inMonth m item then salesOf item else 0).
Proof.
  unfold monthlySales. rewrite filter_snoc, fmap_app.
  destruct (recordOf product item && inMonth m item).
  - apply sumR_snoc.
  - rewrite app_nil_r. lra.
Qed.

Lemma productSales_snoc (items : list (Item num)) (item : Item num)
    (product : string) :
  productSales (items ++ [item]) product
  = productSales items product
    + (if recordOf product item then salesOf item else 0).
Proof.
  unfold productSales. rewrite filter_snoc, fmap_app.
  destruct (recordOf product item).
  - apply sumR_snoc.
  - rewrite app_nil_r. lra.
Qed.

Lemma no_record_no_sales (items : list (Item num)) (product : string) :
  firstRecord items product = None ->
  productSales items product = 0
  /\ forall m, monthlySales items product m = 0.
Proof.
  unfold firstRecord, productSales, monthlySales. intros Hnone.
  assert (Hall : forall item, In item items -> recordOf product item = false)
    by (intros item; apply (find_none _ _ Hnone)).
  clear Hnone. induction items as [|item items IH]; [split; reflexivity|].
  cbn [List.filter]. rewrite (Hall item) by (left; reflexivity).
  cbn [andb]. apply IH. intros i Hi. apply Hall. right. exact Hi.
Qed.

Lemma inMonth_read (item : Item num) (date : JSDate) (m : string) :
  OrderDate item = Some date ->
  inMonth m item = bool_decide (monthKey date = m).
Proof.
  intros Hdate. unfold inMonth. rewrite Hdate.
  destruct (String.eqb_spec (monthKey date) m).
  - rewrite bool_decide_eq_true_2 by assumption. reflexivity.
  - rewrite bool_decide_eq_false_2 by assumption. reflexivity.
Qed.

(** The entry of a product holds the sales of the records read for it:
    month by month, and in total. *)
Lemma groupByProduct_sales (items : list (Item num))
    (productMap : list (string * ProductMap.Entry num)) :
  groupByProduct items = Some productMap ->
  Forall realItem items ->
  forall product : string,
    match Object.get productMap product with
    | Some entry =>
        ProductMap.totalSales entry = Fin (productSales items product)
        /\ forall m,
             JS.or (default NaN (Object.get (ProductMap.months entry) m))
               (JS.lit 0)
             = Fin (monthlySales items product m)
    | None => firstRecord items product = None
    end.
Proof.
  revert items productMap.
  apply (forEach_invariant
           (fun seen productMap =>
              Forall realItem seen ->
              forall product : string,
                match Object.get productMap product with
                | Some entry =>
                    ProductMap.totalSales entry
                    = Fin (productSales seen product)
                    /\ forall m,
                         JS.or (default NaN
                                  (Object.get (ProductMap.months entry) m))
                           (JS.lit 0)
                         = Fin (monthlySales seen product m)
                | None => firstRecord seen product = None
                end)); [reflexivity|].
  intros seen productMap item productMap' Hinv Hadd Hreal product.
  apply Forall_app in Hreal as [Hseen Hitem].
  apply Forall_cons in Hitem as [Hitem _].
  specialize (Hinv Hseen).
  destruct (addItem_cases _ _ _ Hadd) as [[Hskip ->]|(date & Hdate & Hname & ->)].
  { specialize (Hinv product).
    destruct (Object.get productMap product) as [entry|].
    - destruct Hinv as [Htotal Hmonths].
      rewrite productSales_snoc, Hskip, Rplus_0_r. split; [exact Htotal|].
      intros m. rewrite monthlySales_snoc, Hskip. cbn [andb].
      rewrite Rplus_0_r. apply Hmonths.
    - rewrite firstRecord_snoc, Hinv, Hskip. reflexivity. }
  destruct (decide (ProductName item = product)) as [<-|Hne].
  - rewrite get_assign_eq. specialize (Hinv (ProductName item)).
    rewrite productSales_snoc, (recordOf_read item date Hdate Hname).
    unfold credit. cbn [ProductMap.totalSales ProductMap.months].
    rewrite (salesValue_real item Hitem).
    set (entry0 := default _ (Object.get productMap (ProductName item))).
    assert (Hentry0 :
              ProductMap.totalSales entry0
              = Fin (productSales seen (ProductName item))
              /\ forall m,
                   JS.or (default NaN
                            (Object.get (ProductMap.months entry0) m))
                     (JS.lit 0)
                   = Fin (monthlySales seen (ProductName item) m)).
    { unfold entry0.
      destruct (Object.get productMap (ProductName item)) as [entry|];
        [exact Hinv|].
      destruct (no_record_no_sales _ _ Hinv) as [Htotal Hmonths].
      cbn [default ProductMap.totalSales ProductMap.months Object.get].
      rewrite Htotal. split; [apply lit_Fin|].
      intros m. rewrite Hmonths. apply (or_zero NaN). split; discriminate. }
    destruct Hentry0 as [Htotal Hmonths]. split.
    + rewrite Htotal. apply add_Fin.
    + intros m. rewrite monthlySales_snoc.
      rewrite (recordOf_read item date Hdate Hname), (inMonth_read _ _ m Hdate).
      cbn [andb]. destruct (decide (monthKey date = m)) as [<-|Hm].
      * rewrite bool_decide_eq_true_2 by reflexivity.
        rewrite get_assign_eq. cbn [default].
        rewrite Hmonths, add_Fin. apply or_zero_Fin.
      * rewrite bool_decide_eq_false_2 by assumption.
        rewrite get_assign_ne, Rplus_0_r by assumption. apply Hmonths.
  - rewrite get_assign_ne by assumption. specialize (Hinv product).
    pose proof (recordOf_other item product Hne) as Hother.
    destruct (Object.get productMap product) as [entry|].
    + destruct Hinv as [Htotal Hmonths].
      rewrite productSales_snoc, Hother, Rplus_0_r. split; [exact Htotal|].
      intros m. rewrite monthlySales_snoc, Hother. cbn [andb].
      rewrite Rplus_0_r. apply Hmonths.
    + rewrite firstRecord_snoc, Hinv, Hother. reflexivity.
Qed.

(** Every period of a series of the corpus holds the sales of the
    records of the product dated in that month, and [totalSales] the
    sales of all its records. *)
Lemma timeSeriesData_sales (items : list (Item num))
    (corpus : list (Series num)) :
  Forall realItem items -> timeSeriesData items = Some corpus ->
  Forall (fun series =>
            totalSales series = Fin (productSales items (product series))
            /\ Forall (fun d =>
                         sales d
                         = Fin (monthlySales items (product series) (month d)))
                 (data series))
    corpus.
Proof.
  intros Hreal (productMap & Hgroup & Hentries)%timeSeriesData_entries.
  eapply Forall_impl; [exact Hentries|].
  intros series (entry & Hget & ->). cbn [toSeries product] in Hget.
  pose proof (groupByProduct_sales _ _ Hgroup Hreal (ProductMap.product entry))
    as Hsales.
  rewrite Hget in Hsales. destruct Hsales as [Htotal Hmonths].
  cbn [toSeries product totalSales data]. split; [exact Htotal|].
  apply Forall_fmap, Forall_forall. intros m _. cbn [sales month].
  apply Hmonths.
Qed.

(** The corpus built from records with real numbers holds real
    series, none of them empty. *)
Lemma timeSeriesData_real (items : list (Item num))
    (corpus : list (Series num)) :
  Forall realItem items -> timeSeriesData items = Some corpus ->
  Forall (fun series => realSeries series /\ data series <> []) corpus.
Proof.
  intros Hreal Hcorpus.
  pose proof (timeSeriesData_sales items corpus Hreal Hcorpus) as Hsales.
  destruct (timeSeriesData_series items corpus Hcorpus)
    as (_ & months & _ & Hmonths & Hne).
  apply Forall_forall. intros series Hin.
  rewrite Forall_forall in Hsales, Hmonths.
  destruct (Hsales _ Hin) as [_ Hdata]. split.
  - unfold realSeries. eapply Forall_impl; [exact Hdata|].
    intros d ->. exact I.
  - intros Hnil. apply Hne.
    + intros ->. inversion Hin.
    + rewrite <- (Hmonths _ Hin), Hnil. reflexivity.
Qed.

(** From the records to the results: every result of a search over the
    corpus has a distance between [0] and [20] and a quality between [0]
    and [100]. *)
Lemma search_over_records (items : list (Item num))
    (corpus : list (Series num)) (stroke : list (R * R))
    (selectedCategory : string) :
  Forall realItem items -> timeSeriesData items = Some corpus ->
  stroke <> [] ->
  Forall (fun r =>
            (exists v, similarity r = Fin v /\ 0 <= v <= 20)
            /\ between 0 100 (matchQuality r))
    (sortedResults (points stroke) corpus selectedCategory).
Proof.
  intros Hreal Hcorpus Hstroke. unfold sortedResults.
  apply Forall_take, sort_Forall.
  eapply Forall_impl;
    [apply (results_bounded stroke corpus selectedCategory Hstroke),
       (timeSeriesData_real items corpus Hreal Hcorpus)|].
  intros r (v & Hv & Hbound). split; [eauto|].
  apply matchQuality_range. rewrite Hv. cbn. lra.
Qed.


(** X21: the corpus, when it is built, holds one series per product, and
    its series share one axis of distinct months, which is not empty
    unless the corpus is: no series of the corpus is empty. *)
Theorem X21_corpus_series {N : Type} `{!JS.Number N} (items : list (Item N))
    (corpus : list (Series N)) :
  timeSeriesData items = Some corpus ->
  NoDup (product <$> corpus)
  /\ exists months : list string,
       NoDup months
       /\ Forall (fun series => month <$> data series = months) corpus
       /\ (corpus <> [] -> months <> []).
Proof. exact (timeSeriesData_series items corpus). Qed.

(** X22: building the corpus throws a [TypeError] exactly when a record
    with a date and a product is named like a property that every object
    inherits, such as [constructor]. *)
Theorem X22_corpus_throws {N : Type} `{!JS.Number N} (items : list (Item N)) :
  timeSeriesData items = None
  <-> Exists (fun item => usable item /\ ProductName item ∈ Object.prototype)
        items.
Proof. exact (timeSeriesData_throws items). Qed.

(** X23: the category of a series is that of the first record read for
    its product, ['Unknown'] if that record has none; the categories of
    the later records of the product are not read. *)
Theorem X23_corpus_category {N : Type} `{!JS.Number N} (items : list (Item N))
    (corpus : list (Series N)) :
  timeSeriesData items = Some corpus ->
  Forall (fun series =>
            exists first,
              firstRecord items (product series) = Some first
              /\ category series = categoryOf first)
    corpus.
Proof. exact (timeSeriesData_category items corpus). Qed.

(** X24: the choices of the category filter are ['All'] followed by the
    distinct categories of the records, the empty one left out; every
    series of the corpus is of one of these categories or is filed under
    ['Unknown']. *)
Theorem X24_categories {N : Type} `{!JS.Number N} (items : list (Item N)) :
  head (categories items) = Some "All"%string
  /\ NoDup (tail (categories items))
  /\ (forall c : string,
        c ∈ tail (categories items)
        <-> c <> ""%string
            /\ exists item, item ∈ items /\ CategoryName item = c)
  /\ forall corpus : list (Series N),
       timeSeriesData items = Some corpus ->
       Forall (fun series =>
                 category series ∈ categories items
                 \/ category series = "Unknown"%string)
         corpus.
Proof.
  destruct (categories_spec items) as (Hhead & Hnodup & Hspec).
  split; [exact Hhead|]. split; [exact Hnodup|]. split; [exact Hspec|].
  exact (timeSeriesData_categories items).
Qed.

(** X25: with quantities and prices that are real numbers or missing,
    every period of a series of the corpus holds the sum of quantity
    times price over the records of the product dated in that month (a
    missing number counting 0, a month without records holding 0), and
    [totalSales] holds the sum over all the records of the product. *)
Theorem X25_corpus_sales (items : list (Item num))
    (corpus : list (Series num)) :
  Forall realItem items -> timeSeriesData items = Some corpus ->
  Forall (fun series =>
            totalSales series = Fin (productSales items (product series))
            /\ Forall (fun d =>
                         sales d
                         = Fin (monthlySales items (product series) (month d)))
                 (data series))
    corpus.
Proof. exact (timeSeriesData_sales items corpus). Qed.

(** X26: from the records to the results: with quantities and prices
    that are real numbers or missing and a stroke that is not empty,
    every result of a search over the corpus has a distance between [0]
    and [20] and is shown with a quality between [0] and [100]. *)
Theorem X26_search_over_records (items : list (Item num))
    (corpus : list (Series num)) (stroke : list (R * R))
    (selectedCategory : string) :
  Forall realItem items -> timeSeriesData items = Some corpus ->
  stroke <> [] ->
  Forall (fun r =>
            (exists v, similarity r = Fin v /\ 0 <= v <= 20)
            /\ between 0 100 (matchQuality r))
    (sortedResults (points stroke) corpus selectedCategory).
Proof.
  exact (search_over_records items corpus stroke selectedCategory).
Qed.

(** ** The order of strings *)

Lemma ltb_lt (a b : string) :
  String.ltb a b = true <-> OrderedTypeEx.String_as_OT.lt a b.
Proof.
  rewrite <- OrderedTypeEx.String_as_OT.cmp_lt.
  unfold String.ltb, OrderedTypeEx.String_as_OT.cmp.
  destruct (String.compare a b); split; congruence.
Qed.

Lemma ltb_trans (a b c : string) :
  String.ltb a b = true -> String.ltb b c = true -> String.ltb a c = true.
Proof.
  rewrite !ltb_lt. apply OrderedTypeEx.String_as_OT.lt_trans.
Qed.

Lemma ltb_asym (a b : string) :
  String.ltb a b = true -> String.ltb b a = false.
Proof.
  unfold String.ltb. rewrite (String.compare_antisym b a).
  destruct (String.compare a b); cbn; congruence.
Qed.

Lemma ltb_connected (a b : string) :
  String.ltb b a = false -> a = b \/ String.ltb a b = true.
Proof.
  unfold String.ltb. rewrite (String.compare_antisym b a).
  destruct (String.compare a b) eqn:Hcmp; cbn; intros H; try discriminate.
  - left. apply String.compare_eq_iff, Hcmp.
  - right. reflexivity.
Qed.

Lemma ltb_irrefl (a : string) : String.ltb a a = false.
Proof.
  destruct (String.ltb a a) eqn:H; [|reflexivity].
  pose proof (ltb_asym a a H). congruence.
Qed.

(** ** [sort()] on strings *)

Lemma defaultCompare_gt (a b : string) :
  (defaultCompare (N := num) a b >? JS.lit 0)%num = String.ltb b a.
Proof.
  unfold defaultCompare. destruct (String.ltb a b) eqn:Hab.
  - rewrite (ltb_asym a b Hab), !lit_Fin, gt_Fin. apply Rltb_false. lra.
  - destruct (String.ltb b a); rewrite !lit_Fin, gt_Fin;
      [apply Rltb_true | apply Rltb_false]; lra.
Qed.

Lemma notAfter_trans (a b c : string) :
  String.ltb b a = false -> String.ltb c b = false -> String.ltb c a = false.
Proof.
  intros Hab Hbc. destruct (String.ltb c a) eqn:Hca; [|reflexivity].
  destruct (ltb_connected a b Hab) as [->|Hlt]; [congruence|].
  pose proof (ltb_trans c a b Hca Hlt). congruence.
Qed.

Lemma sortInsert_strings (a : string) (l : list string) :
  StronglySorted (fun u v => String.ltb v u = false) l ->
  StronglySorted (fun u v => String.ltb v u = false)
    (sortInsert (N := num) defaultCompare a l).
Proof.
  induction 1 as [|b l Hsorted IH Hb]; cbn [sortInsert].
  - repeat constructor.
  - rewrite defaultCompare_gt. destruct (String.ltb b a) eqn:Hba.
    + constructor; [exact IH|].
      apply sortInsert_Forall; [apply (ltb_asym b a Hba) | exact Hb].
    + constructor; [constructor; assumption|].
      constructor; [exact Hba|].
      eapply Forall_impl; [exact Hb|]. intros c Hc.
      apply (notAfter_trans a b c); assumption.
Qed.

Lemma sort_strings (l : list string) :
  StronglySorted (fun u v => String.ltb v u = false)
    (sort (N := num) defaultCompare l).
Proof.
  induction l as [|a l IH]; cbn [sort]; [constructor|].
  apply sortInsert_strings, IH.
Qed.

Lemma sorted_distinct (l : list string) :
  StronglySorted (fun u v => String.ltb v u = false) l -> NoDup l ->
  StronglySorted (fun u v => String.ltb u v = true) l.
Proof.
  induction 1 as [|a l Hsorted IH Ha]; intros Hnodup; [constructor|].
  apply NoDup_cons in Hnodup as [Hin Hnodup].
  constructor; [apply IH, Hnodup|].
  apply Forall_forall. intros b Hb. rewrite Forall_forall in Ha.
  destruct (ltb_connected a b (Ha b Hb)) as [->|Hlt]; [contradiction | exact Hlt].
Qed.

(** The months of the shared axis are in ascending order of their
    keys. *)
Lemma allMonths_ascending
    (productMap : list (string * ProductMap.Entry num)) :
  StronglySorted (fun u v => String.ltb u v = true) (allMonths productMap).
Proof.
  apply sorted_distinct; [apply sort_strings | apply NoDup_allMonths].
Qed.

Lemma timeSeriesData_ascending (items : list (Item num))
    (corpus : list (Series num)) :
  timeSeriesData items = Some corpus ->
  Forall (fun series =>
            StronglySorted (fun u v => String.ltb u v = true)
              (month <$> data series))
    corpus.
Proof.
  intros (productMap & _ & Hentries)%timeSeriesData_entries.
  eapply Forall_impl; [exact Hentries|].
  intros series (entry & _ & ->). rewrite months_of_series.
  apply allMonths_ascending.
Qed.

(** ** The order of the month keys *)

Lemma pretty_four_digits (n : N) :
  (1000 <= n <= 9999)%N ->
  pretty n
  = String (pretty_N_char (n / 1000))
      (String (pretty_N_char (n / 100 mod 10))
         (String (pretty_N_char (n / 10 mod 10))
            (String (pretty_N_char (n mod 10)) EmptyString))).
Proof.
  intros Hn. unfold pretty, pretty_N.
  destruct (decide (n = 0%N)) as [->|_]; [lia|].
  assert (H1 : (0 < n / 10)%N) by (apply N.div_str_pos; lia).
  assert (H2 : (0 < n / 10 / 10)%N)
    by (rewrite N.Div0.div_div; apply N.div_str_pos; lia).
  assert (H3 : (0 < n / 10 / 10 / 10)%N)
    by (rewrite !N.Div0.div_div; apply N.div_str_pos; lia).
  rewrite pretty_N_go_step by lia.
  rewrite pretty_N_go_step by exact H1.
  rewrite pretty_N_go_step by exact H2.
  rewrite pretty_N_go_step by exact H3.
  rewrite !N.Div0.div_div.
  change (10 * (10 * (10 * 10)))%N with 10000%N.
  change (10 * (10 * 10))%N with 1000%N. change (10 * 10)%N with 100%N.
  rewrite (N.div_small n 10000) by lia. rewrite pretty_N_go_0.
  rewrite (N.mod_small (n / 1000) 10); [reflexivity|].
  apply N.Div0.div_lt_upper_bound; lia.
Qed.

Lemma digit_compare (a b : N) :
  (a < 10)%N -> (b < 10)%N ->
  Ascii.compare (pretty_N_char a) (pretty_N_char b) = (a ?= b)%N.
Proof.
  intros Ha Hb.
  assert (Hcases : forall c : N, (c < 10)%N ->
            c = 0%N \/ c = 1%N \/ c = 2%N \/ c = 3%N \/ c = 4%N \/ c = 5%N
            \/ c = 6%N \/ c = 7%N \/ c = 8%N \/ c = 9%N) by (intros c Hc; lia).
  destruct (Hcases a Ha) as [->|[->|[->|[->|[->|[->|[->|[->|[->| ->]]]]]]]]];
    destruct (Hcases b Hb) as [->|[->|[->|[->|[->|[->|[->|[->|[->| ->]]]]]]]]];
    reflexivity.
Qed.

Lemma four_digits (n : N) :
  (1000 <= n <= 9999)%N ->
  (n / 1000 < 10)%N /\ (n / 100 mod 10 < 10)%N /\ (n / 10 mod 10 < 10)%N
  /\ (n mod 10 < 10)%N
  /\ n = (1000 * (n / 1000) + 100 * (n / 100 mod 10) + 10 * (n / 10 mod 10)
          + n mod 10)%N.
Proof.
  intros Hn.
  replace (n / 1000)%N with (n / 10 / 10 / 10)%N
    by (rewrite !N.Div0.div_div; reflexivity).
  replace (n / 100)%N with (n / 10 / 10)%N
    by (rewrite !N.Div0.div_div; reflexivity).
  pose proof (N.Div0.div_mod n 10) as E1.
  pose proof (N.Div0.div_mod (n / 10) 10) as E2.
  pose proof (N.Div0.div_mod (n / 10 / 10) 10) as E3.
  pose proof (N.mod_upper_bound n 10 ltac:(lia)).
  pose proof (N.mod_upper_bound (n / 10) 10 ltac:(lia)).
  pose proof (N.mod_upper_bound (n / 10 / 10) 10 ltac:(lia)).
  set (q1 := (n / 10)%N) in *. set (r1 := (n mod 10)%N) in *.
  set (q2 := (q1 / 10)%N) in *. set (r2 := (q1 mod 10)%N) in *.
  set (q3 := (q2 / 10)%N) in *. set (r3 := (q2 mod 10)%N) in *.
  clearbody q1 r1 q2 r2 q3 r3. repeat split; lia.
Qed.

(** Two numerals of four digits compare as the numbers do. *)
Lemma year_compare (n n' : N) (s s' : string) :
  (1000 <= n <= 9999)%N -> (1000 <= n' <= 9999)%N ->
  String.compare (pretty n +:+ s) (pretty n' +:+ s')
  = match (n ?= n')%N with Eq => String.compare s s' | c => c end.
Proof.
  intros Hn Hn'. rewrite !pretty_four_digits by assumption.
  destruct (four_digits n Hn) as (Ha & Hb & Hc & Hd & En).
  destruct (four_digits n' Hn') as (Ha' & Hb' & Hc' & Hd' & En').
  simpl String.append. simpl String.compare.
  rewrite !digit_compare by assumption.
  set (a := (n / 1000)%N) in *. set (b := (n / 100 mod 10)%N) in *.
  set (c := (n / 10 mod 10)%N) in *. set (d := (n mod 10)%N) in *.
  set (a' := (n' / 1000)%N) in *. set (b' := (n' / 100 mod 10)%N) in *.
  set (c' := (n' / 10 mod 10)%N) in *. set (d' := (n' mod 10)%N) in *.
  clearbody a b c d a' b' c' d'.
  destruct (N.compare_spec a a') as [->|Hlt|Hgt].
  - destruct (N.compare_spec b b') as [->|Hlt|Hgt].
    + destruct (N.compare_spec c c') as [->|Hlt|Hgt].
      * destruct (N.compare_spec d d') as [->|Hlt|Hgt].
        -- replace n' with n by lia. rewrite N.compare_refl. reflexivity.
        -- rewrite (proj2 (N.compare_lt_iff n n')) by lia. reflexivity.
        -- rewrite (proj2 (N.compare_gt_iff n n')) by lia. reflexivity.
      * rewrite (proj2 (N.compare_lt_iff n n')) by lia. reflexivity.
      * rewrite (proj2 (N.compare_gt_iff n n')) by lia. reflexivity.
    + rewrite (proj2 (N.compare_lt_iff n n')) by lia. reflexivity.
    + rewrite (proj2 (N.compare_gt_iff n n')) by lia. reflexivity.
  - rewrite (proj2 (N.compare_lt_iff n n')) by lia. reflexivity.
  - rewrite (proj2 (N.compare_gt_iff n n')) by lia. reflexivity.
Qed.

(** The two digits of the months compare as the months do. *)
Lemma month_compare (m m' : nat) :
  (m <= 11)%nat -> (m' <= 11)%nat ->
  String.compare ("-" +:+ padStart 2 "0" (pretty (m + 1)%nat))
    ("-" +:+ padStart 2 "0" (pretty (m' + 1)%nat))
  = Nat.compare m m'.
Proof.
  intros Hm Hm'.
  do 12 (destruct m as [|m]; [do 12 (destruct m' as [|m']; [reflexivity|]); lia|]).
  lia.
Qed.

Lemma pretty_year (fullYear : Z) :
  (0 < fullYear)%Z -> pretty fullYear = pretty (Z.to_N fullYear).
Proof. destruct fullYear; [lia | reflexivity | lia]. Qed.

(** For dates of years of four digits, the order of the month keys is
    the order of time. *)
Lemma monthKey_order (d d' : JSDate) :
  fourDigitYear d -> fourDigitYear d' ->
  (String.ltb (monthKey d) (monthKey d') = true <-> earlier d d').
Proof.
  destruct d as [|fullYear m], d' as [|fullYear' m']; try contradiction.
  intros [Hy Hm] [Hy' Hm']. unfold monthKey, String.ltb, earlier.
  rewrite !pretty_year by lia.
  rewrite year_compare by lia.
  rewrite (month_compare m m' Hm Hm').
  destruct (N.compare_spec (Z.to_N fullYear) (Z.to_N fullYear')) as [Heq|Hlt|Hgt].
  - destruct (Nat.compare_spec m m'); split; try discriminate; try lia;
      intros _; try reflexivity; right; lia.
  - split; [intros _; left; lia | reflexivity].
  - split; [discriminate | lia].
Qed.

(** The hypothesis on the years is needed: the key of January 1000 comes
    before the key of December 999. *)
Example monthKey_year_999 :
  String.ltb (monthKey (LocalDate 1000 0)) (monthKey (LocalDate 999 11)) = true.
Proof. reflexivity. Qed.

(** ** The months of the axis *)

Section Months.

Context {N : Type} `{!JS.Number N}.

Lemma get_is_Some {V : Type} (o : list (string * V)) (k : string) :
  is_Some (Object.get o k) <-> k ∈ fst <$> o.
Proof.
  rewrite <- not_eq_None_Some, get_None.
  destruct (decide (k ∈ fst <$> o)); tauto.
Qed.

(** The months of the entry of a product are the months of the records
    read for it. *)
Lemma groupByProduct_months (items : list (Item N))
    (productMap : list (string * ProductMap.Entry N)) :
  groupByProduct items = Some productMap ->
  forall key m : string,
    (exists entry,
        Object.get productMap key = Some entry
        /\ is_Some (Object.get (ProductMap.months entry) m))
    <-> exists item date,
          item ∈ items /\ OrderDate item = Some date
          /\ ProductName item = key /\ key <> ""%string
          /\ monthKey date = m.
Proof.
  revert items productMap.
  apply (forEach_invariant
           (fun seen productMap =>
              forall key m : string,
                (exists entry,
                    Object.get productMap key = Some entry
                    /\ is_Some (Object.get (ProductMap.months entry) m))
                <-> exists item date,
                      item ∈ seen /\ OrderDate item = Some date
                      /\ ProductName item = key /\ key <> ""%string
                      /\ monthKey date = m)).
  { intros key m. split.
    - intros (entry & Hget & _). discriminate.
    - intros (item & date & Hin & _). inversion Hin. }
  intros seen productMap item productMap' Hinv Hadd key m.
  assert (Hseen : (exists item' date,
                      item' ∈ seen ++ [item] /\ OrderDate item' = Some date
                      /\ ProductName item' = key /\ key <> ""%string
                      /\ monthKey date = m)
                  <-> (exists item' date,
                          item' ∈ seen /\ OrderDate item' = Some date
                          /\ ProductName item' = key /\ key <> ""%string
                          /\ monthKey date = m)
                      \/ exists date,
                           OrderDate item = Some date
                           /\ ProductName item = key /\ key <> ""%string
                           /\ monthKey date = m).
  { split.
    - intros (item' & date & Hin & Hrest).
      apply elem_of_app in Hin as [Hin| ->%list_elem_of_singleton]; eauto.
    - intros [(item' & date & Hin & Hrest)|(date & Hrest)].
      + exists item', date. split; [apply elem_of_app; left; exact Hin | exact Hrest].
      + exists item, date.
        split; [apply elem_of_app; right; apply list_elem_of_here | exact Hrest]. }
  rewrite Hseen, <- Hinv. clear Hseen.
  destruct (addItem_cases _ _ _ Hadd) as [[Hskip ->]|(date & Hdate & Hname & ->)].
  { split; [tauto|]. intros [Hold|(date & Hdate & <- & Hne & _)]; [exact Hold|].
    specialize (Hskip (ProductName item)).
    rewrite (recordOf_read item date Hdate Hne) in Hskip. discriminate. }
  destruct (decide (ProductName item = key)) as [<-|Hne].
  - rewrite get_assign_eq.
    set (entry0 := default _ (Object.get productMap (ProductName item))).
    assert (Hentry0 :
              forall m',
                is_Some (Object.get (ProductMap.months entry0) m')
                <-> exists entry,
                      Object.get productMap (ProductName item) = Some entry
                      /\ is_Some (Object.get (ProductMap.months entry) m')).
    { intros m'. unfold entry0.
      destruct (Object.get productMap (ProductName item)) as [entry|];
        cbn [default ProductMap.months Object.get].
      - split; [eauto | intros (e & [= <-] & He); exact He].
      - split; [intros [? ?]; discriminate | intros (e & ? & _); discriminate]. }
    split.
    + intros (entry & [= <-] & Hm). unfold credit in Hm.
      cbn [ProductMap.months] in Hm.
      destruct (decide (monthKey date = m)) as [<-|Hmonth].
      * right. exists date. auto.
      * left. rewrite get_assign_ne in Hm by assumption.
        apply Hentry0, Hm.
    + intros Hcases. eexists. split; [reflexivity|].
      unfold credit. cbn [ProductMap.months].
      destruct (decide (monthKey date = m)) as [<-|Hmonth].
      * rewrite get_assign_eq. eauto.
      * rewrite get_assign_ne by assumption. apply Hentry0.
        destruct Hcases as [Hold|(date' & Hdate' & _ & _ & Hm)]; [exact Hold|].
        congruence.
  - rewrite get_assign_ne by assumption. split; [tauto|].
    intros [Hold|(date' & _ & Heq & _)]; [exact Hold | contradiction].
Qed.

(** The shared axis holds the months of all the records read, and no
    other. *)
Lemma allMonths_records (items : list (Item N))
    (productMap : list (string * ProductMap.Entry N)) (m : string) :
  groupByProduct items = Some productMap ->
  m ∈ allMonths productMap
  <-> exists item date,
        item ∈ items /\ OrderDate item = Some date
        /\ ProductName item <> ""%string /\ monthKey date = m.
Proof.
  intros Hgroup. pose proof (groupByProduct_sound _ _ Hgroup) as [Hnodup Hsound].
  rewrite allMonths_Permutation, elem_of_unique, list_elem_of_bind. split.
  - intros (entry & Hm & Hentry).
    rewrite keys_Permutation in Hm. rewrite values_Permutation in Hentry.
    apply list_elem_of_fmap in Hentry as ([key entry'] & -> & Hin).
    cbn [snd] in Hm.
    destruct (proj1 (groupByProduct_months _ _ Hgroup key m))
      as (item & date & Hitem & Hdate & Hname & Hkey & Hmonth).
    { exists entry'. split; [apply elem_of_get; assumption|].
      apply get_is_Some, Hm. }
    exists item, date. repeat split; try assumption. congruence.
  - intros (item & date & Hitem & Hdate & Hname & Hmonth).
    destruct (proj2 (groupByProduct_months _ _ Hgroup (ProductName item) m))
      as (entry & Hget & Hm).
    { exists item, date. auto. }
    exists entry. split.
    + rewrite keys_Permutation. apply get_is_Some, Hm.
    + rewrite values_Permutation.
      apply (list_elem_of_fmap_2 snd _ (ProductName item, entry)).
      apply get_Some_elem_of, Hget.
Qed.

Lemma timeSeriesData_axis (items : list (Item N)) (corpus : list (Series N)) :
  timeSeriesData items = Some corpus ->
  Forall (fun series =>
            forall m : string,
              m ∈ month <$> data series
              <-> exists item date,
                    item ∈ items /\ OrderDate item = Some date
                    /\ ProductName item <> ""%string /\ monthKey date = m)
    corpus.
Proof.
  intros (productMap & Hgroup & Hentries)%timeSeriesData_entries.
  eapply Forall_impl; [exact Hentries|].
  intros series (entry & _ & ->) m. rewrite months_of_series.
  apply allMonths_records, Hgroup.
Qed.

End Months.


(** X27: the periods of every series of the corpus are the months of all
    the records read, each once, in ascending order of the month keys. *)
Theorem X27_corpus_axis (items : list (Item num)) (corpus : list (Series num)) :
  timeSeriesData items = Some corpus ->
  Forall (fun series =>
            StronglySorted (fun u v => String.ltb u v = true)
              (month <$> data series)
            /\ forall m : string,
                 m ∈ month <$> data series
                 <-> exists item date,
                       item ∈ items /\ OrderDate item = Some date
                       /\ ProductName item <> ""%string /\ monthKey date = m)
    corpus.
Proof.
  intros Hcorpus.
  pose proof (timeSeriesData_ascending items corpus Hcorpus) as Hsorted.
  pose proof (timeSeriesData_axis items corpus Hcorpus) as Haxis.
  rewrite Forall_forall in Hsorted, Haxis. apply Forall_forall.
  intros series Hin. split; [apply Hsorted, Hin | apply Haxis, Hin].
Qed.

(** X28: for dates of years of four digits, the order of the month keys
    is the order of time: the key of one date comes before the key of
    another exactly when its month is earlier. *)
Theorem X28_month_keys_in_order_of_time (d d' : JSDate) :
  fourDigitYear d -> fourDigitYear d' ->
  (String.ltb (monthKey d) (monthKey d') = true <-> earlier d d').
Proof. exact (monthKey_order d d'). Qed.


(** ** Runs on IEEE doubles *)

(** Two coinciding points resampled to three points give two. *)
Example double_resample_coinciding_points :
  resampleCurve [pixel 0 0; pixel 0 0] 3 = [pixel 0 0; pixel 0 0].
Proof. vm_compute. reflexivity. Qed.

(** The stroke of a pointer that does not move is normalised to five
    copies of one point and resampled to two points, not twenty. *)
Example double_resample_still_pointer :
  let stroke := replicate 5 (pixel 3 3) in
  normalizedDrawing stroke = replicate 5 (pixel 0 1)
  /\ resampleCurve (normalizedDrawing stroke) numSamplePoints
     = [pixel 0 1; pixel 0 1].
Proof. vm_compute. split; reflexivity. Qed.

Example double_resample_segment :
  resampleCurve [pixel 0 0; pixel 4 0] 3 = [pixel 0 0; pixel 2 0; pixel 4 0].
Proof. vm_compute. reflexivity. Qed.

(** A stroke of five points is resampled to twenty points. *)
Example double_resample_stroke :
  length (resampleCurve
            (normalizedDrawing
               [pixel 0 0; pixel 1 1; pixel 2 2; pixel 3 3; pixel 4 4])
            numSamplePoints) = 20%nat.
Proof. vm_compute. reflexivity. Qed.

Example double_dtw_two_by_two :
  calculateDTWSimilarity [pixel 0 0; pixel 1 1] [pixel 0 1; pixel 1 0]
  = JS.lit 2.
Proof. vm_compute. reflexivity. Qed.

(** A horizontal stroke is normalised to [y = 1]. *)
Example double_flat_stroke :
  normalizedDrawing [pixel 0 5; pixel 1 5] = [pixel 0 1; pixel 1 1].
Proof. vm_compute. reflexivity. Qed.

(** A stroke drawn from right to left keeps its order. *)
Example double_right_to_left_stroke :
  normalizedDrawing [pixel 1 0; pixel 0 0] = [pixel 1 1; pixel 0 1].
Proof. vm_compute. reflexivity. Qed.

(** A series of a single period gets [x = NaN]. *)
Example double_single_period :
  normalizedSeries (wholeSeries "p" "c" [("2024-01"%string, 7%Z)])
  = [mkPoint PrimFloat.nan (JS.lit 0)].
Proof. vm_compute. reflexivity. Qed.

(** A period of negative sales does not count as support. *)
Example double_negative_sales :
  hasEnoughData ["2024-01"%string]
    (wholeSeries "p" "c" [("2024-01"%string, (-1)%Z)]) = false.
Proof. vm_compute. reflexivity. Qed.

(** A line that rises on the screen (its Y decreases) ranks a rising
    series above a flat one. *)
Example double_rising_line_ranks_rising_series :
  let stroke :=
    [pixel 0 0; pixel 1 (-1); pixel 2 (-2); pixel 3 (-3); pixel 4 (-4)] in
  let corpus :=
    [wholeSeries "flat" "c"
       [("01"%string, 10%Z); ("02"%string, 10%Z); ("03"%string, 10%Z)];
     wholeSeries "rising" "c"
       [("01"%string, 0%Z); ("02"%string, 50%Z); ("03"%string, 100%Z)]] in
  product <$> (matched <$> sortedResults stroke corpus "All")
  = ["rising"%string; "flat"%string].
Proof. vm_compute. reflexivity. Qed.

(** Two series of equal similarity stay in corpus order, before and after
    a closer one. *)
Example double_ties_keep_corpus_order :
  let stroke :=
    [pixel 0 0; pixel 1 (-1); pixel 2 (-2); pixel 3 (-3); pixel 4 (-4)] in
  let corpus :=
    [wholeSeries "flat, first" "c"
       [("01"%string, 10%Z); ("02"%string, 10%Z); ("03"%string, 10%Z)];
     wholeSeries "rising" "c"
       [("01"%string, 0%Z); ("02"%string, 50%Z); ("03"%string, 100%Z)];
     wholeSeries "flat, second" "c"
       [("01"%string, 7%Z); ("02"%string, 7%Z); ("03"%string, 7%Z)]] in
  product <$> (matched <$> sortedResults stroke corpus "All")
  = ["rising"%string; "flat, first"%string; "flat, second"%string].
Proof. vm_compute. reflexivity. Qed.

(** A resampled stroke is at distance 0 from itself, and every match is
    shown with a quality between 0 and 100. *)
Example double_distance_and_quality :
  let stroke :=
    [pixel 0 0; pixel 1 (-1); pixel 2 (-2); pixel 3 (-3); pixel 4 (-4)] in
  let corpus :=
    [wholeSeries "flat" "c"
       [("01"%string, 10%Z); ("02"%string, 10%Z); ("03"%string, 10%Z)];
     wholeSeries "rising" "c"
       [("01"%string, 0%Z); ("02"%string, 50%Z); ("03"%string, 100%Z)]] in
  let sampled := resampleCurve (normalizedDrawing stroke) numSamplePoints in
  calculateDTWSimilarity sampled sampled = JS.lit 0
  /\ forallb (fun d => JS.ge (matchQuality d) (JS.lit 0)
                       && JS.ge (JS.lit 100) (matchQuality d))
       (sortedResults stroke corpus "All") = true.
Proof. vm_compute. split; reflexivity. Qed.

(** After a matched stroke, a stroke of three points leaves the earlier
    match in place. *)
Example double_short_stroke_keeps_results :
  let corpus :=
    [wholeSeries "rising" "c"
       [("01"%string, 0%Z); ("02"%string, 50%Z); ("03"%string, 100%Z)]] in
  let first :=
    endDrawing corpus
      (draw (pixel 4 4) (draw (pixel 3 3) (draw (pixel 2 2) (draw (pixel 1 1)
         (startDrawing (pixel 0 0) initialState))))) in
  let second :=
    endDrawing corpus
      (draw (pixel 2 0) (draw (pixel 1 0) (startDrawing (pixel 0 0) first))) in
  length (drawingPoints second) = 3%nat
  /\ product <$> (matched <$> patternResults second) = ["rising"%string].
Proof. vm_compute. split; reflexivity. Qed.

(** *** The corpus *)

(** Three products over two months: the product named by an array index
    comes first, a month without records counts 0, and the product with
    no positive month is left out. *)
Example double_corpus :
  (fun series =>
     (product series, category series,
      (fun d => (month d, sales d)) <$> data series, totalSales series))
  <$> default [] (timeSeriesData
        [order 2024 0 "tea" "drinks" 3 2; order 2023 11 "jam" "" 1 5;
         order 2024 0 "7" "food" 2 2; order 2024 0 "tea" "hot drinks" 1 2;
         order 2024 0 "gift" "food" 1 0])
  = [("7", "food", [("2023-12", JS.lit 0); ("2024-01", JS.lit 4)], JS.lit 4);
     ("tea", "drinks", [("2023-12", JS.lit 0); ("2024-01", JS.lit 8)],
      JS.lit 8);
     ("jam", "Unknown", [("2023-12", JS.lit 5); ("2024-01", JS.lit 0)],
      JS.lit 5)]%string.
Proof. vm_compute. reflexivity. Qed.

(** A product named [constructor]: the [TypeError]. *)
Example double_corpus_throws :
  timeSeriesData
    [order 2024 0 "tea" "drinks" 3 2; order 2024 0 "constructor" "toys" 1 1]
  = None.
Proof. vm_compute. reflexivity. Qed.

(** Records without a date or without a product are not read. *)
Example double_corpus_skips :
  timeSeriesData
    [mkItem None "tea" "drinks" (JS.lit 3) (JS.lit 2);
     mkItem (Some (LocalDate 2024 0)) "" "drinks" (JS.lit 3) (JS.lit 2)]
  = Some [].
Proof. vm_compute. reflexivity. Qed.

(** The choices of the category filter. *)
Example double_categories :
  categories
    [order 2024 0 "tea" "drinks" 3 2; order 2023 11 "jam" "" 1 5;
     order 2024 0 "7" "food" 2 2; order 2024 0 "tea" "drinks" 1 2]
  = ["All"; "drinks"; "food"]%string.
Proof. vm_compute. reflexivity. Qed.

(** ** The theorems at concrete inputs *)

(** A horizontal stroke and a constant series of two periods. *)
Lemma C3_zero_range_axes_witness :
  let stroke := [(0, 5); (1, 5)] in
  let values := [("2024-01"%string, 3); ("2024-02"%string, 3)] in
  let drawing := normalizedDrawing (points stroke) in
  let series := seriesOf "p" "c" values (Fin 6) in
  stroke <> [] /\ values <> []
  /\ (JS.max (y <$> points stroke) = JS.min (y <$> points stroke) ->
      Forall (fun p => y p = Fin 1) drawing)
  /\ Forall finitePoint (resampleCurve drawing numSamplePoints)
  /\ ((2 <= length values)%nat ->
      Forall finitePoint
        (resampleCurve (normalizedSeries series) numSamplePoints)).
Proof.
  cbn zeta.
  split; [discriminate|]. split; [discriminate|].
  destruct (C3_zero_range_axes [(0, 5); (1, 5)] "p" "c"
              [("2024-01"%string, 3); ("2024-02"%string, 3)] (Fin 6))
    as (_ & Hy & _ & _ & Hdrawing & _ & Hseries); [discriminate | discriminate |].
  split; [exact Hy|]. split; [exact Hdrawing|].
  intros Hlen. apply Hseries, Hlen.
Defined.

(** A rising stroke against a rising and a falling series. *)
Lemma C4_top_ten_ascending_stable_witness :
  let stroke := [(0, 0); (1, 1); (2, 2); (3, 3); (4, 4)] in
  let corpus :=
    [seriesOf "a" "c" [("2024-01"%string, 1); ("2024-02"%string, 2)] (Fin 3);
     seriesOf "b" "c" [("2024-01"%string, 2); ("2024-02"%string, 1)] (Fin 3)] in
  Forall realSeries corpus
  /\ (length (sortedResults (points stroke) corpus "All") <= 10)%nat
  /\ ascending (sortedResults (points stroke) corpus "All").
Proof.
  cbn zeta.
  assert (Hreal : Forall realSeries
            [seriesOf "a" "c" [("2024-01"%string, 1); ("2024-02"%string, 2)] (Fin 3);
             seriesOf "b" "c" [("2024-01"%string, 2); ("2024-02"%string, 1)] (Fin 3)]).
  { repeat constructor. }
  split; [exact Hreal|].
  destruct (C4_top_ten_ascending_stable
              [(0, 0); (1, 1); (2, 2); (3, 3); (4, 4)] _ "All" Hreal)
    as (Hlen & Hasc & _).
  split; [exact Hlen | exact Hasc].
Defined.

(** A first stroke of three points. *)
Lemma C5_short_stroke_is_not_searched_witness :
  let st := draw (pt 2 0) (draw (pt 1 0) (startDrawing (pt 0 0) initialState)) in
  (length (drawingPoints st) < 5)%nat
  /\ patternResults (endDrawing [] st) = patternResults st.
Proof.
  cbn zeta.
  assert (Hlen : (length (drawingPoints
                    (draw (pt 2 0) (draw (pt 1 0)
                       (startDrawing (pt 0 0) initialState)))) < 5)%nat)
    by (cbn; lia).
  split; [exact Hlen|].
  destruct (C5_short_stroke_is_not_searched [] _ Hlen) as [Hsame _].
  exact Hsame.
Defined.

(** A stroke of three points drawn from left to right. *)
Lemma C6_normalized_stroke_witness :
  let stroke := [(0, 3); (2, 1); (4, 2)] in
  stroke <> []
  /\ Forall (fun p => between 0 1 (x p) /\ between 0 1 (y p))
       (normalizedDrawing (points stroke)).
Proof.
  cbn zeta. split; [discriminate|].
  destruct (C6_normalized_stroke [(0, 3); (2, 1); (4, 2)]) as [Hunit _];
    [discriminate | exact Hunit].
Defined.

(** A rising curve against itself and against a falling curve. *)
Lemma C7_dtw_self_zero_and_nonnegative_witness :
  let a := [pt 0 0; pt 1 1] in
  let b := [pt 0 1; pt 1 0] in
  finiteY a /\ finiteY b
  /\ calculateDTWSimilarity a a = Fin 0
  /\ exists v, calculateDTWSimilarity a b = Fin v /\ 0 <= v.
Proof.
  cbn zeta.
  assert (Ha : finiteY [pt 0 0; pt 1 1]) by (repeat constructor).
  assert (Hb : finiteY [pt 0 1; pt 1 0]) by (repeat constructor).
  split; [exact Ha|]. split; [exact Hb|].
  destruct (C7_dtw_self_zero_and_nonnegative _ Ha) as [Hself Hpos].
  split; [exact Hself|]. apply Hpos; [exact Hb | discriminate | reflexivity].
Defined.

(** A match at distance 2 is shown with quality 60. *)
Lemma C8_match_quality_is_clamped_witness :
  let d := mkMatchResult (seriesOf "p" "c" [] (Fin 0)) (Fin 2) [] in
  distance (similarity d)
  /\ between 0 100 (matchQuality d)
  /\ matchQuality d = Fin (clamp 0 100 (100 - 2 * 20)).
Proof.
  cbn zeta.
  assert (Hd : distance (Fin 2)) by (cbn; lra).
  split; [exact Hd|].
  destruct (C8_match_quality_is_clamped
              (mkMatchResult (seriesOf "p" "c" [] (Fin 0)) (Fin 2) []) Hd)
    as [Hrange Hclamp].
  split; [exact Hrange | apply Hclamp; reflexivity].
Defined.

(** Three points against a single point. *)
Lemma C10_dtw_result_is_finite_witness :
  let a := [pt 0 0; pt 1 1; pt 2 0] in
  let b := [pt 0 1] in
  finiteY a /\ finiteY b /\ a <> [] /\ b <> []
  /\ Num.finite (calculateDTWSimilarity a b).
Proof.
  cbn zeta.
  assert (Ha : finiteY [pt 0 0; pt 1 1; pt 2 0]) by (repeat constructor).
  assert (Hb : finiteY [pt 0 1]) by (repeat constructor).
  split; [exact Ha|]. split; [exact Hb|].
  split; [discriminate|]. split; [discriminate|].
  destruct (C10_dtw_result_is_finite _ _ Ha Hb) as [Hfin _];
    [discriminate | discriminate | exact Hfin].
Defined.

Lemma X1_resample_count_and_ends_witness :
  let resampled := resampleCurve (points [(0, 0); (4, 0)]) 3 in
  (2 <= 3)%nat
  /\ (2 <= length resampled <= 3)%nat
  /\ head resampled = Some (pointOf (0, 0)).
Proof.
  cbn zeta. assert (Hn : (2 <= 3)%nat) by lia. split; [exact Hn|].
  destruct (X1_resample_count_and_ends (0, 0) (4, 0) [] 3 Hn)
    as (Hlen & Hhead & _).
  split; [exact Hlen | exact Hhead].
Defined.

Lemma X2_resample_by_arc_length_witness :
  0 < pathFrom (0, 0) [(4, 0)]
  /\ resampleCurve (points [(0, 0); (4, 0)]) 3
     = points ([(0, 0)]
               ++ ((fun i =>
                      pointAt (0, 0) [(4, 0)]
                        (INR i * (pathFrom (0, 0) [(4, 0)] / (INR 3 - 1))))
                   <$> seq 1 (3 - 2))
               ++ [List.last [(4, 0)] (0, 0)]).
Proof.
  assert (Hpath : 0 < pathFrom (0, 0) [(4, 0)]).
  { cbn [pathFrom]. rewrite Rplus_0_r. apply segment_positive.
    intros [= H]. lra. }
  split; [exact Hpath|].
  exact (X2_resample_by_arc_length (0, 0) (4, 0) [] 3 Hpath).
Defined.

Lemma X3_resample_segment_equal_parts_witness :
  (2 <= 3)%nat /\ (0, 0) <> (4, 0)
  /\ resampleCurve (points [(0, 0); (4, 0)]) 3
     = points ((fun i => interpolate (0, 0) (4, 0) (INR i / (INR 3 - 1)))
               <$> seq 0 3).
Proof.
  assert (Hn : (2 <= 3)%nat) by lia.
  assert (Hne : (0, 0) <> (4, 0)) by (intros [= H]; lra).
  split; [exact Hn|]. split; [exact Hne|].
  exact (X3_resample_segment_equal_parts (0, 0) (4, 0) 3 Hn Hne).
Defined.

Lemma X4_resample_stays_in_convex_hull_witness :
  convex unitSquare /\ Forall unitSquare [(0, 0); (1, 1)]
  /\ exists out : list (R * R),
       resampleCurve (points [(0, 0); (1, 1)]) 3 = points out
       /\ Forall unitSquare out.
Proof.
  assert (Hsquare : Forall unitSquare [(0, 0); (1, 1)])
    by (repeat constructor; cbn; lra).
  split; [exact unitSquare_convex|]. split; [exact Hsquare|].
  exact (X4_resample_stays_in_convex_hull unitSquare [(0, 0); (1, 1)] 3
           unitSquare_convex Hsquare).
Defined.

Lemma X5_dtw_least_warping_cost_witness :
  let a := [pt 0 0; pt 1 1] in
  let b := [pt 0 1] in
  finiteY a /\ finiteY b /\ a <> [] /\ b <> []
  /\ exists s,
       calculateDTWSimilarity a b = Fin s
       /\ exists w, warping (length a) (length b) w /\ pathCost a b w = s.
Proof.
  cbn zeta.
  assert (Ha : finiteY [pt 0 0; pt 1 1]) by (repeat constructor).
  assert (Hb : finiteY [pt 0 1]) by (repeat constructor).
  assert (Hna : [pt 0 0; pt 1 1] <> []) by discriminate.
  assert (Hnb : [pt 0 1] <> []) by discriminate.
  split; [exact Ha|]. split; [exact Hb|]. split; [exact Hna|].
  split; [exact Hnb|].
  destruct (X5_dtw_least_warping_cost _ _ Ha Hb Hna Hnb) as (s & Hs & Hw & _).
  exists s. split; [exact Hs | exact Hw].
Defined.

Lemma X6_dtw_symmetric_witness :
  let a := [pt 0 0; pt 1 1] in
  let b := [pt 0 1] in
  finiteY a /\ finiteY b
  /\ calculateDTWSimilarity a b = calculateDTWSimilarity b a.
Proof.
  cbn zeta.
  assert (Ha : finiteY [pt 0 0; pt 1 1]) by (repeat constructor).
  assert (Hb : finiteY [pt 0 1]) by (repeat constructor).
  split; [exact Ha|]. split; [exact Hb|].
  exact (X6_dtw_symmetric _ _ Ha Hb).
Defined.

Lemma X7_dtw_at_least_endpoints_witness :
  let a := [pt 0 0; pt 1 1] in
  let b := [pt 0 1] in
  finiteY a /\ finiteY b /\ a <> [] /\ b <> []
  /\ exists s,
       calculateDTWSimilarity a b = Fin s
       /\ Rabs (yReal a 0 - yReal b 0) <= s.
Proof.
  cbn zeta.
  assert (Ha : finiteY [pt 0 0; pt 1 1]) by (repeat constructor).
  assert (Hb : finiteY [pt 0 1]) by (repeat constructor).
  assert (Hna : [pt 0 0; pt 1 1] <> []) by discriminate.
  assert (Hnb : [pt 0 1] <> []) by discriminate.
  split; [exact Ha|]. split; [exact Hb|]. split; [exact Hna|].
  split; [exact Hnb|].
  destruct (X7_dtw_at_least_endpoints _ _ Ha Hb Hna Hnb) as (s & Hs & Hfirst & _).
  exists s. split; [exact Hs | exact Hfirst].
Defined.

Lemma X8_dtw_bounded_witness :
  let a := [pt 0 0; pt 1 1] in
  let b := [pt 0 1] in
  yBetween 0 1 a /\ yBetween 0 1 b /\ a <> [] /\ b <> []
  /\ exists s,
       calculateDTWSimilarity a b = Fin s
       /\ 0 <= s <= INR (Nat.max (length a) (length b)) * (1 - 0).
Proof.
  cbn zeta.
  assert (Ha : yBetween 0 1 [pt 0 0; pt 1 1]) by (repeat constructor; cbn; lra).
  assert (Hb : yBetween 0 1 [pt 0 1]) by (repeat constructor; cbn; lra).
  assert (Hna : [pt 0 0; pt 1 1] <> []) by discriminate.
  assert (Hnb : [pt 0 1] <> []) by discriminate.
  split; [exact Ha|]. split; [exact Hb|]. split; [exact Hna|].
  split; [exact Hnb|].
  exact (X8_dtw_bounded 0 1 _ _ Ha Hb Hna Hnb).
Defined.

Lemma X9_dtw_ignores_x_witness :
  let a := [pixel 0 0; pixel 1 1] in
  let a' := [pixel 5 0; pixel 9 1] in
  let b := [pixel 0 1] in
  y <$> a = y <$> a' /\ y <$> b = y <$> b
  /\ calculateDTWSimilarity a b = calculateDTWSimilarity a' b.
Proof.
  cbn zeta.
  assert (Ha : y <$> [pixel 0 0; pixel 1 1] = y <$> [pixel 5 0; pixel 9 1])
    by reflexivity.
  assert (Hb : y <$> [pixel 0 1] = y <$> [pixel 0 1]) by reflexivity.
  split; [exact Ha|]. split; [exact Hb|].
  exact (X9_dtw_ignores_x _ _ _ _ Ha Hb).
Defined.

Lemma X10_dtw_empty_curve_witness :
  [pt 0 0] <> [] /\ calculateDTWSimilarity [] [pt 0 0] = PInf.
Proof.
  assert (Hc : [pt 0 0] <> []) by discriminate.
  split; [exact Hc|].
  destruct (X10_dtw_empty_curve [pt 0 0] Hc) as [Hl _]. exact Hl.
Defined.

Lemma X11_normalized_stroke_invariant_witness :
  0 < 2 /\ 0 < 3
  /\ normalizedDrawing (points (transformed 2 10 3 20 [(0, 0); (1, 2)]))
     = normalizedDrawing (points [(0, 0); (1, 2)]).
Proof.
  assert (H2 : 0 < 2) by lra. assert (H3 : 0 < 3) by lra.
  split; [exact H2|]. split; [exact H3|].
  exact (X11_normalized_stroke_invariant 2 10 3 20 [(0, 0); (1, 2)] H2 H3).
Defined.

Lemma X12_normalized_stroke_reaches_bounds_witness :
  let stroke := [(0, 0); (1, 2)] in
  stroke <> []
  /\ (upper (fst <$> stroke) <> lower (fst <$> stroke) ->
      (exists p, p ∈ normalizedDrawing (points stroke) /\ x p = Fin 0)
      /\ (exists p, p ∈ normalizedDrawing (points stroke) /\ x p = Fin 1)).
Proof.
  cbn zeta.
  assert (Hne : [(0, 0); (1, 2)] <> []) by discriminate.
  split; [exact Hne|].
  destruct (X12_normalized_stroke_reaches_bounds [(0, 0); (1, 2)] Hne)
    as [Hx _].
  exact Hx.
Defined.

Lemma X13_normalized_series_invariant_witness :
  let values := [("2024-01"%string, 1); ("2024-02"%string, 3)] in
  0 < 100
  /\ normalizedSeries (seriesOf "tea" "drinks" (rescaled 100 5 values) (Fin 410))
     = normalizedSeries (seriesOf "tea" "drinks" values (Fin 4)).
Proof.
  cbn zeta. assert (Hs : 0 < 100) by lra. split; [exact Hs|].
  exact (X13_normalized_series_invariant 100 5 "tea" "tea" "drinks" "drinks"
           [("2024-01"%string, 1); ("2024-02"%string, 3)] (Fin 4) (Fin 410) Hs).
Defined.

Lemma X14_normalized_series_curve_witness :
  let values := [("2024-01"%string, 1); ("2024-02"%string, 3)] in
  (2 <= length values)%nat
  /\ normalizedCurve (normalizedSeries (seriesOf "tea" "drinks" values (Fin 4))).
Proof.
  cbn zeta.
  assert (Hlen : (2 <= length [("2024-01"%string, 1); ("2024-02"%string, 3)])%nat)
    by (cbn; lia).
  split; [exact Hlen|].
  destruct (X14_normalized_series_curve "tea" "drinks"
              [("2024-01"%string, 1); ("2024-02"%string, 3)] (Fin 4) Hlen)
    as (_ & _ & Hcurve).
  exact Hcurve.
Defined.

Lemma X15_search_distances_bounded_witness :
  let stroke := [(0, 0); (1, 1)] in
  let corpus :=
    [seriesOf "tea" "drinks" [("2024-01"%string, 1); ("2024-02"%string, 3)]
       (Fin 4)] in
  stroke <> []
  /\ Forall (fun series => realSeries series /\ data series <> []) corpus
  /\ Forall (fun r => exists v, similarity r = Fin v /\ 0 <= v <= 20)
       (sortedResults (points stroke) corpus "All").
Proof.
  cbn zeta.
  assert (Hstroke : [(0, 0); (1, 1)] <> []) by discriminate.
  assert (Hcorpus :
            Forall (fun series => realSeries series /\ data series <> [])
              [seriesOf "tea" "drinks"
                 [("2024-01"%string, 1); ("2024-02"%string, 3)] (Fin 4)]).
  { constructor; [|constructor]. split; [repeat constructor | discriminate]. }
  split; [exact Hstroke|]. split; [exact Hcorpus|].
  exact (X15_search_distances_bounded _ _ "All" Hstroke Hcorpus).
Defined.

(** Eleven series: one result is left out. *)
Lemma X16_search_keeps_the_closest_witness :
  let stroke := [(0, 0); (1, 1)] in
  let corpus :=
    replicate 11
      (seriesOf "tea" "drinks" [("2024-01"%string, 1); ("2024-02"%string, 3)]
         (Fin 4)) in
  let sorted := sort bySimilarity (results (points stroke) corpus "All") in
  Forall realSeries corpus
  /\ exists kept left : MatchResult num,
       kept ∈ take 10 sorted /\ left ∈ drop 10 sorted
       /\ numLe (similarity kept) (similarity left).
Proof.
  cbn zeta.
  set (corpus :=
         replicate 11
           (seriesOf "tea" "drinks"
              [("2024-01"%string, 1); ("2024-02"%string, 3)] (Fin 4))).
  set (sorted :=
         sort bySimilarity (results (points [(0, 0); (1, 1)]) corpus "All")).
  assert (Hreal : Forall realSeries corpus)
    by (apply Forall_replicate; repeat constructor).
  assert (Hlen : length sorted = 11%nat).
  { unfold sorted. rewrite sort_length. unfold results.
    rewrite length_fmap. reflexivity. }
  destruct (lookup_lt_is_Some_2 sorted 0) as [kept Hkept]; [lia|].
  destruct (lookup_lt_is_Some_2 sorted 10) as [left Hleft]; [lia|].
  assert (Hin : kept ∈ take 10 sorted).
  { apply elem_of_take. exists 0%nat. split; [exact Hkept | lia]. }
  assert (Hout : left ∈ drop 10 sorted).
  { apply (list_elem_of_lookup_2 _ 0). rewrite lookup_drop. exact Hleft. }
  split; [exact Hreal|]. exists kept, left.
  split; [exact Hin|]. split; [exact Hout|].
  destruct (X16_search_keeps_the_closest [(0, 0); (1, 1)] corpus "All" Hreal)
    as (_ & _ & Hclosest).
  exact (Hclosest kept left Hin Hout).
Defined.

Lemma X18_match_quality_decreasing_witness :
  let d := mkMatchResult (seriesOf "tea" "drinks" [] (Fin 0)) (Fin 1) [] in
  let e := mkMatchResult (seriesOf "jam" "food" [] (Fin 0)) (Fin 2) [] in
  similarity d = Fin 1 /\ similarity e = Fin 2 /\ 0 <= 1 <= 2
  /\ numLe (matchQuality e) (matchQuality d).
Proof.
  cbn zeta.
  assert (Hvw : 0 <= 1 <= 2) by lra.
  split; [reflexivity|]. split; [reflexivity|]. split; [exact Hvw|].
  destruct (X18_match_quality_decreasing
              (mkMatchResult (seriesOf "tea" "drinks" [] (Fin 0)) (Fin 1) [])
              (mkMatchResult (seriesOf "jam" "food" [] (Fin 0)) (Fin 2) [])
              1 2 eq_refl eq_refl Hvw) as [Hle _].
  exact Hle.
Defined.

Lemma X20_end_of_stroke_searches_witness :
  let corpus :=
    [seriesOf "tea" "drinks" [("2024-01"%string, 1); ("2024-02"%string, 3)]
       (Fin 4)] in
  let st :=
    draw (pt 4 4) (draw (pt 3 3) (draw (pt 2 2) (draw (pt 1 1)
      (startDrawing (pt 0 0) initialState)))) in
  (5 <= length (drawingPoints st))%nat /\ corpus <> []
  /\ patternResults (endDrawing corpus st)
     = sortedResults (drawingPoints st) corpus (selectedCategory st).
Proof.
  cbn zeta.
  set (corpus :=
         [seriesOf "tea" "drinks"
            [("2024-01"%string, 1); ("2024-02"%string, 3)] (Fin 4)]).
  set (st :=
         draw (pt 4 4) (draw (pt 3 3) (draw (pt 2 2) (draw (pt 1 1)
           (startDrawing (pt 0 0) initialState))))).
  assert (Hlen : (5 <= length (drawingPoints st))%nat) by (cbn; lia).
  assert (Hcorpus : corpus <> []) by discriminate.
  split; [exact Hlen|]. split; [exact Hcorpus|].
  rewrite (X20_end_of_stroke_searches corpus st Hlen Hcorpus). reflexivity.
Defined.

Lemma X21_corpus_series_witness :
  match
    timeSeriesData
      [order 2024 0 "tea" "drinks" 3 2; order 2023 11 "jam" "food" 1 5;
       order 2024 1 "tea" "drinks" 1 2; order 2024 0 "jam" "food" 2 5]
  with
  | Some corpus =>
      length corpus = 2%nat /\ NoDup (product <$> corpus)
      /\ Forall (fun series => length (data series) = 3%nat) corpus
  | None => False
  end.
Proof.
  destruct (timeSeriesData _) as [corpus|] eqn:Hcorpus;
    [|vm_compute in Hcorpus; discriminate].
  destruct (X21_corpus_series _ corpus Hcorpus) as (Hnodup & _).
  vm_compute in Hcorpus. injection Hcorpus as <-.
  split; [reflexivity|]. split; [exact Hnodup|]. repeat constructor.
Defined.

Lemma X23_corpus_category_witness :
  let items :=
    [order 2024 0 "tea" "drinks" 3 2; order 2024 1 "tea" "hot drinks" 1 2] in
  match timeSeriesData items with
  | Some corpus =>
      Forall (fun series =>
                exists first,
                  firstRecord items (product series) = Some first
                  /\ category series = categoryOf first)
        corpus
  | None => False
  end.
Proof.
  cbn zeta. destruct (timeSeriesData _) as [corpus|] eqn:Hcorpus;
    [|vm_compute in Hcorpus; discriminate].
  exact (X23_corpus_category _ corpus Hcorpus).
Defined.

Lemma X25_corpus_sales_witness :
  let items :=
    [sale 2024 0 "tea" "drinks" 3 2; sale 2024 1 "tea" "drinks" 1 2] in
  Forall realItem items
  /\ exists corpus,
       timeSeriesData items = Some corpus
       /\ Forall (fun series =>
                    totalSales series
                    = Fin (productSales items (product series)))
            corpus.
Proof.
  cbn zeta.
  set (items := [sale 2024 0 "tea" "drinks" 3 2; sale 2024 1 "tea" "drinks" 1 2]).
  assert (Hreal : Forall realItem items)
    by (repeat constructor; discriminate).
  assert (Hnames : Forall (fun item => ProductName item ∉ Object.prototype)
                     items)
    by (repeat constructor; apply not_inherited; reflexivity).
  destruct (timeSeriesData_built items Hnames) as [corpus Hcorpus].
  split; [exact Hreal|]. exists corpus. split; [exact Hcorpus|].
  eapply Forall_impl; [exact (X25_corpus_sales items corpus Hreal Hcorpus)|].
  intros series [Htotal _]. exact Htotal.
Defined.

Lemma X26_search_over_records_witness :
  let items :=
    [sale 2024 0 "tea" "drinks" 3 2; sale 2024 1 "tea" "drinks" 1 2] in
  let stroke := [(0, 0); (1, 1)] in
  Forall realItem items /\ stroke <> []
  /\ exists corpus,
       timeSeriesData items = Some corpus
       /\ Forall (fun r => between 0 100 (matchQuality r))
            (sortedResults (points stroke) corpus "All").
Proof.
  cbn zeta.
  set (items := [sale 2024 0 "tea" "drinks" 3 2; sale 2024 1 "tea" "drinks" 1 2]).
  assert (Hreal : Forall realItem items)
    by (repeat constructor; discriminate).
  assert (Hstroke : [(0, 0); (1, 1)] <> []) by discriminate.
  assert (Hnames : Forall (fun item => ProductName item ∉ Object.prototype)
                     items)
    by (repeat constructor; apply not_inherited; reflexivity).
  destruct (timeSeriesData_built items Hnames) as [corpus Hcorpus].
  split; [exact Hreal|]. split; [exact Hstroke|].
  exists corpus. split; [exact Hcorpus|].
  eapply Forall_impl;
    [exact (X26_search_over_records items corpus _ "All" Hreal Hcorpus
              Hstroke)|].
  intros r [_ Hquality]. exact Hquality.
Defined.

Lemma X27_corpus_axis_witness :
  let items :=
    [sale 2024 0 "tea" "drinks" 3 2; sale 2024 1 "tea" "drinks" 1 2] in
  exists corpus,
    timeSeriesData items = Some corpus
    /\ Forall (fun series =>
                 StronglySorted (fun u v => String.ltb u v = true)
                   (month <$> data series))
         corpus.
Proof.
  cbn zeta.
  set (items := [sale 2024 0 "tea" "drinks" 3 2; sale 2024 1 "tea" "drinks" 1 2]).
  assert (Hnames : Forall (fun item => ProductName item ∉ Object.prototype)
                     items)
    by (repeat constructor; apply not_inherited; reflexivity).
  destruct (timeSeriesData_built items Hnames) as [corpus Hcorpus].
  exists corpus. split; [exact Hcorpus|].
  eapply Forall_impl; [exact (X27_corpus_axis items corpus Hcorpus)|].
  intros series [Hsorted _]. exact Hsorted.
Defined.

Lemma X28_month_keys_in_order_of_time_witness :
  fourDigitYear (LocalDate 2023 11) /\ fourDigitYear (LocalDate 2024 0)
  /\ (String.ltb (monthKey (LocalDate 2023 11)) (monthKey (LocalDate 2024 0))
      = true
      <-> earlier (LocalDate 2023 11) (LocalDate 2024 0)).
Proof.
  assert (Hd : fourDigitYear (LocalDate 2023 11)) by (cbn; lia).
  assert (Hd' : fourDigitYear (LocalDate 2024 0)) by (cbn; lia).
  split; [exact Hd|]. split; [exact Hd'|].
  exact (X28_month_keys_in_order_of_time _ _ Hd Hd').
Defined.

